(** * Leave-one-domain-out training loop of [train_basic.py]

    A shallow embedding of the control logic of
    [emnlp_final_experiments/sentiment-analysis/train_basic.py]:
    the interleaved batch scheduler and the early-stopping controller of
    [train], and the split / reload / aggregation code of [__main__].

    Conventions.
    - Python [int]s are [Z]; list positions that the code only ever reads
      from [range(len(..))] are [nat].
    - Python [float]s (accuracies, the train fraction) are exact rationals
      [Q]: rounding of binary floating point is not modelled.
    - Text files hold ASCII text, as [string].
    - Calls into external collaborators (the network, the evaluators, the
      random generator, the experiment tracker) are either oracles given as
      section variables or events appended to a trace. *)

From Stdlib Require Import ZArith QArith Qround String Ascii List Permutation Lia.
From Stdlib Require Import DecimalString DecimalNat DecimalFacts.
From stdpp Require Import base list gmap strings.

Local Open Scope Z_scope.
Local Open Scope nat_scope.

(** ** Python outcomes *)

Inductive pyerr : Type :=
| IndexError
| ValueError
| ZeroDivisionError
| FileNotFoundError.

(** A computation finishes with a value, raises an exception that nothing
    catches, or exhausts the fuel of a [while] loop of the model. *)
Inductive outcome (A : Type) : Type :=
| Done (a : A)
| Raise (e : pyerr)
| OutOfFuel.
Arguments Done {A} a.
Arguments Raise {A} e.
Arguments OutOfFuel {A}.

#[global] Instance outcome_ret : MRet outcome := fun A a => Done a.
#[global] Instance outcome_bind : MBind outcome := fun A C f m =>
  match m with
  | Done a => f a
  | Raise e => Raise e
  | OutOfFuel => OutOfFuel
  end.


(** ** Events of one call of [train] *)

Record metrics : Type := Metrics {
  m_loss : Q; m_acc : Q; m_P : Q; m_R : Q; m_F1 : Q
}.

Inductive event (B : Type) : Type :=
| ZeroGrad                                   (* optimizer.zero_grad() *)
| Forward (d : nat) (b : B)                  (* model(...) on a batch of loader d *)
| LogLoss (d : nat) (b : B) (scale : Z)      (* wandb.log({"Loss": (loss / scale).item()}) *)
| Backward (d : nat) (b : B) (scale : Z)     (* (loss / scale).backward() *)
| OptimizerStep                              (* optimizer.step() *)
| SchedulerStep                              (* scheduler.step() *)
| Evaluate (epoch : Z)                       (* validation_evaluator.evaluate(model) *)
| SaveCheckpoint (epoch : Z)                 (* torch.save(model.state_dict(), ...) *)
| LogValidation (m : metrics).               (* wandb.log({'Validation accuracy': ...}) *)
Arguments ZeroGrad {B}.
Arguments Forward {B} d b.
Arguments LogLoss {B} d b scale.
Arguments Backward {B} d b scale.
Arguments OptimizerStep {B}.
Arguments SchedulerStep {B}.
Arguments Evaluate {B} epoch.
Arguments SaveCheckpoint {B} epoch.
Arguments LogValidation {B} m.

(** ** The interleaved scheduler: lines 61-103 of [train] *)

Module Scheduler.
Section Scheduler.
Context {B : Type}.

(** [random.shuffle(dl_idx)]: the result of the [c]-th call on a list. *)
Variable shuffle : nat -> list nat -> list nat.
Variable gradient_accumulation : Z.
Variable log_interval : Z.
(** [scheduler is not None] *)
Variable has_scheduler : bool.

Record state : Type := State {
  dl_iters : list (list B);   (* what each iterator has still to yield *)
  dl_idx : list nat;
  finished : list nat;
  i_ctr : Z;                  (* the counter [i] *)
  rng : nat                   (* calls of random.shuffle so far *)
}.

(** [for j in range(n): batches.append(next(domain_dl))] under the [try]:
    the batches pulled, the rest of the iterator, and whether
    [StopIteration] was raised. *)
Fixpoint next_batches (n : nat) (it : list B) : list B * list B * bool :=
  match n with
  | O => ([], it, false)
  | S n' =>
      match it with
      | [] => ([], [], true)
      | b :: it' =>
          let '(bs, rest, stop) := next_batches n' it' in (b :: bs, rest, stop)
      end
  end.

(** [for batch in batches: ...], lines 79-99. *)
Fixpoint run_batches (d : nat) (bs : list B) (i : Z)
  : outcome (list (event B) * Z) :=
  match bs with
  | [] => Done ([], i)
  | b :: bs' =>
      if (log_interval =? 0)%Z then Raise ZeroDivisionError
      else
        let log := if (i mod log_interval =? 0)%Z
                   then [LogLoss d b gradient_accumulation] else [] in
        '(evs, i') ← run_batches d bs' (i + 1)%Z;
        Done (Forward d b :: log ++ Backward d b gradient_accumulation :: evs, i')
  end.

(** The body of [for d in dl_idx], lines 69-103. *)
Definition visit (d : nat) (st : state) : outcome (list (event B) * state) :=
  match dl_iters st !! d with
  | None => Raise IndexError
  | Some it =>
      let '(batches, rest, stop) :=
        next_batches (Z.to_nat gradient_accumulation) it in
      let fin := if stop then <[d := 1]> (finished st) else finished st in
      if stop && (length batches =? 0) then
        Done ([], State (<[d := rest]> (dl_iters st)) (dl_idx st) fin
                        (i_ctr st) (rng st))
      else
        '(evs, i') ← run_batches d batches (i_ctr st);
        Done (ZeroGrad :: evs ++ OptimizerStep ::
                (if has_scheduler then [SchedulerStep] else []),
              State (<[d := rest]> (dl_iters st)) (dl_idx st) fin i' (rng st))
  end.

Fixpoint for_domains (ds : list nat) (st : state)
  : outcome (list (event B) * state) :=
  match ds with
  | [] => Done ([], st)
  | d :: ds' =>
      '(e1, st1) ← visit d st;
      '(e2, st2) ← for_domains ds' st1;
      Done (e1 ++ e2, st2)
  end.

(** [while sum(finished) < len(dl_iters)], lines 66-103. *)
Fixpoint passes (fuel : nat) (st : state) : outcome (list (event B) * state) :=
  match fuel with
  | O => OutOfFuel
  | S fuel' =>
      if sum_list (finished st) <? length (dl_iters st) then
        let idx := shuffle (rng st) (dl_idx st) in
        '(e1, st1) ← for_domains idx
                       (State (dl_iters st) idx (finished st) (i_ctr st)
                              (S (rng st)));
        '(e2, st2) ← passes fuel' st1;
        Done (e1 ++ e2, st2)
      else Done ([], st)
  end.

(** Lines 61-64: the state at the start of an epoch whose iterators
    [iter(dl)] yield the batch sequences [dls]. *)
Definition start (dls : list (list B)) (r : nat) : state :=
  State dls (seq 0 (length dls)) (replicate (length dls) 0) 0%Z r.

Definition run_epoch (fuel : nat) (dls : list (list B)) (r : nat)
  : outcome (list (event B) * state) :=
  passes fuel (start dls r).

End Scheduler.
End Scheduler.

(** ** The epoch loop and the early-stopping controller: [train] *)

Module Train.
Section Train.
Context {B : Type}.

Variable shuffle : nat -> list nat -> list nat.
(** [validation_evaluator.evaluate(model)] at the end of the epoch during
    which [epoch_counter] has the given value. *)
Variable evaluate : Z -> metrics.
(** The batch sequence each loader yields in an epoch. A batch stands for
    its position in the loader: reshuffling of examples between epochs
    changes the content of a batch, not the sequence of positions. *)
Variable train_dls : list (list B).
Variable n_epochs : Z.
Variable log_interval : Z.
Variable patience : Z.
Variable gradient_accumulation : Z.
Variable has_scheduler : bool.

Record state : Type := State {
  best_acc : Q;
  patience_counter : Z;
  epoch_counter : Z;
  rng : nat
}.

(** Lines 53-56. *)
Definition init (r : nat) : state := State 0%Q 0%Z 0%Z r.

(** [acc > best_acc] *)
Definition Qgtb (x y : Q) : bool := negb (Qle_bool x y).

(** Lines 108-136: what follows the scheduler in one iteration of the
    main loop. The boolean tells whether [break] was executed. *)
Definition after_epoch (st : state) : list (event B) * state * bool :=
  let m := evaluate (epoch_counter st) in
  if Qgtb (m_acc m) (best_acc st) then
    ([Evaluate (epoch_counter st); SaveCheckpoint (epoch_counter st);
      LogValidation m],
     State (m_acc m) 0%Z (epoch_counter st + 1)%Z (rng st), false)
  else
    let pc := (patience_counter st + 1)%Z in
    if (pc =? patience)%Z then
      ([Evaluate (epoch_counter st)],
       State (best_acc st) pc (epoch_counter st) (rng st), true)
    else
      ([Evaluate (epoch_counter st)],
       State (best_acc st) pc (epoch_counter st + 1)%Z (rng st), false).

(** [while epoch_counter < n_epochs], lines 60-136. [k] bounds the
    iterations of this loop, [fuel] those of the scheduler's loop. *)
Fixpoint epochs (k fuel : nat) (st : state) : outcome (list (event B) * state) :=
  match k with
  | O => OutOfFuel
  | S k' =>
      if (epoch_counter st <? n_epochs)%Z then
        '(e1, s1) ← Scheduler.run_epoch shuffle gradient_accumulation
                       log_interval has_scheduler fuel train_dls (rng st);
        let '(e2, st2, brk) :=
          after_epoch (State (best_acc st) (patience_counter st)
                             (epoch_counter st) (Scheduler.rng s1)) in
        if brk then Done (e1 ++ e2, st2)
        else
          '(e3, st3) ← epochs k' fuel st2;
          Done (e1 ++ e2 ++ e3, st3)
      else Done ([], st)
  end.

Definition train (fuel : nat) (r : nat) : outcome (list (event B) * state) :=
  epochs fuel fuel (init r).

End Train.
End Train.

(** ** Observations on a trace *)

Section Observations.
Context {B : Type}.

Definition is_optimizer_step (e : event B) : bool :=
  match e with OptimizerStep => true | _ => false end.
Definition is_scheduler_step (e : event B) : bool :=
  match e with SchedulerStep => true | _ => false end.
Definition is_log_loss (e : event B) : bool :=
  match e with LogLoss _ _ _ => true | _ => false end.

Definition optimizer_steps (tr : list (event B)) : nat :=
  length (filter (fun e => is_optimizer_step e = true) tr).
Definition scheduler_steps (tr : list (event B)) : nat :=
  length (filter (fun e => is_scheduler_step e = true) tr).
Definition loss_events (tr : list (event B)) : nat :=
  length (filter (fun e => is_log_loss e = true) tr).

(** The batches of loader [d] that went through the network, in order. *)
Definition forwarded (d : nat) (tr : list (event B)) : list B :=
  omap (fun e => match e with
                 | Forward d' b => if decide (d' = d) then Some b else None
                 | _ => None
                 end) tr.

(** All the batches that went through the network, with their loader. *)
Definition forwards (tr : list (event B)) : list (nat * B) :=
  omap (fun e => match e with
                 | Forward d b => Some (d, b)
                 | _ => None
                 end) tr.

(** The batches whose gradient was accumulated, with the divisor of the
    loss. *)
Definition backwarded (tr : list (event B)) : list (nat * B * Z) :=
  omap (fun e => match e with
                 | Backward d b s => Some (d, b, s)
                 | _ => None
                 end) tr.

(** The accumulation groups of a trace: for each [optimizer.zero_grad()]
    the batches (with their loader) that were run before the next one,
    and the numbers of loss events, optimizer steps and scheduler steps
    in that stretch. *)
Record group : Type := Group {
  g_batches : list (nat * B);
  g_logged : nat;
  g_opt : nat;
  g_sched : nat
}.

Definition group_add (e : event B) (g : group) : group :=
  match e with
  | Forward d b => Group ((d, b) :: g_batches g) (g_logged g) (g_opt g) (g_sched g)
  | LogLoss _ _ _ => Group (g_batches g) (S (g_logged g)) (g_opt g) (g_sched g)
  | OptimizerStep => Group (g_batches g) (g_logged g) (S (g_opt g)) (g_sched g)
  | SchedulerStep => Group (g_batches g) (g_logged g) (g_opt g) (S (g_sched g))
  | _ => g
  end.

(** [groups_from tr] gives the stretch before the first [ZeroGrad] and the
    groups opened by each [ZeroGrad]. *)
Fixpoint groups_from (tr : list (event B)) : group * list group :=
  match tr with
  | [] => (Group [] 0 0 0, [])
  | e :: tr' =>
      let '(cur, gs) := groups_from tr' in
      match e with
      | ZeroGrad => (Group [] 0 0 0, cur :: gs)
      | _ => (group_add e cur, gs)
      end
  end.

Definition groups (tr : list (event B)) : list group := (groups_from tr).2.

(** For each batch that went through the network, in order: whether its
    loss was logged. *)
Fixpoint batch_logged (tr : list (event B)) : list bool :=
  match tr with
  | [] => []
  | Forward _ _ :: LogLoss _ _ _ :: tr' => true :: batch_logged tr'
  | Forward _ _ :: tr' => false :: batch_logged tr'
  | _ :: tr' => batch_logged tr'
  end.

Definition evaluated (tr : list (event B)) : list Z :=
  omap (fun e => match e with Evaluate k => Some k | _ => None end) tr.
Definition saved (tr : list (event B)) : list Z :=
  omap (fun e => match e with SaveCheckpoint k => Some k | _ => None end) tr.
Definition validation_logs (tr : list (event B)) : list metrics :=
  omap (fun e => match e with LogValidation m => Some m | _ => None end) tr.

End Observations.

(** The reading of the logging cadence by accumulation groups: the groups
    numbered 0, [log_interval], 2 [log_interval], ... of an epoch emit one
    loss event each, the others none. *)
Definition logs_every_nth_group {B} (log_interval : Z) (tr : list (event B)) : Prop :=
  g_logged <$> groups tr
  = (fun j => if (Z.of_nat j mod log_interval =? 0)%Z then 1 else 0)
      <$> seq 0 (length (groups tr)).

(** ** Improving epochs *)

(** [exceeds evaluate x e]: [x] is above 0.0 and above the validation
    accuracy of every epoch before epoch [e] (epochs are counted from 0, as
    [epoch_counter] does). *)
Definition exceeds (evaluate : Z -> metrics) (x : Q) (e : Z) : bool :=
  Train.Qgtb x 0 &&
  forallb (fun e' => Train.Qgtb x (m_acc (evaluate (Z.of_nat e'))))
          (seq 0 (Z.to_nat e)).

(** Epoch [e] improves on the best validation accuracy seen before it. *)
Definition improves (evaluate : Z -> metrics) (e : Z) : bool :=
  exceeds evaluate (m_acc (evaluate e)) e.

(** The best accuracy kept in the state of [train] is the largest of 0.0
    and the accuracies of the epochs run so far. *)
Definition tracks_best (evaluate : Z -> metrics) (st : Train.state) : Prop :=
  (0 <= Train.epoch_counter st)%Z /\
  forall x, Train.Qgtb x (Train.best_acc st)
            = exceeds evaluate x (Train.epoch_counter st).

(** [ceil(n / g)] on naturals, for [g >= 1]. *)
Definition ceil_div (n g : nat) : nat := (n + g - 1) / g.

(** ** What a trace of the scheduler looks like *)

Section Interleaving.
Context {B : Type}.
Variable gradient_accumulation : Z.
Variable log_interval : Z.
Variable has_scheduler : bool.

(** The events of the batches of one accumulation group, the first of
    which meets the counter at [i]. *)
Fixpoint batch_events (d : nat) (bs : list B) (i : Z) : list (event B) :=
  match bs with
  | [] => []
  | b :: bs' =>
      Forward d b ::
      (if (i mod log_interval =? 0)%Z
       then [LogLoss d b gradient_accumulation] else [])
      ++ Backward d b gradient_accumulation :: batch_events d bs' (i + 1)%Z
  end.

(** The events of one accumulation group. *)
Definition block (d : nat) (bs : list B) (i : Z) : list (event B) :=
  ZeroGrad :: batch_events d bs i
    ++ OptimizerStep :: (if has_scheduler then [SchedulerStep] else []).

(** [interleaving its i tr its' i']: the trace [tr] is a sequence of
    accumulation groups, each made of the next batches (at most
    [gradient_accumulation] of them, and at least one) of one of the
    iterators; it takes the iterators from [its] to [its'] and the
    counter from [i] to [i']. *)
Inductive interleaving
  : list (list B) -> Z -> list (event B) -> list (list B) -> Z -> Prop :=
| interleaving_nil its i : interleaving its i [] its i
| interleaving_block its i d it tr its' i' :
    its !! d = Some it ->
    it <> [] ->
    interleaving (<[d := drop (Z.to_nat gradient_accumulation) it]> its)
                 (i + Z.of_nat (length (take (Z.to_nat gradient_accumulation) it)))%Z
                 tr its' i' ->
    interleaving its i
                 (block d (take (Z.to_nat gradient_accumulation) it) i ++ tr)
                 its' i'.

End Interleaving.

(** An accumulation group as the scheduler forms them: batches of one
    loader, at least one and at most [g], followed by one optimizer step
    and, if there is a scheduler, one scheduler step. *)
Definition scheduler_group {B} (g : nat) (has_scheduler : bool) (grp : group (B:=B))
  : Prop :=
  g_opt grp = 1 /\
  g_sched grp = (if has_scheduler then 1 else 0) /\
  exists d bs, g_batches grp = (fun b => (d, b)) <$> bs /\
               bs <> [] /\ length bs <= g.

(** Whether the loss is logged for each of [m] batches, the first of which
    meets the counter at [i]: line 92. *)
Fixpoint log_flags (log_interval : Z) (i : Z) (m : nat) : list bool :=
  match m with
  | O => []
  | S m' => (i mod log_interval =? 0)%Z :: log_flags log_interval (i + 1)%Z m'
  end.

(** What holds of the scheduler's state between two visits: one flag per
    iterator, each 0 or 1, and a flag is 1 only if its iterator is
    exhausted. *)
Definition sched_inv {B} (st : Scheduler.state (B:=B)) : Prop :=
  length (Scheduler.finished st) = length (Scheduler.dl_iters st) /\
  Forall (fun f => f <= 1) (Scheduler.finished st) /\
  (forall d, Scheduler.finished st !! d = Some 1 ->
             Scheduler.dl_iters st !! d = Some []).

(** The optimizer steps still to come: one for each group of (up to) [g]
    batches left in an iterator. *)
Definition steps_left {B} (g : nat) (its : list (list B)) : nat :=
  sum_list_with (fun it => ceil_div (length it) g) its.

(** The bound on the passes of the scheduler's loop used below: batches
    left plus iterators not yet marked finished. *)
Definition passes_left {B} (its : list (list B)) (finished : list nat) : nat :=
  sum_list_with length its + (length its - sum_list finished).

(** ** Text: [str.strip], [str.split], [int(str)], [str(int)], lines of a file *)

Module Text.

Definition LF : ascii := ascii_of_nat 10.
Definition CR : ascii := ascii_of_nat 13.
Definition comma : ascii := ascii_of_nat 44.
Definition minus : ascii := ascii_of_nat 45.
Definition plus : ascii := ascii_of_nat 43.
Definition underscore : ascii := ascii_of_nat 95.

(** [c.isspace()] on ASCII: tab, line feed, vertical tab, form feed,
    carriage return, the four separators 28-31 and the space. *)
Definition is_space (c : ascii) : bool :=
  let n := nat_of_ascii c in
  ((9 <=? n) && (n <=? 13)) || ((28 <=? n) && (n <=? 32)).

Definition is_digit (c : ascii) : bool :=
  let n := nat_of_ascii c in (48 <=? n) && (n <=? 57).

Definition is_empty (s : string) : bool :=
  match s with EmptyString => true | _ => false end.

Fixpoint lstrip (s : string) : string :=
  match s with
  | EmptyString => EmptyString
  | String c s' => if is_space c then lstrip s' else s
  end.

Fixpoint rstrip (s : string) : string :=
  match s with
  | EmptyString => EmptyString
  | String c s' =>
      let r := rstrip s' in
      if is_space c && is_empty r then EmptyString else String c r
  end.

(** [s.strip()] *)
Definition strip (s : string) : string := rstrip (lstrip s).

(** [s.split(sep)] for a one-character separator: never an empty list. *)
Fixpoint split (sep : ascii) (s : string) : list string :=
  match s with
  | EmptyString => [EmptyString]
  | String c s' =>
      if Ascii.eqb c sep then EmptyString :: split sep s'
      else match split sep s' with
           | f :: fs => String c f :: fs
           | [] => [String c EmptyString]
           end
  end.

(** The lines [for l in f] yields for a file opened in text mode, without
    their terminator: a line ends at a line feed, a carriage return, or a
    carriage return followed by a line feed (universal newlines); what
    follows the last terminator is a line if it is not empty. The callers
    strip each line, so dropping the terminator loses nothing. *)
Fixpoint file_lines (s : string) : list string :=
  match s with
  | EmptyString => []
  | String c s' =>
      if Ascii.eqb c LF then EmptyString :: file_lines s'
      else if Ascii.eqb c CR then
        match s' with
        | String c' s'' =>
            if Ascii.eqb c' LF then EmptyString :: file_lines s''
            else EmptyString :: file_lines s'
        | EmptyString => [EmptyString]
        end
      else match file_lines s' with
           | l :: ls => String c l :: ls
           | [] => [String c EmptyString]
           end
  end.

(** The digits of [int(s)]: decimal digits, single underscores allowed
    between two digits. [prev] tells whether the previous character was a
    digit. *)
Fixpoint digits_val (s : string) (acc : Z) (prev : bool) : option Z :=
  match s with
  | EmptyString => if prev then Some acc else None
  | String c s' =>
      if is_digit c then
        digits_val s' (10 * acc + Z.of_nat (nat_of_ascii c - 48))%Z true
      else if Ascii.eqb c underscore && prev then digits_val s' acc false
      else None
  end.

(** [int(s)] for ASCII text: surrounding whitespace, an optional sign,
    then digits; [ValueError] otherwise. *)
Definition py_int (s : string) : outcome Z :=
  let v := match strip s with
           | String c r =>
               if Ascii.eqb c minus then Z.opp <$> digits_val r 0%Z false
               else if Ascii.eqb c plus then digits_val r 0%Z false
               else digits_val (String c r) 0%Z false
           | EmptyString => None
           end in
  match v with
  | Some z => Done z
  | None => Raise ValueError
  end.

Definition str_of_nat (n : nat) : string :=
  NilZero.string_of_uint (Nat.to_uint n).

(** [str(z)], as the f-strings of lines 253 and 255 format an [int]. *)
Definition str_of_Z (z : Z) : string :=
  match z with
  | Zneg p => String minus (str_of_nat (Pos.to_nat p))
  | _ => str_of_nat (Z.to_nat z)
  end.

(** Every character of [s] satisfies [p]. *)
Fixpoint all_chars (p : ascii -> bool) (s : string) : bool :=
  match s with
  | EmptyString => true
  | String c s' => p c && all_chars p s'
  end.

(** The characters [str(z)] is made of. *)
Definition is_numeral (c : ascii) : bool := is_digit c || Ascii.eqb c minus.

End Text.

(** ** The fold splitter: lines 222-223 and 245-269 of [__main__] *)

Module Split.
Import Text.

(** A [MultiDomainSentimentDataset] built for one domain (line 217): the
    domain it was read from and [len(dset)]. *)
Record dataset : Type := Dataset { ds_domain : string; ds_len : nat }.

(** [torch.utils.data.Subset]: it keeps the dataset and the index list and
    checks nothing until an example is fetched. *)
Record subset : Type := Subset { ss_dataset : dataset; ss_indices : list Z }.

(** [int(x)] of a float: truncation toward zero. *)
Definition int_of_Q (q : Q) : Z := (Qnum q ÷ Zpos (Qden q))%Z.

(** Line 222. *)
Definition train_sizes (all_dsets : list dataset) (train_pct : Q) : list Z :=
  (fun dset => int_of_Q (inject_Z (Z.of_nat (ds_len dset)) * train_pct))
    <$> all_dsets.

(** [l[j]] for [j] taken from [range(len(..))]. *)
Definition get {A} (l : list A) (j : nat) : outcome A :=
  match l !! j with
  | Some x => Done x
  | None => Raise IndexError
  end.

(** Line 223. *)
Definition val_sizes (all_dsets : list dataset) (train_sizes : list Z)
  : outcome (list Z) :=
  mapM (fun j => dset ← get all_dsets j;
                 t ← get train_sizes j;
                 mret (Z.of_nat (ds_len dset) - t)%Z)
       (seq 0 (length train_sizes)).

(** [l[a:b]] with Python's treatment of negative and oversized bounds. *)
Definition py_slice {A} (l : list A) (a b : Z) : list A :=
  let n := Z.of_nat (length l) in
  let norm x := if (x <? 0)%Z then Z.max 0 (x + n) else Z.min x n in
  take (Z.to_nat (norm b - norm a)) (drop (Z.to_nat (norm a)) l).

(** [l[d]] for an arbitrary [int]: negative positions count from the end. *)
Definition py_index {A} (l : list A) (d : Z) : outcome A :=
  let n := Z.of_nat (length l) in
  if (0 <=? d)%Z then get l (Z.to_nat d)
  else if (0 <=? d + n)%Z then get l (Z.to_nat (d + n))
  else Raise IndexError.

(** [range(len(all_dsets))] filtered by [j != i]. *)
Definition others (i n : nat) : list nat :=
  filter (fun j => j ≠ i) (seq 0 n).

(** Line 258, and the datasets line 246 runs through. *)
Definition dset_choices (all_dsets : list dataset) (i : nat) : outcome (list dataset) :=
  mapM (get all_dsets) (others i (length all_dsets)).

Definition train_idx_path (dir domain : string) : string :=
  (dir ++ "/train_idx_" ++ domain ++ ".txt")%string.
Definition val_idx_path (dir domain : string) : string :=
  (dir ++ "/val_idx_" ++ domain ++ ".txt")%string.

(** [f'{j},{idx}\n'] *)
Definition index_line (j idx : Z) : string :=
  (str_of_Z j ++ String comma (str_of_Z idx) ++ String LF EmptyString)%string.

Section Fresh.
(** [torch.randperm(n)] at its [c]-th call. *)
Variable randperm : nat -> nat -> list nat.

(** [torch.utils.data.random_split(dset, [t, v])] with integer lengths:
    the lengths must add up to [len(dset)]; a random permutation of the
    positions is cut at the running sums of the lengths. *)
Definition random_split (c : nat) (dset : dataset) (t v : Z)
  : outcome (subset * subset) :=
  if (t + v =? Z.of_nat (ds_len dset))%Z then
    let indices := Z.of_nat <$> randperm c (Z.to_nat (t + v)) in
    Done (Subset dset (py_slice indices (t - t) t),
          Subset dset (py_slice indices (t + v - v) (t + v)))
  else Raise ValueError.

(** The pair of subsets of a dataset that is cut at
    [floor(len(dset) * train_pct)] in the permutation of the [c]-th
    call. *)
Definition fresh_pair (train_pct : Q) (c : nat) (dset : dataset)
  : subset * subset :=
  let t := Z.to_nat (Qfloor (inject_Z (Z.of_nat (ds_len dset)) * train_pct)) in
  let indices := Z.of_nat <$> randperm c (ds_len dset) in
  (Subset dset (take t indices), Subset dset (drop t indices)).

(** Lines 246-247. *)
Fixpoint split_all (all_dsets : list dataset) (ts vs : list Z)
         (js : list nat) (c : nat) : outcome (list (subset * subset)) :=
  match js with
  | [] => Done []
  | j :: js' =>
      dset ← get all_dsets j;
      t ← get ts j;
      v ← get vs j;
      s ← random_split c dset t v;
      rest ← split_all all_dsets ts vs js' (S c);
      mret (s :: rest)
  end.

(** What lines 251-255 write to [f] (for [train = true]) and to [g]. *)
Fixpoint index_text (train : bool) (j : nat) (subsets : list (subset * subset))
  : string :=
  match subsets with
  | [] => EmptyString
  | s :: rest =>
      let idxs := ss_indices (if train then s.1 else s.2) in
      foldr (fun idx text => (index_line (Z.of_nat j) idx ++ text)%string)
            (index_text train (S j) rest) idxs
  end.

(** Lines 249-255: both files are created (or truncated) and filled. *)
Definition save_indices (dir domain : string) (subsets : list (subset * subset))
           (fs : gmap string string) : gmap string string :=
  <[val_idx_path dir domain := index_text false 0 subsets]>
    (<[train_idx_path dir domain := index_text true 0 subsets]> fs).

(** Lines 222-223 and 246-255 for the fold that holds out domain [i];
    [dir] is [f'{args.model_dir}/{Path(wandb.run.dir).name}']. *)
Definition fresh_split (all_dsets : list dataset) (train_pct : Q) (i : nat)
           (c : nat) (dir : string) (fs : gmap string string)
  : outcome (list (subset * subset) * gmap string string) :=
  let ts := train_sizes all_dsets train_pct in
  vs ← val_sizes all_dsets ts;
  dset ← get all_dsets i;
  subsets ← split_all all_dsets ts vs (others i (length all_dsets)) c;
  mret (subsets, save_indices dir (ds_domain dset) subsets fs).
End Fresh.

(** [subset_indices]: a [defaultdict(lambda: [[], []])], as the list of its
    items in insertion order. *)
Definition index_dict : Type := list (Z * (list Z * list Z)).

(** [subset_indices[k][0].append(x)] (for [train = true]) and
    [subset_indices[k][1].append(x)]. *)
Fixpoint dict_append (train : bool) (k x : Z) (m : index_dict) : index_dict :=
  match m with
  | [] => [(k, if train then ([x], []) else ([], [x]))]
  | (k', (tr, va)) :: m' =>
      if (k =? k')%Z then
        (k', if train then (tr ++ [x], va) else (tr, va ++ [x])) :: m'
      else (k', (tr, va)) :: dict_append train k x m'
  end.

(** Lines 263-264 (and 266-267) for one line of the file. *)
Definition parse_line (l : string) : outcome (Z * Z) :=
  match split comma (strip l) with
  | v0 :: rest =>
      k ← py_int v0;
      match rest with
      | v1 :: _ => x ← py_int v1; mret (k, x)
      | [] => Raise IndexError
      end
  | [] => Raise IndexError
  end.

(** Lines 262-264 (and 265-267). *)
Fixpoint load_lines (train : bool) (ls : list string) (m : index_dict)
  : outcome index_dict :=
  match ls with
  | [] => Done m
  | l :: ls' =>
      '(k, x) ← parse_line l;
      load_lines train ls' (dict_append train k x m)
  end.

(** Lines 258-269 for the fold that holds out domain [i]. *)
Definition reload (all_dsets : list dataset) (i : nat) (indices_dir : string)
           (fs : gmap string string) : outcome (list (subset * subset)) :=
  dset ← get all_dsets i;
  choices ← dset_choices all_dsets i;
  match fs !! train_idx_path indices_dir (ds_domain dset) with
  | None => Raise FileNotFoundError
  | Some f =>
      match fs !! val_idx_path indices_dir (ds_domain dset) with
      | None => Raise FileNotFoundError
      | Some g =>
          m1 ← load_lines true (file_lines f) [];
          m2 ← load_lines false (file_lines g) m1;
          mapM (fun '(d, (tr, va)) =>
                  ds ← py_index choices d;
                  mret (Subset ds tr, Subset ds va)) m2
      end
  end.

(** A line [f'{j},{idx}'] without its line feed. *)
Definition line_body (p : Z * Z) : string :=
  (str_of_Z p.1 ++ String comma (str_of_Z p.2))%string.

(** The (slot, index) pairs lines 251-255 write, in the order they are
    written: those of the train subsets (for [train = true]) or of the
    validation subsets of [subsets], the first of which has slot [j]. *)
Fixpoint index_pairs (train : bool) (j : nat) (subsets : list (subset * subset))
  : list (Z * Z) :=
  match subsets with
  | [] => []
  | s :: rest =>
      ((fun idx => (Z.of_nat j, idx)) <$> ss_indices (if train then s.1 else s.2))
      ++ index_pairs train (S j) rest
  end.

(** The dictionary after the appends of a list of parsed lines. *)
Definition dict_load (train : bool) (pairs : list (Z * Z)) (m : index_dict)
  : index_dict :=
  foldl (fun m p => dict_append train p.1 p.2 m) m pairs.

(** [m.get(k, [[], []])] *)
Fixpoint dict_get (k : Z) (m : index_dict) : list Z * list Z :=
  match m with
  | [] => ([], [])
  | (k', v) :: m' => if (k =? k')%Z then v else dict_get k m'
  end.

(** An entry of the dictionary after [xs] was appended to its train list
    (for [train = true]) or to its validation list. *)
Definition side_append (train : bool) (v : list Z * list Z) (xs : list Z)
  : list Z * list Z :=
  if train then (v.1 ++ xs, v.2) else (v.1, v.2 ++ xs).

(** The slot values of a list of parsed lines, each once, in the order of
    their first occurrence. *)
Fixpoint first_occurrences (ks seen : list Z) : list Z :=
  match ks with
  | [] => []
  | k :: ks' =>
      if bool_decide (k ∈ seen) then first_occurrences ks' seen
      else k :: first_occurrences ks' (k :: seen)
  end.

(** The example indices that the parsed lines give for slot [d]. *)
Definition indices_of (d : Z) (pairs : list (Z * Z)) : list Z :=
  snd <$> filter (fun p => p.1 = d) pairs.

(** The index lists of a list of subset pairs, without the datasets. *)
Definition index_lists (subsets : list (subset * subset))
  : list (list Z * list Z) :=
  (fun s => (ss_indices s.1, ss_indices s.2)) <$> subsets.

(** The subset pair line 268 builds for slot value [k] from the parsed
    lines of the two files. *)
Definition slot_subsets (choices : list dataset) (T V : list (Z * Z)) (k : Z)
  : outcome (subset * subset) :=
  ds ← py_index choices k;
  mret (Subset ds (indices_of k T), Subset ds (indices_of k V)).

(** The indices of the train subset (for [train = true]) or of the
    validation subset of a pair. *)
Definition side (train : bool) (s : subset * subset) : list Z :=
  ss_indices (if train then s.1 else s.2).

#[global] Instance subset_pair_inhabited : Inhabited (subset * subset) :=
  populate (Subset (Dataset EmptyString 0) [], Subset (Dataset EmptyString 0) []).

(** A subset pair holds no index at all. *)
Definition both_empty (s : subset * subset) : Prop :=
  ss_indices s.1 = [] ∧ ss_indices s.2 = [].

#[global] Instance both_empty_dec s : Decision (both_empty s).
Proof. unfold both_empty. apply _. Defined.

End Split.

(** ** One fold's training and checkpoint reload, and the aggregation:
       lines 308-323 and 340-361 of [__main__] *)

Module Main.

(** [f'{model_dir}/{Path(wandb.run.dir).name}/model_{domain}.pth'], with
    [dir] the first two components. *)
Definition checkpoint_path (dir domain : string) : string :=
  (dir ++ "/model_" ++ domain ++ ".pth")%string.

Section Fold.
Context {B : Type}.
Variable shuffle : nat -> list nat -> list nat.
Variable evaluate : Z -> metrics.
(** The serialised [model.state_dict()] at the end of an epoch. *)
Variable state_dict : Z -> string.

(** The effect on the files of the [torch.save] calls of a trace
    (line 120): each one overwrites the fold's checkpoint. *)
Definition write_checkpoints (path : string) (tr : list (event B))
           (fs : gmap string string) : gmap string string :=
  foldl (fun fs e => match e with
                     | SaveCheckpoint k => <[path := state_dict k]> fs
                     | _ => fs
                     end) fs tr.

(** [torch.load(path)] *)
Definition torch_load (path : string) (fs : gmap string string)
  : outcome string :=
  match fs !! path with
  | Some w => Done w
  | None => Raise FileNotFoundError
  end.

(** Lines 308-323: [train] is called without [patience], which is then
    10, and with the scheduler of line 301; the weights loaded at line
    323 are returned with the trace and the files. *)
Definition train_fold (train_dls : list (list B))
           (n_epochs log_interval gradient_accumulation : Z)
           (dir domain : string) (fuel r : nat) (fs : gmap string string)
  : outcome (list (event B) * string * gmap string string) :=
  '(tr, _) ← Train.train shuffle evaluate train_dls n_epochs log_interval
                10%Z gradient_accumulation true fuel r;
  let fs' := write_checkpoints (checkpoint_path dir domain) tr fs in
  w ← torch_load (checkpoint_path dir domain) fs';
  mret (tr, w, fs').
End Fold.

(** What line 326 gives for a fold: the metrics of the held-out domain and
    its labels and logits, one per example. *)
Record fold_result : Type := FoldResult {
  fr_acc : Q; fr_P : Q; fr_R : Q; fr_F1 : Q;
  fr_labels : list nat;
  fr_logits : list (list Q)
}.

(** [np.argmax(logit)]: the first position of the largest score. *)
Fixpoint argmax_from (i best : nat) (bv : Q) (l : list Q) : nat :=
  match l with
  | [] => best
  | x :: l' =>
      if Train.Qgtb x bv then argmax_from (S i) i x l'
      else argmax_from (S i) best bv l'
  end.
Definition argmax (l : list Q) : nat :=
  match l with
  | [] => 0
  | x :: l' => argmax_from 1 0 x l'
  end.

Definition correct (logits : list (list Q)) (labels : list nat) : nat :=
  length (filter (fun p => argmax p.1 = p.2) (zip logits labels)).

(** Modelled from the spec: the accuracy that [acc_f1] of [metrics.py]
    (not part of the sources at hand) computes from logits and labels,
    the share of examples whose largest logit is at the label. *)
Definition accuracy (logits : list (list Q)) (labels : list nat) : Q :=
  (inject_Z (Z.of_nat (correct logits labels))
   / inject_Z (Z.of_nat (length labels)))%Q.

(** [sum(xs) / len(xs)] *)
Definition mean (xs : list Q) : outcome Q :=
  match xs with
  | [] => Raise ZeroDivisionError
  | _ => Done (foldl Qplus 0 xs / inject_Z (Z.of_nat (length xs)))%Q
  end.

Record summary : Type := Summary {
  micro_acc : Q; micro_P : Q; micro_R : Q; micro_F1 : Q;
  macro_acc : Q; macro_P : Q; macro_R : Q; macro_F1 : Q
}.

Section Aggregate.
(** Precision, recall and F1 of [acc_f1], about which the spec says
    nothing beyond their names. *)
Variable prf : list (list Q) -> list nat -> Q * Q * Q.

(** Modelled from the spec: [acc_f1(logits, labels)] of [metrics.py]. *)
Definition acc_f1 (logits : list (list Q)) (labels : list nat)
  : Q * Q * Q * Q :=
  let '(P, R, F1) := prf logits labels in
  (accuracy logits labels, P, R, F1).

(** Lines 340-361: the lists grown by each fold, then the summary. *)
Definition aggregate (folds : list fold_result) : outcome summary :=
  let labels_all := concat (fr_labels <$> folds) in
  let logits_all := concat (fr_logits <$> folds) in
  let '(acc, P, R, F1) := acc_f1 logits_all labels_all in
  a ← mean (fr_acc <$> folds);
  p ← mean (fr_P <$> folds);
  r ← mean (fr_R <$> folds);
  f ← mean (fr_F1 <$> folds);
  mret (Summary acc P R F1 a p r f).
End Aggregate.

End Main.

(** ** Sample inputs *)

(** Validation accuracies 0.5, 0.6, 0.55, 0.55 for the first four epochs. *)
Definition example_accuracies (e : Z) : metrics :=
  Metrics 0 (nth (Z.to_nat e) [0.5; 0.6; 0.55; 0.55]%Q 0%Q) 0 0 0.

(** Three review domains and a fourth one. *)
Definition books : Split.dataset := Split.Dataset "books" 5.
Definition dvd : Split.dataset := Split.Dataset "dvd" 3.
Definition kitchen : Split.dataset := Split.Dataset "kitchen" 4.
Definition music : Split.dataset := Split.Dataset "music" 2.

(** A permutation generator: the positions in decreasing order. *)
Definition descending (c n : nat) : list nat := rev (seq 0 n).

(** Index files of the fold that holds out [music]: slot 1 is in neither
    file, slot 2 in the train file only. *)
Definition sparse_train_file : string :=
  (Split.index_line 0 1 ++ Split.index_line 2 0)%string.
Definition sparse_val_file : string := Split.index_line 0 4.
Definition sparse_files : gmap string string :=
  <[Split.val_idx_path "idx" "music" := sparse_val_file]>
    (<[Split.train_idx_path "idx" "music" := sparse_train_file]> ∅).

(** A fold of [n] examples of label 1, the first [c] of which are
    classified as 1 and the others as 0, reported with accuracy [a]. *)
Definition sample_fold (c n : nat) (a : Q) : Main.fold_result :=
  Main.FoldResult a 0 0 0 (replicate n 1)
    (replicate c [0; 1]%Q ++ replicate (n - c) [1; 0]%Q).

(** ** Further observations on [train] *)

(** Line 57: [total = sum(len(dl) for dl in train_dls)], the length given
    to the progress bar. *)
Definition pbar_total {B} (train_dls : list (list B)) : nat :=
  sum_list (length <$> train_dls).

(** Line 304: [n_epochs * sum([len(train_dl) for train_dl in train_dls])],
    the number of training steps the linear schedule is built for. *)
Definition num_training_steps {B} (n_epochs : Z) (train_dls : list (list B)) : Z :=
  (n_epochs * Z.of_nat (sum_list (length <$> train_dls)))%Z.

(** The epochs without improvement in a row just before epoch [e]: what
    [patience_counter] holds when [epoch_counter] is [e]. *)
Fixpoint stale (evaluate : Z -> metrics) (e : nat) : nat :=
  match e with
  | O => 0
  | S e' => if improves evaluate (Z.of_nat e') then 0 else S (stale evaluate e')
  end.

(** Epoch [e] takes the [else] branch of line 129 and brings the patience
    counter to [patience]: line 133 breaks out of the main loop. *)
Definition loses_patience (evaluate : Z -> metrics) (patience : Z) (e : nat) : bool :=
  negb (improves evaluate (Z.of_nat e))
  && (Z.of_nat (stale evaluate (S e)) =? patience)%Z.

(** ** The passes of the scheduler *)

Section Passes.
Context {B : Type}.
Variable shuffle : nat -> list nat -> list nat.

(** [dl_idx] during pass [p] (counted from 0) of an epoch that starts
    with [r] earlier calls of [random.shuffle]: the list is shuffled in
    place at the start of every pass. *)
Fixpoint idx_at (r : nat) (idx0 : list nat) (p : nat) : list nat :=
  match p with
  | O => shuffle r idx0
  | S p' => shuffle (r + S p') (idx_at r idx0 p')
  end.

(** The accumulation groups pass [p] forms when it visits the loaders in
    the order [idx]: for each loader that has batches left after [p]
    groups of [g], its next (up to) [g] batches. *)
Definition pass_groups (g : nat) (dls : list (list B)) (p : nat) (idx : list nat)
  : list (list (nat * B)) :=
  omap (fun d =>
          match take g (drop (p * g) (default [] (dls !! d))) with
          | [] => None
          | bs => Some ((fun b => (d, b)) <$> bs)
          end) idx.

(** The number of passes of an epoch: one more than the largest number of
    full groups a loader has, and none without loaders. *)
Definition passes_needed (g : nat) (dls : list (list B)) : nat :=
  match dls with
  | [] => 0
  | _ => S (max_list ((fun dl => length dl / g) <$> dls))
  end.
End Passes.

(** ** Domain ids: lines 236-242 of [__main__] *)

Module DomainIds.

(** The calls [all_dsets[j].set_domain_id(k)] of lines 238-241, as pairs
    [(j, k)], for [j] running through [js], and the value of [k] after
    the loop. *)
Fixpoint override_from (js : list nat) (i k : nat) : list (nat * nat) * nat :=
  match js with
  | [] => ([], k)
  | j :: js' =>
      if decide (j = i) then override_from js' i k
      else let '(calls, k') := override_from js' i (S k) in ((j, k) :: calls, k')
  end.

(** Lines 237-242 for the fold that holds out dataset [i] of [n]: all the
    calls of [set_domain_id], the last one on [test_dset]. *)
Definition override (n i : nat) : list (nat * nat) :=
  let '(calls, k) := override_from (seq 0 n) i 0 in calls ++ [(i, k)].

End DomainIds.

(** ** The optimizer's parameter groups: lines 292-297 of [__main__] *)

Module Optim.

Fixpoint starts_with (a b : string) : bool :=
  match a, b with
  | EmptyString, _ => true
  | String x a', String y b' => Ascii.eqb x y && starts_with a' b'
  | String _ _, EmptyString => false
  end.

(** [a in b] on strings: [a] occurs in [b]. *)
Fixpoint contains (a b : string) : bool :=
  starts_with a b ||
  match b with
  | EmptyString => false
  | String _ b' => contains a b'
  end.

(** Line 292. *)
Definition no_decay : list string :=
  ["bias"; "LayerNorm.bias"; "LayerNorm.weight"]%string.

(** [any(nd in n for nd in no_decay)] *)
Definition any_no_decay (n : string) : bool :=
  existsb (fun nd => contains nd n) no_decay.

Record param_group (P : Type) : Type := ParamGroup {
  params : list P;
  weight_decay : Q
}.
Arguments ParamGroup {P} params weight_decay.
Arguments params {P} p.
Arguments weight_decay {P} p.

(** Lines 293-297, with [named] what [model.named_parameters()] yields. *)
Definition optimizer_grouped_parameters {P} (named : list (string * P))
           (wd : Q) : list (param_group P) :=
  [ ParamGroup (snd <$> filter (fun np => any_no_decay np.1 = false) named) wd;
    ParamGroup (snd <$> filter (fun np => any_no_decay np.1 = true) named) 0 ].

End Optim.

(** ** The run summary: lines 336-339 and 350-361 of [__main__] *)

Module Report.

(** How the code after the loop over the folds ends: with a value, with
    an exception of the model, or with the [NameError] of a variable that
    no line has bound. *)
Inductive ending (A : Type) : Type :=
| Completed (a : A)
| PyError (e : pyerr)
| NameError.
Arguments Completed {A} a.
Arguments PyError {A} e.
Arguments NameError {A}.

(** What line 326 binds for a fold, with the held-out domain's name. *)
Record fold_report : Type := FoldReport {
  fp_domain : string;
  fp_loss : Q;
  fp_result : Main.fold_result
}.

Definition fp_acc (f : fold_report) : Q := Main.fr_acc (fp_result f).
Definition fp_P (f : fold_report) : Q := Main.fr_P (fp_result f).
Definition fp_R (f : fold_report) : Q := Main.fr_R (fp_result f).
Definition fp_F1 (f : fold_report) : Q := Main.fr_F1 (fp_result f).

(** Lines 336-339: [wandb.run.summary], a dictionary, after a fold. *)
Definition fold_summary (s : gmap string Q) (f : fold_report) : gmap string Q :=
  <[(fp_domain f ++ "-Acc")%string := fp_acc f]>
    (<[(fp_domain f ++ "-F1")%string := fp_F1 f]>
       (<[(fp_domain f ++ "-R")%string := fp_R f]>
          (<[(fp_domain f ++ "-P")%string := fp_P f]> s))).

#[global] Instance ending_ret : MRet ending := fun A a => Completed a.
#[global] Instance ending_bind : MBind ending := fun A C f m =>
  match m with
  | Completed a => f a
  | PyError e => PyError e
  | NameError => NameError
  end.

(** [sum(xs) / len(xs)] *)
Definition mean (xs : list Q) : ending Q :=
  match xs with
  | [] => PyError ZeroDivisionError
  | _ => Completed (foldl Qplus 0 xs / inject_Z (Z.of_nat (length xs)))%Q
  end.

Section Summary.
(** [acc_f1] of [metrics.py] on the pooled logits and labels: what it
    returns, or the exception it ends with. *)
Variable acc_f1 : list (list Q) -> list nat -> ending (Q * Q * Q * Q).

(** Lines 336-339 of every fold, then lines 350-361. The variable
    [loss] read by line 352 is the one line 326 bound in the last
    fold; with no fold it is unbound. *)
Definition run_summary (folds : list fold_report) : ending (gmap string Q) :=
  let s := foldl fold_summary ∅ folds in
  let labels_all := concat ((fun f => Main.fr_labels (fp_result f)) <$> folds) in
  let logits_all := concat ((fun f => Main.fr_logits (fp_result f)) <$> folds) in
  '(acc, P, R, F1) ← acc_f1 logits_all labels_all;
  loss ← match last folds with
         | Some f => Completed (fp_loss f)
         | None => NameError
         end;
  let s := <["test-loss"%string := loss]> s in
  let s := <["test-micro-acc"%string := acc]> s in
  let s := <["test-micro-P"%string := P]> s in
  let s := <["test-micro-R"%string := R]> s in
  let s := <["test-micro-F1"%string := F1]> s in
  a ← mean (fp_acc <$> folds);
  let s := <["test-macro-acc"%string := a]> s in
  p ← mean (fp_P <$> folds);
  let s := <["test-macro-P"%string := p]> s in
  r ← mean (fp_R <$> folds);
  let s := <["test-macro-R"%string := r]> s in
  f ← mean (fp_F1 <$> folds);
  mret (<["test-macro-F1"%string := f]> s).
End Summary.

End Report.

(** ** Keys of the run summary *)

(** The four keys of a fold. *)
Definition fold_keys (d : string) : list string :=
  [(d ++ "-P")%string; (d ++ "-R")%string; (d ++ "-F1")%string; (d ++ "-Acc")%string].

(** The nine keys of lines 352-361. *)
Definition test_keys : list string :=
  ["test-loss"; "test-micro-acc"; "test-micro-P"; "test-micro-R"; "test-micro-F1";
   "test-macro-acc"; "test-macro-P"; "test-macro-R"; "test-macro-F1"]%string.

(** The first [n] characters of a string, and what follows them. *)
Fixpoint string_take (n : nat) (s : string) : string :=
  match n, s with
  | S n', String c s' => String c (string_take n' s')
  | _, _ => EmptyString
  end.

Fixpoint string_drop (n : nat) (s : string) : string :=
  match n, s with
  | S n', String c s' => string_drop n' s'
  | _, _ => s
  end.

(** * Properties *)

(** ** The outcome monad *)

Lemma bind_Done {A C} (m : outcome A) (f : A -> outcome C) (c : C) :
  m ≫= f = Done c -> exists a, m = Done a /\ f a = Done c.
Proof. destruct m as [a| |]; simpl; [eauto | discriminate..]. Qed.

(** ** The scheduler *)

Section SchedulerFacts.
Context {B : Type}.
Variable shuffle : nat -> list nat -> list nat.
Variable g : Z.
Variable L : Z.
Variable sched : bool.

Abbreviation visit := (Scheduler.visit (B:=B) g L sched).
Abbreviation for_domains := (Scheduler.for_domains (B:=B) g L sched).
Abbreviation passes := (Scheduler.passes (B:=B) shuffle g L sched).
Abbreviation run_batches := (Scheduler.run_batches (B:=B) g L).
Abbreviation its := Scheduler.dl_iters.
Abbreviation fin := Scheduler.finished.
Abbreviation ictr := Scheduler.i_ctr.
Abbreviation n := (Z.to_nat g).

Lemma next_batches_spec (k : nat) (it : list B) :
  Scheduler.next_batches k it = (take k it, drop k it, length it <? k).
Proof.
  revert it; induction k as [|k IH]; intros [|b it]; simpl; try done.
  rewrite IH. done.
Qed.

Lemma run_batches_spec (d : nat) (bs : list B) (i : Z) :
  L <> 0%Z ->
  run_batches d bs i
  = Done (batch_events g L d bs i, (i + Z.of_nat (length bs))%Z).
Proof.
  intros HL. revert i; induction bs as [|b bs IH]; intros i;
    cbn [Scheduler.run_batches batch_events length].
  - by rewrite Z.add_0_r.
  - destruct (Z.eqb_spec L 0) as [|_]; [done|].
    rewrite IH. cbn [mbind outcome_bind]. do 2 f_equal. lia.
Qed.

Lemma run_batches_zero_interval (d : nat) (b : B) (bs : list B) (i : Z) :
  L = 0%Z -> run_batches d (b :: bs) i = Raise ZeroDivisionError.
Proof. intros ->. done. Qed.

(** What one visit of loader [d] does, when its iterator holds [it]. *)
Lemma visit_empty (d : nat) (st : Scheduler.state) :
  (1 <= g)%Z -> its st !! d = Some [] ->
  visit d st
  = Done ([], Scheduler.State (its st) (Scheduler.dl_idx st)
                (<[d := 1]> (fin st)) (ictr st) (Scheduler.rng st)).
Proof.
  intros Hg Hd. unfold visit. rewrite Hd, next_batches_spec.
  destruct n as [|k] eqn:Hk; [lia|]. simpl.
  by rewrite (list_insert_id _ _ _ Hd).
Qed.

Lemma visit_nonempty (d : nat) (st : Scheduler.state) (it : list B) :
  L <> 0%Z -> its st !! d = Some it -> it <> [] ->
  visit d st
  = Done (block g L sched d (take n it) (ictr st),
          Scheduler.State (<[d := drop n it]> (its st)) (Scheduler.dl_idx st)
            (if length it <? n then <[d := 1]> (fin st) else fin st)
            (ictr st + Z.of_nat (length (take n it)))%Z (Scheduler.rng st)).
Proof.
  intros HL Hd Hne. unfold visit. rewrite Hd, next_batches_spec.
  replace ((length it <? n) && (length (take n it) =? 0)) with false.
  - by rewrite run_batches_spec.
  - symmetry. apply andb_false_iff.
    destruct (Nat.ltb_spec (length it) n) as [Hlt|Hge]; [right|by left].
    apply Nat.eqb_neq. rewrite length_take.
    destruct it; [done|]. simpl in *. lia.
Qed.

End SchedulerFacts.

(** ** Sums over a list updated in place *)

Lemma sum_list_with_insert {A} (f : A -> nat) (l : list A) (d : nat) (x y : A) :
  l !! d = Some y ->
  sum_list_with f (<[d := x]> l) + f y = sum_list_with f l + f x.
Proof.
  revert d; induction l as [|a l IH]; intros [|d] H; simplify_eq/=; [lia|].
  specialize (IH _ H). lia.
Qed.

Lemma sum_list_insert (l : list nat) (d x y : nat) :
  l !! d = Some y -> sum_list (<[d := x]> l) + y = sum_list l + x.
Proof. apply (sum_list_with_insert id). Qed.

Lemma sum_list_le_length (l : list nat) :
  Forall (fun f => f <= 1) l -> sum_list l <= length l.
Proof. induction 1; simpl; unfold id in *; lia. Qed.

Lemma sum_list_full (l : list nat) :
  Forall (fun f => f <= 1) l -> length l <= sum_list l -> Forall (fun f => f = 1) l.
Proof.
  induction 1 as [|f l Hf Hl IH]; simpl; intros Hs; [constructor|].
  pose proof (sum_list_le_length l Hl). unfold id in *.
  constructor; [lia|]. apply IH. lia.
Qed.

Lemma sum_list_not_full (l : list nat) :
  Forall (fun f => f <= 1) l -> sum_list l < length l -> exists d, l !! d = Some 0.
Proof.
  induction 1 as [|f l Hf Hl IH]; simpl; intros Hs; [lia|]. unfold id in *.
  destruct f as [|f]; [by exists 0|].
  destruct IH as [d Hd]; [lia|]. by exists (S d).
Qed.

Section SchedulerSteps.
Context {B : Type}.
Variable shuffle : nat -> list nat -> list nat.
Variable g : Z.
Variable L : Z.
Variable sched : bool.
Hypothesis g_pos : (1 <= g)%Z.
Hypothesis L_nonzero : L <> 0%Z.

Abbreviation visit := (Scheduler.visit (B:=B) g L sched).
Abbreviation for_domains := (Scheduler.for_domains (B:=B) g L sched).
Abbreviation passes := (Scheduler.passes (B:=B) shuffle g L sched).
Abbreviation its := Scheduler.dl_iters.
Abbreviation fin := Scheduler.finished.
Abbreviation ictr := Scheduler.i_ctr.
Abbreviation n := (Z.to_nat g).
Abbreviation weight := (fun st : Scheduler.state (B:=B) => passes_left (its st) (fin st)).
Abbreviation steps := (interleaving (B:=B) g L sched).

(** One visit of a loader in range: it succeeds, keeps the invariant,
    emits nothing or one accumulation group, and brings the loop closer
    to its end if the loader was not yet marked finished. *)
Lemma visit_step (d : nat) (st : Scheduler.state) :
  sched_inv st -> d < length (its st) ->
  exists e st',
    visit d st = Done (e, st') /\ sched_inv st' /\
    steps (its st) (ictr st) e (its st') (ictr st') /\
    length (its st') = length (its st) /\
    Scheduler.dl_idx st' = Scheduler.dl_idx st /\
    Scheduler.rng st' = Scheduler.rng st /\
    (forall d', d' <> d -> fin st' !! d' = fin st !! d') /\
    weight st' <= weight st /\
    (fin st !! d = Some 0 -> weight st' < weight st).
Proof.
  intros (Hlen & Hle & Hfin) Hd.
  destruct (lookup_lt_is_Some_2 (its st) d Hd) as [it Hit].
  assert (Hdf : d < length (fin st)) by lia.
  destruct (lookup_lt_is_Some_2 (fin st) d Hdf) as [f Hf].
  assert (Hf1 : f <= 1) by (eapply Forall_lookup_1 in Hle; eauto).
  assert (Hle' : Forall (fun f => f <= 1) (<[d := 1]> (fin st)))
    by (apply Forall_insert; auto).
  pose proof (sum_list_insert (fin st) d 1 f Hf) as Hsum.
  pose proof (sum_list_le_length _ Hle') as Hbound.
  rewrite length_insert in Hbound.
  destruct (decide (it = [])) as [->|Hne].
  - rewrite (visit_empty g L sched d st g_pos Hit).
    eexists _, _; split; [done|]; simpl.
    split; [|split; [constructor|]].
    + unfold sched_inv; simpl.
      split; [by rewrite length_insert|]. split; [done|].
      intros d' Hd'. destruct (decide (d' = d)) as [->|Hdd]; [done|].
      rewrite list_lookup_insert_ne in Hd' by done. auto.
    + repeat split; try done; unfold passes_left; simpl.
      * intros d' Hdd. by rewrite list_lookup_insert_ne.
      * lia.
      * intros Hf0. simplify_eq. lia.
  - rewrite (visit_nonempty g L sched d st it L_nonzero Hit Hne).
    eexists _, _; split; [done|]; simpl.
    assert (Hn : 1 <= n) by lia.
    assert (Hlt : 0 < length it) by (destruct it; simpl; [done|lia]).
    pose proof (sum_list_with_insert length (its st) d (drop n it) it Hit) as Hs2.
    rewrite length_drop in Hs2.
    split; [|split].
    + unfold sched_inv; simpl. split; [|split].
      * rewrite length_insert. destruct (_ <? _); by rewrite ?length_insert.
      * by destruct (_ <? _).
      * intros d' Hd'. destruct (decide (d' = d)) as [->|Hdd].
        -- rewrite list_lookup_insert_eq by done.
           destruct (Nat.ltb_spec (length it) n) as [Hl|Hl].
           ++ by rewrite drop_ge by lia.
           ++ apply Hfin in Hd'. congruence.
        -- rewrite list_lookup_insert_ne by done. apply Hfin.
           destruct (_ <? _); [|done].
           by rewrite list_lookup_insert_ne in Hd' by done.
    + rewrite <- (app_nil_r (block _ _ _ _ _ _)).
      eapply interleaving_block; eauto. constructor.
    + rewrite length_insert. repeat split; try done; unfold passes_left; simpl;
        rewrite ?length_insert.
      * intros d' Hdd. destruct (_ <? _); [|done].
        by rewrite list_lookup_insert_ne.
      * destruct (Nat.ltb_spec (length it) n); lia.
      * intros _. destruct (Nat.ltb_spec (length it) n); lia.
Qed.

Lemma interleaving_app a i t1 b j t2 c k :
  steps a i t1 b j -> steps b j t2 c k -> steps a i (t1 ++ t2) c k.
Proof.
  induction 1 as [|a i d it tr b j Hd Hne _ IH]; intros H2; [done|].
  rewrite <- app_assoc. eapply interleaving_block; eauto.
Qed.

(** One pass of [for d in dl_idx]. *)
Lemma for_domains_step (ds : list nat) (st : Scheduler.state) :
  sched_inv st -> Forall (fun d => d < length (its st)) ds ->
  exists e st',
    for_domains ds st = Done (e, st') /\ sched_inv st' /\
    steps (its st) (ictr st) e (its st') (ictr st') /\
    length (its st') = length (its st) /\
    Scheduler.dl_idx st' = Scheduler.dl_idx st /\
    weight st' <= weight st /\
    (forall d, d ∈ ds -> fin st !! d = Some 0 -> weight st' < weight st).
Proof.
  revert st; induction ds as [|x ds IH]; intros st Hinv Hds.
  - eexists _, _; split; [done|]. repeat split; try done; try apply Hinv.
    + constructor.
    + intros d Hd. by apply elem_of_nil in Hd.
  - apply Forall_cons in Hds as [Hx Hds].
    destruct (visit_step x st Hinv Hx)
      as (e1 & st1 & Hv & Hinv1 & Hs1 & Hl1 & Hi1 & _ & Hfr & Hw1 & Hw1').
    destruct (IH st1 Hinv1) as (e2 & st2 & Hf & Hinv2 & Hs2 & Hl2 & Hi2 & Hw2 & Hw2').
    { by rewrite Hl1. }
    cbn [Scheduler.for_domains]. rewrite Hv. cbn [mbind outcome_bind].
    rewrite Hf. cbn [mbind outcome_bind].
    eexists _, _; split; [done|]. split; [done|].
    split; [by eapply interleaving_app|].
    split; [congruence|]. split; [congruence|]. split; [lia|].
    intros d Hd H0. destruct (decide (d = x)) as [->|Hdx].
    + specialize (Hw1' H0). lia.
    + apply elem_of_cons in Hd as [?|Hd]; [done|].
      rewrite <- (Hfr d Hdx) in H0. specialize (Hw2' d Hd H0). lia.
Qed.

Hypothesis shuffle_perm : forall c l, shuffle c l ≡ₚ l.

(** The loop ends, having emitted an interleaving of accumulation groups
    and marked every loader finished. *)
Lemma passes_step (fuel : nat) (st : Scheduler.state) :
  sched_inv st ->
  Scheduler.dl_idx st ≡ₚ seq 0 (length (its st)) ->
  weight st < fuel ->
  exists e st',
    passes fuel st = Done (e, st') /\ sched_inv st' /\
    steps (its st) (ictr st) e (its st') (ictr st') /\
    length (its st') = length (its st) /\
    length (its st') <= sum_list (fin st').
Proof.
  revert st; induction fuel as [|fuel IH]; intros st Hinv Hidx Hw; [lia|].
  cbn [Scheduler.passes].
  destruct (Nat.ltb_spec (sum_list (fin st)) (length (its st))) as [Hlt|Hge].
  - set (st0 := Scheduler.State (its st) (shuffle (Scheduler.rng st) (Scheduler.dl_idx st))
                  (fin st) (ictr st) (S (Scheduler.rng st))).
    assert (Hinv0 : sched_inv st0) by exact Hinv.
    assert (Hp : shuffle (Scheduler.rng st) (Scheduler.dl_idx st)
                 ≡ₚ seq 0 (length (its st))) by (by rewrite shuffle_perm).
    destruct (for_domains_step (shuffle (Scheduler.rng st) (Scheduler.dl_idx st)) st0 Hinv0)
      as (e1 & st1 & Hf & Hinv1 & Hs1 & Hl1 & Hi1 & Hw1 & Hw1').
    { rewrite Hp. apply Forall_forall. intros d Hd%elem_of_seq. simpl. lia. }
    destruct Hinv as (Hlen & Hle & Hfin).
    destruct (sum_list_not_full _ Hle) as [d Hd]; [lia|].
    assert (Hdin : d ∈ shuffle (Scheduler.rng st) (Scheduler.dl_idx st)).
    { rewrite Hp. apply elem_of_seq. apply lookup_lt_Some in Hd. lia. }
    specialize (Hw1' d Hdin Hd).
    destruct (IH st1 Hinv1) as (e2 & st2 & Hps & Hinv2 & Hs2 & Hl2 & Hdone).
    { rewrite Hi1, Hl1. exact Hp. }
    { subst st0. simpl in Hw1'. lia. }
    rewrite Hf. cbn [mbind outcome_bind]. rewrite Hps. cbn [mbind outcome_bind].
    eexists _, _; split; [done|]. split; [done|].
    split; [by eapply interleaving_app; eauto|].
    split; [by rewrite Hl2, Hl1|done].
  - eexists _, _; split; [done|]. split; [done|].
    split; [constructor|]. split; [done|lia].
Qed.

End SchedulerSteps.

(** ** Ceiling division *)

Lemma ceil_div_spec (m k : nat) :
  1 <= k -> m <= ceil_div m k * k /\ (1 <= m -> (ceil_div m k - 1) * k < m).
Proof.
  intros Hk. unfold ceil_div.
  pose proof (Nat.div_mod_eq (m + k - 1) k) as Hdm.
  pose proof (Nat.mod_upper_bound (m + k - 1) k ltac:(lia)) as Hub.
  split; [nia|]. intros Hm. nia.
Qed.

Lemma ceil_div_step (m k : nat) :
  1 <= k -> 1 <= m -> ceil_div m k = S (ceil_div (m - k) k).
Proof.
  intros Hk Hm. unfold ceil_div.
  destruct (Nat.le_gt_cases k m) as [Hle|Hgt].
  - replace (m + k - 1) with ((m - k + k - 1) + 1 * k) by lia.
    rewrite Nat.div_add by lia. lia.
  - replace (m - k) with 0 by lia.
    rewrite (Nat.div_small (0 + k - 1) k) by lia.
    symmetry. apply (Nat.div_unique _ _ 1 (m - 1)); lia.
Qed.

Lemma ceil_div_0 (k : nat) : 1 <= k -> ceil_div 0 k = 0.
Proof. intros Hk. unfold ceil_div. apply Nat.div_small. lia. Qed.

(** ** Observations on interleavings *)

Section TraceFacts.
Context {B : Type}.
Variable g : Z.
Variable L : Z.
Variable sched : bool.

Abbreviation n := (Z.to_nat g).
Abbreviation steps := (interleaving (B:=B) g L sched).
Abbreviation blk := (block (B:=B) g L sched).

Lemma optimizer_steps_app (a b : list (event B)) :
  optimizer_steps (a ++ b) = optimizer_steps a + optimizer_steps b.
Proof. unfold optimizer_steps. by rewrite filter_app, length_app. Qed.

Lemma scheduler_steps_app (a b : list (event B)) :
  scheduler_steps (a ++ b) = scheduler_steps a + scheduler_steps b.
Proof. unfold scheduler_steps. by rewrite filter_app, length_app. Qed.

Lemma forwarded_app (d : nat) (a b : list (event B)) :
  forwarded d (a ++ b) = forwarded d a ++ forwarded d b.
Proof. apply omap_app. Qed.

Lemma backwarded_app (a b : list (event B)) :
  backwarded (a ++ b) = backwarded a ++ backwarded b.
Proof. apply omap_app. Qed.

Lemma optimizer_steps_cons (e : event B) (tr : list (event B)) :
  optimizer_steps (e :: tr)
  = (if is_optimizer_step e then 1 else 0) + optimizer_steps tr.
Proof.
  unfold optimizer_steps. rewrite filter_cons.
  destruct (is_optimizer_step e); case_decide; simpl; congruence.
Qed.

Lemma scheduler_steps_cons (e : event B) (tr : list (event B)) :
  scheduler_steps (e :: tr)
  = (if is_scheduler_step e then 1 else 0) + scheduler_steps tr.
Proof.
  unfold scheduler_steps. rewrite filter_cons.
  destruct (is_scheduler_step e); case_decide; simpl; congruence.
Qed.

Lemma block_app d bs i (tr : list (event B)) :
  blk d bs i ++ tr
  = ZeroGrad :: batch_events g L d bs i
      ++ OptimizerStep :: (if sched then [SchedulerStep] else []) ++ tr.
Proof. unfold block. cbn [app]. by rewrite <- app_assoc. Qed.

Lemma optimizer_steps_batch d bs i (rest : list (event B)) :
  optimizer_steps (batch_events g L d bs i ++ rest) = optimizer_steps rest.
Proof.
  revert i; induction bs as [|b bs IH]; intros i; [done|].
  cbn [batch_events app]. rewrite optimizer_steps_cons, <- app_assoc.
  destruct (_ =? _)%Z; cbn [app]; rewrite !optimizer_steps_cons; apply IH.
Qed.

Lemma scheduler_steps_batch d bs i (rest : list (event B)) :
  scheduler_steps (batch_events g L d bs i ++ rest) = scheduler_steps rest.
Proof.
  revert i; induction bs as [|b bs IH]; intros i; [done|].
  cbn [batch_events app]. rewrite scheduler_steps_cons, <- app_assoc.
  destruct (_ =? _)%Z; cbn [app]; rewrite !scheduler_steps_cons; apply IH.
Qed.

Lemma forwarded_batch d' d bs i (rest : list (event B)) :
  forwarded d' (batch_events g L d bs i ++ rest)
  = (if decide (d = d') then bs else []) ++ forwarded d' rest.
Proof.
  revert i; induction bs as [|b bs IH]; intros i.
  - by destruct (decide _).
  - cbn [batch_events app]. rewrite <- app_assoc. unfold forwarded in *.
    destruct (_ =? _)%Z; simpl; rewrite IH; by destruct (decide _).
Qed.

Lemma backwarded_batch d bs i (rest : list (event B)) :
  backwarded (batch_events g L d bs i ++ rest)
  = ((fun b => (d, b, g)) <$> bs) ++ backwarded rest.
Proof.
  revert i; induction bs as [|b bs IH]; intros i; [done|].
  cbn [batch_events app]. rewrite <- app_assoc. unfold backwarded in *.
  destruct (_ =? _)%Z; simpl; by rewrite IH.
Qed.

Lemma optimizer_steps_block d bs i (tr : list (event B)) :
  optimizer_steps (blk d bs i ++ tr) = S (optimizer_steps tr).
Proof.
  rewrite block_app, optimizer_steps_cons, optimizer_steps_batch,
    optimizer_steps_cons.
  destruct sched; cbn [app]; by rewrite ?optimizer_steps_cons.
Qed.

Lemma scheduler_steps_block d bs i (tr : list (event B)) :
  scheduler_steps (blk d bs i ++ tr)
  = (if sched then 1 else 0) + scheduler_steps tr.
Proof.
  rewrite block_app, scheduler_steps_cons, scheduler_steps_batch,
    scheduler_steps_cons.
  destruct sched; cbn [app]; by rewrite ?scheduler_steps_cons.
Qed.

Lemma forwarded_block d' d bs i (tr : list (event B)) :
  forwarded d' (blk d bs i ++ tr)
  = (if decide (d = d') then bs else []) ++ forwarded d' tr.
Proof.
  rewrite block_app. change (forwarded d' (ZeroGrad :: ?x)) with (forwarded d' x).
  rewrite forwarded_batch. by destruct sched.
Qed.

Lemma backwarded_block d bs i (tr : list (event B)) :
  backwarded (blk d bs i ++ tr)
  = ((fun b => (d, b, g)) <$> bs) ++ backwarded tr.
Proof.
  rewrite block_app. change (backwarded (ZeroGrad :: ?x)) with (backwarded x).
  rewrite backwarded_batch. by destruct sched.
Qed.

(** Every group emitted uses up one group of an iterator. *)
Lemma interleaving_steps a i tr b j :
  (1 <= g)%Z -> steps a i tr b j ->
  optimizer_steps tr + steps_left n b = steps_left n a.
Proof.
  intros Hg. induction 1 as [|a i d it tr b j Hd Hne _ IH]; [done|].
  rewrite optimizer_steps_block.
  pose proof (sum_list_with_insert (fun it => ceil_div (length it) n)
                a d (drop n it) it Hd) as Hs.
  cbv beta in Hs. rewrite length_drop in Hs.
  assert (1 <= length it) by (destruct it; simpl; [done|lia]).
  rewrite (ceil_div_step (length it) n) in Hs by lia.
  unfold steps_left in *. lia.
Qed.

Lemma interleaving_scheduler_steps a i tr b j :
  steps a i tr b j ->
  scheduler_steps tr = if sched then optimizer_steps tr else 0.
Proof.
  induction 1 as [|a i d it tr b j Hd Hne _ IH]; [by destruct sched|].
  rewrite scheduler_steps_block, optimizer_steps_block, IH. by destruct sched.
Qed.

(** The batches of a loader go through the network in the order the
    iterator yields them. *)
Lemma interleaving_forwarded a i tr b j (d : nat) :
  steps a i tr b j ->
  forwarded d tr ++ default [] (b !! d) = default [] (a !! d).
Proof.
  induction 1 as [|a i d0 it tr b j Hd Hne _ IH]; [done|].
  rewrite forwarded_block, <- app_assoc, IH.
  destruct (decide (d0 = d)) as [->|Hdd].
  - rewrite list_lookup_insert_eq by (by eapply lookup_lt_Some).
    rewrite Hd. simpl. apply take_drop.
  - by rewrite list_lookup_insert_ne.
Qed.

Lemma interleaving_backwarded a i tr b j :
  steps a i tr b j -> Forall (fun x => x.2 = g) (backwarded tr).
Proof.
  induction 1 as [|a i d it tr b j Hd Hne _ IH]; [constructor|].
  rewrite backwarded_block. apply Forall_app; split; [|done].
  apply Forall_fmap, Forall_true. done.
Qed.

Lemma interleaving_counter a i tr b j :
  steps a i tr b j ->
  (j = i + Z.of_nat (sum_list_with length a) - Z.of_nat (sum_list_with length b))%Z
  /\ sum_list_with length b <= sum_list_with length a.
Proof.
  induction 1 as [|a i d it tr b j Hd Hne _ [IH1 IH2]]; [lia|].
  pose proof (sum_list_with_insert length a d (drop n it) it Hd) as Hs.
  rewrite length_drop in Hs. rewrite length_take in IH1. lia.
Qed.

End TraceFacts.

Lemma log_flags_app (L i : Z) (m1 m2 : nat) :
  log_flags L i (m1 + m2)
  = log_flags L i m1 ++ log_flags L (i + Z.of_nat m1)%Z m2.
Proof.
  revert i; induction m1 as [|m1 IH]; intros i; cbn [log_flags Nat.add app].
  - by rewrite Z.add_0_r.
  - rewrite IH. do 3 f_equal. lia.
Qed.

Lemma log_flags_seq (L i : Z) (m : nat) :
  log_flags L i m
  = (fun k => (i + Z.of_nat k) mod L =? 0)%Z <$> seq 0 m.
Proof.
  revert i; induction m as [|m IH]; intros i; [done|].
  cbn [log_flags seq fmap list_fmap]. rewrite Z.add_0_r. f_equal.
  rewrite IH, <- fmap_S_seq, <- list_fmap_compose.
  apply list_fmap_ext. intros _ k _. simpl. do 2 f_equal. lia.
Qed.

Lemma log_flags_length (L i : Z) (m : nat) : length (log_flags L i m) = m.
Proof. revert i; induction m; intros; simpl; auto. Qed.

Section GroupFacts.
Context {B : Type}.
Variable g : Z.
Variable L : Z.
Variable sched : bool.

Abbreviation n := (Z.to_nat g).
Abbreviation steps := (interleaving (B:=B) g L sched).
Abbreviation blk := (block (B:=B) g L sched).

Lemma groups_from_batch d bs i (rest : list (event B)) :
  exists k,
    groups_from (batch_events g L d bs i ++ rest)
    = (Group (((fun b => (d, b)) <$> bs) ++ g_batches (groups_from rest).1)
             k (g_opt (groups_from rest).1) (g_sched (groups_from rest).1),
       (groups_from rest).2).
Proof.
  revert i; induction bs as [|b bs IH]; intros i.
  - exists (g_logged (groups_from rest).1). simpl.
    by destruct (groups_from rest) as [[] ?].
  - destruct (IH (i + 1)%Z) as [k Hk].
    cbn [batch_events app]. rewrite <- app_assoc.
    destruct (_ =? _)%Z; cbn [app groups_from]; rewrite Hk; eauto.
Qed.

Lemma groups_from_block d bs i (tr : list (event B)) :
  (groups_from tr).1 = Group [] 0 0 0 ->
  exists k,
    groups_from (blk d bs i ++ tr)
    = (Group [] 0 0 0,
       Group ((fun b => (d, b)) <$> bs) k 1 (if sched then 1 else 0)
       :: (groups_from tr).2).
Proof.
  intros Htr. rewrite block_app.
  destruct (groups_from_batch d bs i
              (OptimizerStep :: (if sched then [SchedulerStep] else []) ++ tr))
    as [k Hk].
  exists k. cbn [groups_from]. rewrite Hk.
  destruct sched; cbn [app groups_from]; destruct (groups_from tr) as [cur gs];
    simpl in *; subst cur; simpl; by rewrite app_nil_r.
Qed.

(** The groups of an interleaving are well formed. *)
Lemma interleaving_groups a i tr b j :
  (1 <= g)%Z -> steps a i tr b j ->
  (groups_from tr).1 = Group [] 0 0 0 /\
  Forall (scheduler_group n sched) (groups tr) /\
  length (groups tr) = optimizer_steps tr.
Proof.
  intros Hg. induction 1 as [|a i d it tr b j Hd Hne _ (IH1 & IH2 & IH3)].
  - split; [done|]. split; [constructor|done].
  - destruct (groups_from_block d (take n it) i tr IH1) as [k Hk].
    rewrite optimizer_steps_block. unfold groups in *. rewrite Hk. simpl.
    split; [done|]. split; [|by rewrite IH3].
    constructor; [|done]. split; [done|]. split; [done|]. simpl.
    exists d, (take n it). split; [done|]. split.
    + destruct it; [done|]. destruct n eqn:?; [lia|done].
    + rewrite length_take. lia.
Qed.

Lemma batch_logged_batch d bs i (e : event B) (rest : list (event B)) :
  is_log_loss e = false ->
  batch_logged (batch_events g L d bs i ++ e :: rest)
  = log_flags L i (length bs) ++ batch_logged (e :: rest).
Proof.
  intros He. revert i; induction bs as [|b bs IH]; intros i; [done|].
  cbn [batch_events app length log_flags]. rewrite <- app_assoc.
  destruct (_ =? _)%Z; cbn [app batch_logged]; by rewrite IH.
Qed.

Lemma batch_logged_block d bs i (tr : list (event B)) :
  batch_logged (blk d bs i ++ tr) = log_flags L i (length bs) ++ batch_logged tr.
Proof.
  rewrite block_app. cbn [batch_logged].
  rewrite batch_logged_batch by done. by destruct sched.
Qed.

(** The loss of a batch is logged when the number of batches run before
    it in the epoch is a multiple of the interval. *)
Lemma interleaving_logged a i tr b j :
  steps a i tr b j ->
  batch_logged tr
  = log_flags L i (sum_list_with length a - sum_list_with length b).
Proof.
  intros H. pose proof H as Hc.
  induction H as [|a i d it tr b j Hd Hne Htr IH].
  - by rewrite Nat.sub_diag.
  - rewrite batch_logged_block, (IH Htr).
    apply interleaving_counter in Htr as [_ Hle].
    pose proof (sum_list_with_insert length a d (drop n it) it Hd) as Hs.
    cbv beta in Hs. rewrite length_drop in Hs.
    rewrite <- log_flags_app. f_equal. rewrite length_take. lia.
Qed.

End GroupFacts.

Section EpochFacts.
Context {B : Type}.
Variable shuffle : nat -> list nat -> list nat.
Variable g : Z.
Variable L : Z.
Variable sched : bool.

Abbreviation n := (Z.to_nat g).
Abbreviation steps := (interleaving (B:=B) g L sched).
Abbreviation run_epoch := (Scheduler.run_epoch (B:=B) shuffle g L sched).

(** The batches of the groups are the batches run, in the same order. *)
Lemma groups_from_forwards (tr : list (event B)) :
  g_batches (groups_from tr).1 ++ concat (g_batches <$> (groups_from tr).2)
  = forwards tr.
Proof.
  induction tr as [|e tr IH]; [done|].
  cbn [groups_from]. destruct (groups_from tr) as [cur gs].
  destruct e; simpl in *; try done. by rewrite IH.
Qed.

Lemma interleaving_forwards a i tr b j :
  (1 <= g)%Z -> steps a i tr b j ->
  concat (g_batches <$> groups tr) = forwards tr.
Proof.
  intros Hg H. apply (interleaving_groups g L sched) in H as [H _]; [|done].
  rewrite <- groups_from_forwards, H. done.
Qed.

Lemma interleaving_forward_backward a i tr b j :
  steps a i tr b j -> (fun x => x.1) <$> backwarded tr = forwards tr.
Proof.
  induction 1 as [|a i d it tr b j Hd Hne _ IH]; [done|].
  rewrite backwarded_block, fmap_app, IH, <- list_fmap_compose.
  rewrite block_app. unfold forwards at 2. cbn [omap list_omap].
  clear. generalize (take n it) as bs. intros bs. revert i.
  induction bs as [|x bs IHbs]; intros i.
  - by destruct sched.
  - cbn [batch_events app]. rewrite <- app_assoc.
    destruct (_ =? _)%Z; simpl; f_equal; apply IHbs.
Qed.

(** One epoch of the scheduler ends, its trace is an interleaving of
    accumulation groups that leaves every iterator exhausted and every
    loader marked finished. *)
Lemma run_epoch_spec (fuel : nat) (dls : list (list B)) (r : nat) :
  (1 <= g)%Z -> L <> 0%Z -> (forall c l, shuffle c l ≡ₚ l) ->
  sum_list_with length dls + length dls < fuel ->
  exists tr st,
    run_epoch fuel dls r = Done (tr, st) /\
    steps dls 0%Z tr (Scheduler.dl_iters st) (Scheduler.i_ctr st) /\
    Forall (fun it => it = []) (Scheduler.dl_iters st) /\
    Forall (fun f => f = 1) (Scheduler.finished st) /\
    length (Scheduler.dl_iters st) = length dls.
Proof.
  intros Hg HL Hsh Hfuel.
  assert (Hinv : sched_inv (Scheduler.start dls r)).
  { unfold sched_inv, Scheduler.start; simpl. split; [by rewrite length_replicate|].
    split.
    - apply Forall_replicate. lia.
    - intros d Hd. apply lookup_replicate in Hd as [? _]. done. }
  destruct (passes_step shuffle g L sched Hg HL Hsh fuel _ Hinv)
    as (tr & st & Hp & (Hlen & Hle & Hfin) & Hs & Hl & Hdone); simpl.
  { done. }
  { unfold passes_left. lia. }
  exists tr, st. split; [done|]. split; [done|].
  assert (Hall : Forall (fun f => f = 1) (Scheduler.finished st))
    by (apply sum_list_full; [done|lia]).
  split; [|done].
  apply Forall_lookup. intros d it Hit.
  assert (Hd : d < length (Scheduler.finished st))
    by (apply lookup_lt_Some in Hit; lia).
  destruct (lookup_lt_is_Some_2 _ _ Hd) as [f Hf].
  pose proof (Forall_lookup_1 _ _ _ _ Hall Hf) as ->.
  apply Hfin in Hf. congruence.
Qed.

Lemma steps_left_drained (its : list (list B)) :
  (1 <= g)%Z -> Forall (fun it => it = []) its -> steps_left n its = 0.
Proof.
  intros Hg. unfold steps_left.
  induction 1 as [|it its -> _ IH]; [done|]. simpl.
  rewrite ceil_div_0 by lia. done.
Qed.

Lemma lengths_drained (its : list (list B)) :
  Forall (fun it => it = []) its -> sum_list_with length its = 0.
Proof. induction 1 as [|it its -> _ IH]; [done|]. done. Qed.

End EpochFacts.

(** ** Claims about the scheduler *)

(** C2. In one epoch of the scheduler, for any loaders, any accumulation
    factor [g >= 1] and any shuffling: the run ends; the batches of each
    loader go through the network each exactly once (in the order the
    iterator yields them, and nothing else does); every accumulation group
    holds batches of one loader only, and the groups hold exactly the
    batches run; at the end every iterator is exhausted and every loader
    is marked finished; and a visit of a loader whose iterator is exhausted
    emits nothing and leaves the iterators as they are, so the others go
    on. *)
Theorem scheduler_drains_every_loader_once
  {B : Type} (shuffle : nat -> list nat -> list nat) (g L : Z) (sched : bool)
  (dls : list (list B)) (r fuel : nat) :
  (1 <= g)%Z -> L <> 0%Z -> (forall c l, shuffle c l ≡ₚ l) ->
  sum_list_with length dls + length dls < fuel ->
  exists tr st,
    Scheduler.run_epoch shuffle g L sched fuel dls r = Done (tr, st) /\
    (forall d, forwarded d tr = default [] (dls !! d)) /\
    Forall (fun grp => exists d, Forall (fun p => p.1 = d) (g_batches grp))
           (groups tr) /\
    concat (g_batches <$> groups tr) = forwards tr /\
    Forall (fun it => it = []) (Scheduler.dl_iters st) /\
    Forall (fun f => f = 1) (Scheduler.finished st) /\
    (forall d (st0 : Scheduler.state (B:=B)),
       Scheduler.dl_iters st0 !! d = Some [] ->
       exists st1, Scheduler.visit g L sched d st0 = Done ([], st1) /\
                   Scheduler.dl_iters st1 = Scheduler.dl_iters st0).
Proof.
  intros Hg HL Hsh Hfuel.
  destruct (run_epoch_spec shuffle g L sched fuel dls r Hg HL Hsh Hfuel)
    as (tr & st & Hrun & Hs & Hits & Hfin & Hlen).
  exists tr, st. split; [done|]. split; [|split; [|split; [|split; [|split]]]].
  - intros d. pose proof (interleaving_forwarded g L sched _ _ _ _ _ d Hs) as Hf.
    rewrite <- Hf. destruct (Scheduler.dl_iters st !! d) as [it|] eqn:Hd; simpl.
    + pose proof (Forall_lookup_1 _ _ _ _ Hits Hd) as ->. by rewrite app_nil_r.
    + by rewrite app_nil_r.
  - destruct (interleaving_groups g L sched _ _ _ _ _ Hg Hs) as (_ & Hgr & _).
    eapply Forall_impl; [exact Hgr|].
    intros grp (_ & _ & d & bs & -> & _). exists d.
    apply Forall_fmap, Forall_true. done.
  - by eapply interleaving_forwards.
  - done.
  - done.
  - intros d st0 Hd. rewrite (visit_empty g L sched d st0 Hg Hd). eauto.
Qed.

Lemma scheduler_drains_every_loader_once_witness :
  exists tr st,
    Scheduler.run_epoch (fun _ l => rev l) 2%Z 1%Z true 20
      [[1; 2; 3]; [4; 5; 6; 7; 8]; [9; 10]] 0 = Done (tr, st) /\
    (forall d, forwarded d tr
               = default [] ([[1; 2; 3]; [4; 5; 6; 7; 8]; [9; 10]] !! d)) /\
    Forall (fun grp => exists d, Forall (fun p => p.1 = d) (g_batches grp))
           (groups tr) /\
    concat (g_batches <$> groups tr) = forwards tr /\
    Forall (fun it => it = []) (Scheduler.dl_iters st) /\
    Forall (fun f => f = 1) (Scheduler.finished st) /\
    (forall d (st0 : Scheduler.state (B:=nat)),
       Scheduler.dl_iters st0 !! d = Some [] ->
       exists st1, Scheduler.visit 2%Z 1%Z true d st0 = Done ([], st1) /\
                   Scheduler.dl_iters st1 = Scheduler.dl_iters st0).
Proof.
  apply (scheduler_drains_every_loader_once (fun _ l => rev l) 2%Z 1%Z true).
  - lia.
  - lia.
  - intros c l. symmetry. apply Permutation_rev.
  - simpl. lia.
Defined.

(** C3. In one epoch of the scheduler with accumulation factor [g >= 1]:
    every accumulation group is not empty, holds at most [g] batches, and
    has exactly one optimizer step and (when a scheduler is given) one
    scheduler step; the batches of the groups are exactly those given a
    backward pass, each with the loss divided by [g] whatever the size of
    the group; no optimizer step lies outside a group, and a visit that
    pulls no batch emits nothing; so the optimizer steps of the epoch number
    the sum over the loaders of [ceil(batch count / g)]. *)
Theorem optimizer_steps_per_epoch
  {B : Type} (shuffle : nat -> list nat -> list nat) (g L : Z) (sched : bool)
  (dls : list (list B)) (r fuel : nat) :
  (1 <= g)%Z -> L <> 0%Z -> (forall c l, shuffle c l ≡ₚ l) ->
  sum_list_with length dls + length dls < fuel ->
  exists tr st,
    Scheduler.run_epoch shuffle g L sched fuel dls r = Done (tr, st) /\
    Forall (scheduler_group (Z.to_nat g) sched) (groups tr) /\
    (fun x => x.1) <$> backwarded tr = concat (g_batches <$> groups tr) /\
    Forall (fun x => x.2 = g) (backwarded tr) /\
    length (groups tr) = optimizer_steps tr /\
    scheduler_steps tr = (if sched then optimizer_steps tr else 0) /\
    (forall d (st0 : Scheduler.state (B:=B)),
       Scheduler.dl_iters st0 !! d = Some [] ->
       exists st1, Scheduler.visit g L sched d st0 = Done ([], st1)) /\
    optimizer_steps tr
    = sum_list_with (fun dl => ceil_div (length dl) (Z.to_nat g)) dls.
Proof.
  intros Hg HL Hsh Hfuel.
  destruct (run_epoch_spec shuffle g L sched fuel dls r Hg HL Hsh Hfuel)
    as (tr & st & Hrun & Hs & Hits & Hfin & Hlen).
  destruct (interleaving_groups g L sched _ _ _ _ _ Hg Hs) as (_ & Hgr & Hng).
  exists tr, st. repeat split; try done.
  - rewrite (interleaving_forward_backward g L sched _ _ _ _ _ Hs).
    symmetry. by eapply interleaving_forwards.
  - by eapply interleaving_backwarded.
  - by eapply interleaving_scheduler_steps.
  - intros d st0 Hd. rewrite (visit_empty g L sched d st0 Hg Hd). eauto.
  - pose proof (interleaving_steps g L sched _ _ _ _ _ Hg Hs) as H.
    rewrite (steps_left_drained g) in H by done. unfold steps_left in H. lia.
Qed.

Lemma optimizer_steps_per_epoch_witness :
  exists tr st,
    Scheduler.run_epoch (fun _ l => rev l) 2%Z 1%Z true 20
      [[1; 2; 3]; [4; 5; 6; 7; 8]; [9; 10]] 0 = Done (tr, st) /\
    optimizer_steps tr = 6.
Proof.
  destruct (optimizer_steps_per_epoch (fun _ l => rev l) 2%Z 1%Z true
              [[1; 2; 3]; [4; 5; 6; 7; 8]; [9; 10]] 0 20)
    as (tr & st & Hrun & _ & _ & _ & _ & _ & _ & Hn).
  - lia.
  - lia.
  - intros c l. symmetry. apply Permutation_rev.
  - simpl. lia.
  - exists tr, st. split; [exact Hrun|]. rewrite Hn. reflexivity.
Defined.

(** ** The early-stopping controller *)

Lemma Qgtb_lt (x y : Q) : Train.Qgtb x y = true <-> (y < x)%Q.
Proof.
  unfold Train.Qgtb. rewrite negb_true_iff.
  destruct (Qle_bool x y) eqn:H.
  - apply Qle_bool_iff in H. split; [done|]. intros H'.
    exfalso. by apply (Qlt_not_le _ _ H').
  - split; [intros _|done]. apply Qnot_le_lt. intros H'.
    apply Qle_bool_iff in H'. congruence.
Qed.

Lemma Qgtb_le (x y : Q) : Train.Qgtb x y = false <-> (x <= y)%Q.
Proof.
  unfold Train.Qgtb. rewrite negb_false_iff. apply Qle_bool_iff.
Qed.

Lemma improves_spec (evaluate : Z -> metrics) (e : Z) :
  improves evaluate e = true <->
  (0 < m_acc (evaluate e))%Q /\
  forall e', (0 <= e' < e)%Z -> (m_acc (evaluate e') < m_acc (evaluate e))%Q.
Proof.
  unfold improves, exceeds. rewrite andb_true_iff, Qgtb_lt, forallb_forall.
  split; intros [H0 H]; (split; [done|]).
  - intros e' He'. apply Qgtb_lt. replace e' with (Z.of_nat (Z.to_nat e')) by lia.
    apply H. apply in_seq. lia.
  - intros k Hk%in_seq. apply Qgtb_lt, H. lia.
Qed.

Section ControllerFacts.
Context {B : Type}.
Variable shuffle : nat -> list nat -> list nat.
Variable evaluate : Z -> metrics.
Variable train_dls : list (list B).
Variable n_epochs : Z.
Variable L : Z.
Variable patience : Z.
Variable g : Z.
Variable sched : bool.

Abbreviation after_epoch := (Train.after_epoch (B:=B) evaluate patience).
Abbreviation epochs :=
  (Train.epochs shuffle evaluate train_dls n_epochs L patience g sched).
Abbreviation best := Train.best_acc.
Abbreviation pc := Train.patience_counter.
Abbreviation ec := Train.epoch_counter.

Abbreviation tracks_best := (tracks_best evaluate).

Lemma exceeds_succ (x : Q) (e : Z) :
  (0 <= e)%Z ->
  exceeds evaluate x (e + 1)
  = exceeds evaluate x e && Train.Qgtb x (m_acc (evaluate e)).
Proof.
  intros He. unfold exceeds.
  replace (Z.to_nat (e + 1)) with (S (Z.to_nat e)) by lia.
  rewrite seq_S, forallb_app. simpl.
  rewrite Z2Nat.id by done. by rewrite andb_true_r, andb_assoc.
Qed.

Lemma tracks_best_init (r : nat) : tracks_best (Train.init r).
Proof.
  split; [done|]. intros x. unfold exceeds. simpl. by rewrite andb_true_r.
Qed.

Lemma tracks_best_improves (st : Train.state) :
  tracks_best st ->
  Train.Qgtb (m_acc (evaluate (ec st))) (best st) = improves evaluate (ec st).
Proof. intros [_ H]. apply H. Qed.

Lemma tracks_best_rng (st : Train.state) (r : nat) :
  tracks_best st -> tracks_best (Train.State (best st) (pc st) (ec st) r).
Proof. done. Qed.

(** The three cases of lines 115-136. *)
Lemma after_epoch_improved (st : Train.state) :
  improves evaluate (ec st) = true -> tracks_best st ->
  after_epoch st
  = ([Evaluate (ec st); SaveCheckpoint (ec st); LogValidation (evaluate (ec st))],
     Train.State (m_acc (evaluate (ec st))) 0 (ec st + 1) (Train.rng st), false)
  /\ tracks_best (Train.State (m_acc (evaluate (ec st))) 0 (ec st + 1) (Train.rng st)).
Proof.
  intros Hi Ht. unfold Train.after_epoch.
  rewrite (tracks_best_improves st Ht), Hi. split; [done|].
  destruct Ht as [He Ht]. split; [simpl; lia|]. intros x. simpl.
  rewrite exceeds_succ, <- Ht by done.
  rewrite <- (tracks_best_improves st (conj He Ht)) in Hi.
  apply Qgtb_lt in Hi.
  destruct (Train.Qgtb x (m_acc (evaluate (ec st)))) eqn:Hx.
  - apply Qgtb_lt in Hx. rewrite andb_true_r. symmetry. apply Qgtb_lt.
    by eapply Qlt_trans.
  - by rewrite andb_false_r.
Qed.

Lemma after_epoch_not_improved (st : Train.state) :
  improves evaluate (ec st) = false -> tracks_best st ->
  after_epoch st
  = ([Evaluate (ec st)],
     Train.State (best st) (pc st + 1)
       (if (pc st + 1 =? patience)%Z then ec st else (ec st + 1)%Z) (Train.rng st),
     (pc st + 1 =? patience)%Z)
  /\ tracks_best (Train.State (best st) (pc st + 1) (ec st + 1) (Train.rng st)).
Proof.
  intros Hi Ht. unfold Train.after_epoch.
  rewrite (tracks_best_improves st Ht), Hi.
  split; [by destruct (_ =? _)%Z|].
  destruct Ht as [He Ht]. split; [simpl; lia|]. intros x. simpl.
  rewrite exceeds_succ, <- Ht by done.
  rewrite <- (tracks_best_improves st (conj He Ht)) in Hi.
  apply Qgtb_le in Hi.
  destruct (Train.Qgtb x (best st)) eqn:Hx; [|done].
  apply Qgtb_lt in Hx. symmetry. apply Qgtb_lt. by eapply Qle_lt_trans.
Qed.

End ControllerFacts.

Section EpochsFacts.
Context {B : Type}.
Variable shuffle : nat -> list nat -> list nat.
Variable evaluate : Z -> metrics.
Variable train_dls : list (list B).
Variable n_epochs : Z.
Variable L : Z.
Variable patience : Z.
Variable g : Z.
Variable sched : bool.
Variable fuel : nat.
Hypothesis g_pos : (1 <= g)%Z.
Hypothesis L_nonzero : L <> 0%Z.
Hypothesis shuffle_perm : forall c l, shuffle c l ≡ₚ l.
Hypothesis fuel_enough : sum_list_with length train_dls + length train_dls < fuel.

Abbreviation after_epoch := (Train.after_epoch (B:=B) evaluate patience).
Abbreviation epochs :=
  (Train.epochs shuffle evaluate train_dls n_epochs L patience g sched).
Abbreviation best := Train.best_acc.
Abbreviation pc := Train.patience_counter.
Abbreviation ec := Train.epoch_counter.
Abbreviation tracks_best := (tracks_best evaluate).

Lemma omap_batch_events {C} (f : event B -> option C) d bs i :
  (forall d b, f (Forward d b) = None) ->
  (forall d b s, f (LogLoss d b s) = None) ->
  (forall d b s, f (Backward d b s) = None) ->
  omap f (batch_events g L d bs i) = [].
Proof.
  intros HF HL HB. revert i; induction bs as [|x bs IH]; intros i; [done|].
  cbn [batch_events]. destruct (_ =? _)%Z; cbn [app omap list_omap];
    rewrite ?HF, ?HL, ?HB; cbn [option_bind mbind]; apply IH.
Qed.

Lemma omap_block {C} (f : event B -> option C) d bs i tr :
  f ZeroGrad = None -> f OptimizerStep = None -> f SchedulerStep = None ->
  (forall d b, f (Forward d b) = None) ->
  (forall d b s, f (LogLoss d b s) = None) ->
  (forall d b s, f (Backward d b s) = None) ->
  omap f (block g L sched d bs i ++ tr) = omap f tr.
Proof.
  intros HZ HO HS HF HL HB. rewrite block_app.
  cbn [omap list_omap]. rewrite HZ, omap_app, omap_batch_events by done.
  cbn [app omap list_omap]. rewrite HO.
  destruct sched; cbn [app omap list_omap]; by rewrite ?HS.
Qed.

(** The scheduler neither evaluates nor saves nor logs validation
    metrics. *)
Lemma interleaving_quiet a i (tr : list (event B)) b j :
  interleaving g L sched a i tr b j ->
  evaluated tr = [] /\ saved tr = [] /\ validation_logs tr = [].
Proof.
  induction 1 as [|a i d it tr b j Hd Hne _ IH]; [done|].
  unfold evaluated, saved, validation_logs in *.
  by rewrite !omap_block.
Qed.

Lemma evaluated_app (a b : list (event B)) :
  evaluated (a ++ b) = evaluated a ++ evaluated b.
Proof. apply omap_app. Qed.

Lemma saved_app (a b : list (event B)) : saved (a ++ b) = saved a ++ saved b.
Proof. apply omap_app. Qed.

Lemma validation_logs_app (a b : list (event B)) :
  validation_logs (a ++ b) = validation_logs a ++ validation_logs b.
Proof. apply omap_app. Qed.

(** One iteration of the main loop: the scheduler runs to its end, then
    lines 108-136 decide. *)
Lemma epochs_iter (k : nat) (st : Train.state) :
  (ec st < n_epochs)%Z ->
  exists e1 r',
    evaluated e1 = [] /\ saved e1 = [] /\ validation_logs e1 = [] /\
    epochs (S k) fuel st
    = (let '(e2, st2, brk) :=
         after_epoch (Train.State (best st) (pc st) (ec st) r') in
       if brk then Done (e1 ++ e2, st2)
       else '(e3, st3) ← epochs k fuel st2; Done (e1 ++ e2 ++ e3, st3)).
Proof.
  intros He.
  destruct (run_epoch_spec shuffle g L sched fuel train_dls (Train.rng st)
              g_pos L_nonzero shuffle_perm fuel_enough)
    as (e1 & s1 & Hrun & Hs & _).
  destruct (interleaving_quiet _ _ _ _ _ Hs) as (H1 & H2 & H3).
  exists e1, (Scheduler.rng s1). repeat split; try done.
  cbn [Train.epochs]. apply Z.ltb_lt in He. rewrite He, Hrun. done.
Qed.

Lemma epochs_done (k : nat) (st : Train.state) :
  (n_epochs <= ec st)%Z -> epochs (S k) fuel st = Done ([], st).
Proof.
  intros He. cbn [Train.epochs].
  destruct (Z.ltb_spec (ec st) n_epochs); [lia|done].
Qed.

(** The main loop ends; it evaluates after each epoch it runs, at most
    [n_epochs] of them; it saves a checkpoint and logs the validation
    metrics at the improving epochs and at no other; and it stops with the
    epoch counter at [n_epochs] or the patience counter at [patience]. *)
Lemma epochs_spec (k : nat) (st : Train.state) :
  tracks_best st -> Z.to_nat (n_epochs - ec st) < k ->
  exists tr st' (N : nat),
    epochs k fuel st = Done (tr, st') /\
    evaluated tr = (fun j => ec st + Z.of_nat j)%Z <$> seq 0 N /\
    (Z.of_nat N <= Z.max 0 (n_epochs - ec st))%Z /\
    saved tr = filter (fun e => improves evaluate e = true) (evaluated tr) /\
    validation_logs tr = evaluate <$> saved tr /\
    ((n_epochs <= ec st')%Z \/ pc st' = patience).
Proof.
  revert st; induction k as [|k IH]; intros st Ht Hk; [lia|].
  destruct (Z.lt_ge_cases (ec st) n_epochs) as [Hlt|Hge].
  - destruct (epochs_iter k st Hlt) as (e1 & r' & Hq1 & Hq2 & Hq3 & ->).
    pose proof (tracks_best_rng evaluate st r' Ht) as Ht'.
    assert (Hshift : forall N,
      (ec st)%Z :: ((fun j => ec st + 1 + Z.of_nat j)%Z <$> seq 0 N)
      = (fun j => ec st + Z.of_nat j)%Z <$> seq 0 (S N)).
    { intros N. cbn [seq fmap list_fmap]. rewrite Z.add_0_r. f_equal.
      rewrite <- fmap_S_seq, <- list_fmap_compose.
      apply list_fmap_ext. intros _ j _. simpl. lia. }
    destruct (improves evaluate (ec st)) eqn:Hi.
    + destruct (after_epoch_improved (B:=B) evaluate patience
                  (Train.State (best st) (pc st) (ec st) r') Hi Ht') as [-> Ht2].
      destruct (IH _ Ht2) as (e3 & st3 & N & -> & Hev & HN & Hsv & Hvl & Hstop);
        [simpl; lia|].
      cbn [mbind outcome_bind]. simpl in Hev, HN.
      eexists _, st3, (S N). split; [done|].
      rewrite !evaluated_app, !saved_app, !validation_logs_app, Hq1, Hq2, Hq3.
      rewrite Hvl, Hsv, Hev, <- Hshift. simpl.
      rewrite filter_cons_True by done. repeat split; try done. lia.
    + destruct (after_epoch_not_improved (B:=B) evaluate patience
                  (Train.State (best st) (pc st) (ec st) r') Hi Ht') as [-> Ht2].
      cbn [Train.best_acc Train.patience_counter Train.epoch_counter Train.rng]
        in Ht2 |- *.
      destruct (Z.eqb_spec (pc st + 1) patience) as [Hp|Hp].
      * eexists _, _, 1. split; [done|].
        rewrite !evaluated_app, !saved_app, !validation_logs_app, Hq1, Hq2, Hq3.
        simpl. rewrite Z.add_0_r.
        rewrite filter_cons_False by (by rewrite Hi).
        repeat split; try done; [lia|by right].
      * destruct (IH _ Ht2) as (e3 & st3 & N & -> & Hev & HN & Hsv & Hvl & Hstop);
          [simpl; lia|].
        cbn [mbind outcome_bind]. simpl in Hev, HN.
        eexists _, st3, (S N). split; [done|].
        rewrite !evaluated_app, !saved_app, !validation_logs_app, Hq1, Hq2, Hq3.
        rewrite Hvl, Hsv, Hev, <- Hshift. simpl.
        rewrite filter_cons_False by (by rewrite Hi). repeat split; try done. lia.
  - rewrite epochs_done by done. exists [], st, 0.
    repeat split; try done; [lia|by left].
Qed.

End EpochsFacts.

Section Example.
Context {B : Type}.
Variable shuffle : nat -> list nat -> list nat.
Variable evaluate : Z -> metrics.
Variable train_dls : list (list B).
Variable n_epochs : Z.
Variable L : Z.
Variable g : Z.
Variable sched : bool.
Variable fuel : nat.
Hypothesis g_pos : (1 <= g)%Z.
Hypothesis L_nonzero : L <> 0%Z.
Hypothesis shuffle_perm : forall c l, shuffle c l ≡ₚ l.
Hypothesis fuel_enough : sum_list_with length train_dls + length train_dls < fuel.
Hypothesis four_epochs : (4 <= n_epochs)%Z.
Hypothesis acc0 : (m_acc (evaluate 0) == 0.5)%Q.
Hypothesis acc1 : (m_acc (evaluate 1) == 0.6)%Q.
Hypothesis acc2 : (m_acc (evaluate 2) == 0.55)%Q.
Hypothesis acc3 : (m_acc (evaluate 3) == 0.55)%Q.

Abbreviation epochs :=
  (Train.epochs shuffle evaluate train_dls n_epochs L 2 g sched).

Lemma example_improves :
  improves evaluate 0 = true /\ improves evaluate 1 = true /\
  improves evaluate 2 = false /\ improves evaluate 3 = false.
Proof.
  split; [|split; [|split]].
  - apply improves_spec. split; [by rewrite acc0|]. intros e' He'. lia.
  - apply improves_spec. split; [by rewrite acc1|]. intros e' He'.
    replace e' with 0%Z by lia. by rewrite acc0, acc1.
  - apply not_true_is_false. intros [_ H]%improves_spec.
    specialize (H 1%Z ltac:(lia)). by rewrite acc1, acc2 in H.
  - apply not_true_is_false. intros [_ H]%improves_spec.
    specialize (H 1%Z ltac:(lia)). by rewrite acc1, acc3 in H.
Qed.

(** The run on the accuracies 0.5, 0.6, 0.55, 0.55 with patience 2. *)
Lemma epochs_example (k r : nat) :
  4 <= k ->
  exists tr st,
    epochs k fuel (Train.init r) = Done (tr, st) /\
    evaluated tr = [0; 1; 2; 3]%Z /\ saved tr = [0; 1]%Z /\
    Train.epoch_counter st = 3%Z /\ Train.patience_counter st = 2%Z.
Proof.
  intros Hk. destruct k as [|[|[|[|k]]]]; try lia.
  destruct example_improves as (Hi0 & Hi1 & Hi2 & Hi3).
  pose proof (tracks_best_init evaluate r) as Ht0.
  (* first epoch *)
  destruct (epochs_iter shuffle evaluate train_dls n_epochs L 2 g sched fuel
              g_pos L_nonzero shuffle_perm fuel_enough (S (S (S k))) (Train.init r))
    as (e1 & r1 & Hq1 & Hs1 & _ & ->); [simpl; lia|].
  destruct (after_epoch_improved (B:=B) evaluate 2
              (Train.State 0 0 0 r1) Hi0 (tracks_best_rng evaluate _ r1 Ht0))
    as [E Ht1].
  cbn [Train.init Train.best_acc Train.patience_counter Train.epoch_counter
       Train.rng] in E, Ht1 |- *.
  change (0 + 1)%Z with 1%Z in E, Ht1.
  rewrite E. clear E.
  (* second epoch *)
  destruct (epochs_iter shuffle evaluate train_dls n_epochs L 2 g sched fuel
              g_pos L_nonzero shuffle_perm fuel_enough (S (S k))
              (Train.State (m_acc (evaluate 0)) 0 1 r1))
    as (e2 & r2 & Hq2 & Hs2 & _ & ->); [simpl; lia|].
  destruct (after_epoch_improved (B:=B) evaluate 2
              (Train.State (m_acc (evaluate 0)) 0 1 r2) Hi1
              (tracks_best_rng evaluate _ r2 Ht1))
    as [E Ht2].
  cbn [Train.best_acc Train.patience_counter Train.epoch_counter
       Train.rng] in E, Ht2 |- *.
  change (1 + 1)%Z with 2%Z in E, Ht2.
  rewrite E. clear E.
  (* third epoch *)
  destruct (epochs_iter shuffle evaluate train_dls n_epochs L 2 g sched fuel
              g_pos L_nonzero shuffle_perm fuel_enough (S k)
              (Train.State (m_acc (evaluate 1)) 0 2 r2))
    as (e3 & r3 & Hq3 & Hs3 & _ & ->); [simpl; lia|].
  destruct (after_epoch_not_improved (B:=B) evaluate 2
              (Train.State (m_acc (evaluate 1)) 0 2 r3) Hi2
              (tracks_best_rng evaluate _ r3 Ht2))
    as [E Ht3].
  cbn [Train.best_acc Train.patience_counter Train.epoch_counter
       Train.rng] in E, Ht3 |- *.
  change (2 + 1)%Z with 3%Z in E, Ht3. change (0 + 1)%Z with 1%Z in E, Ht3.
  change (1 =? 2)%Z with false in E.
  rewrite E. clear E.
  (* fourth epoch *)
  destruct (epochs_iter shuffle evaluate train_dls n_epochs L 2 g sched fuel
              g_pos L_nonzero shuffle_perm fuel_enough k
              (Train.State (m_acc (evaluate 1)) 1 3 r3))
    as (e4 & r4 & Hq4 & Hs4 & _ & ->); [simpl; lia|].
  destruct (after_epoch_not_improved (B:=B) evaluate 2
              (Train.State (m_acc (evaluate 1)) 1 3 r4) Hi3
              (tracks_best_rng evaluate _ r4 Ht3))
    as [E _].
  cbn [Train.best_acc Train.patience_counter Train.epoch_counter
       Train.rng] in E |- *.
  change (1 + 1)%Z with 2%Z in E. change (2 =? 2)%Z with true in E.
  rewrite E. clear E. cbn [mbind outcome_bind].
  eexists _, _. split; [done|].
  rewrite !evaluated_app, !saved_app, Hq1, Hq2, Hq3, Hq4, Hs1, Hs2, Hs3, Hs4.
  done.
Qed.

End Example.

(** ** Loss events and checkpoints of a trace *)

Section LossEvents.
Context {B : Type}.
Variable g : Z.
Variable L : Z.
Variable sched : bool.

Lemma loss_events_cons (e : event B) (tr : list (event B)) :
  loss_events (e :: tr) = (if is_log_loss e then 1 else 0) + loss_events tr.
Proof.
  unfold loss_events. rewrite filter_cons.
  destruct (is_log_loss e); case_decide; simpl; congruence.
Qed.

Lemma loss_events_batch d bs i (rest : list (event B)) :
  loss_events (batch_events g L d bs i ++ rest)
  = length (filter (fun b => b = true) (log_flags L i (length bs)))
    + loss_events rest.
Proof.
  revert i; induction bs as [|b bs IH]; intros i; [done|].
  cbn [batch_events app length log_flags]. rewrite loss_events_cons, <- app_assoc.
  destruct (_ =? _)%Z; cbn [app is_log_loss]; rewrite ?loss_events_cons;
    cbn [is_log_loss]; rewrite IH.
  - by rewrite filter_cons_True.
  - by rewrite filter_cons_False.
Qed.

(** Every loss event of an interleaving is the one of a batch. *)
Lemma interleaving_loss_events a i (tr : list (event B)) b j :
  interleaving g L sched a i tr b j ->
  loss_events tr = length (filter (fun x => x = true) (batch_logged tr)).
Proof.
  induction 1 as [|a i d it tr b j Hd Hne _ IH]; [done|].
  rewrite batch_logged_block, filter_app, length_app, <- IH.
  rewrite block_app, loss_events_cons, loss_events_batch, loss_events_cons.
  destruct sched; cbn [app is_log_loss]; rewrite ?loss_events_cons; done.
Qed.

End LossEvents.

Section Checkpoints.
Context {B : Type}.
Variable state_dict : Z -> string.

Lemma write_checkpoints_saved (path : string) (tr : list (event B))
      (fs : gmap string string) :
  Main.write_checkpoints state_dict path tr fs
  = foldl (fun fs k => <[path := state_dict k]> fs) fs (saved tr).
Proof.
  unfold Main.write_checkpoints. revert fs.
  induction tr as [|e tr IH]; intros fs; [done|].
  destruct e; simpl; apply IH.
Qed.

Lemma write_checkpoints_none (path : string) (tr : list (event B))
      (fs : gmap string string) :
  saved tr = [] -> Main.write_checkpoints state_dict path tr fs = fs.
Proof. intros H. by rewrite write_checkpoints_saved, H. Qed.

Lemma write_checkpoints_some (path : string) (tr : list (event B))
      (fs : gmap string string) :
  saved tr <> [] ->
  exists k, last (saved tr) = Some k /\
    Main.write_checkpoints state_dict path tr fs !! path = Some (state_dict k).
Proof.
  rewrite write_checkpoints_saved. generalize (saved tr) as ks. intros ks.
  induction ks as [|k ks _] using rev_ind; intros Hne; [done|].
  exists k. rewrite last_snoc, foldl_app. simpl.
  split; [done|]. apply lookup_insert_eq.
Qed.

End Checkpoints.

Lemma filter_none {A} (P : A -> Prop) `{forall x, Decision (P x)} (l : list A) :
  Forall (fun x => ~ P x) l -> filter P l = [].
Proof. induction 1; [done|]. by rewrite filter_cons_False. Qed.

(** If no epoch among the first [N] improves, none has an accuracy above
    0.0. *)
Lemma no_improvement_no_positive (evaluate : Z -> metrics) (N : nat) :
  filter (fun e => improves evaluate e = true) (Z.of_nat <$> seq 0 N) = [] ->
  forall j, j < N -> (m_acc (evaluate (Z.of_nat j)) <= 0)%Q.
Proof.
  intros Hf j. induction j as [j IH] using lt_wf_ind. intros Hj.
  apply Qnot_lt_le. intros Hpos.
  assert (Hi : improves evaluate (Z.of_nat j) = true).
  { apply improves_spec. split; [done|]. intros e' He'.
    eapply Qle_lt_trans; [|exact Hpos].
    replace e' with (Z.of_nat (Z.to_nat e')) by lia. apply IH; lia. }
  assert (Hin : Z.of_nat j ∈ filter (fun e => improves evaluate e = true)
                              (Z.of_nat <$> seq 0 N)).
  { apply list_elem_of_filter. split; [done|].
    apply list_elem_of_fmap. exists j. split; [done|]. apply elem_of_seq. lia. }
  rewrite Hf in Hin. by apply elem_of_nil in Hin.
Qed.

(** ** Claims about the early-stopping controller *)

(** C1. After every epoch the controller evaluates; if the validation
    accuracy is strictly above the best one kept, it saves the checkpoint,
    sets the patience counter to 0 and logs the validation metrics;
    otherwise it adds one to the patience counter and stops exactly when
    the counter then equals [patience]. The loop also stops once the epoch
    counter has reached [n_epochs]: a run evaluates at most [n_epochs]
    times. With validation accuracies 0.5, 0.6, 0.55, 0.55, patience 2 and
    at least four epochs allowed, checkpoints are written after the first
    and the second epoch only ([epoch_counter] 0 and 1), and training stops
    after the fourth. *)
Theorem early_stopping_protocol
  {B : Type} (shuffle : nat -> list nat -> list nat) (evaluate : Z -> metrics)
  (train_dls : list (list B)) (n_epochs L patience g : Z) (sched : bool)
  (fuel r : nat) :
  (1 <= g)%Z -> L <> 0%Z -> (forall c l, shuffle c l ≡ₚ l) ->
  sum_list_with length train_dls + length train_dls < fuel ->
  Z.to_nat n_epochs < fuel ->
  (forall st : Train.state,
     (Train.best_acc st < m_acc (evaluate (Train.epoch_counter st)))%Q ->
     Train.after_epoch (B:=B) evaluate patience st
     = ([Evaluate (Train.epoch_counter st);
         SaveCheckpoint (Train.epoch_counter st);
         LogValidation (evaluate (Train.epoch_counter st))],
        Train.State (m_acc (evaluate (Train.epoch_counter st))) 0
          (Train.epoch_counter st + 1) (Train.rng st),
        false)) /\
  (forall st : Train.state,
     ~ (Train.best_acc st < m_acc (evaluate (Train.epoch_counter st)))%Q ->
     Train.after_epoch (B:=B) evaluate patience st
     = ([Evaluate (Train.epoch_counter st)],
        Train.State (Train.best_acc st) (Train.patience_counter st + 1)
          (if (Train.patience_counter st + 1 =? patience)%Z
           then Train.epoch_counter st else (Train.epoch_counter st + 1)%Z)
          (Train.rng st),
        (Train.patience_counter st + 1 =? patience)%Z)) /\
  exists tr st (N : nat),
    Train.train shuffle evaluate train_dls n_epochs L patience g sched fuel r
    = Done (tr, st) /\
    evaluated tr = Z.of_nat <$> seq 0 N /\
    (Z.of_nat N <= Z.max 0 n_epochs)%Z /\
    saved tr = filter (fun e => improves evaluate e = true) (evaluated tr) /\
    ((n_epochs <= Train.epoch_counter st)%Z \/ Train.patience_counter st = patience) /\
    (patience = 2%Z -> (4 <= n_epochs)%Z ->
     (m_acc (evaluate 0%Z) == 0.5)%Q -> (m_acc (evaluate 1%Z) == 0.6)%Q ->
     (m_acc (evaluate 2%Z) == 0.55)%Q -> (m_acc (evaluate 3%Z) == 0.55)%Q ->
     saved tr = [0; 1]%Z /\ evaluated tr = [0; 1; 2; 3]%Z /\
     Train.patience_counter st = 2%Z).
Proof.
  intros Hg HL Hsh Hfuel Hn. split; [|split].
  - intros st Hlt. unfold Train.after_epoch.
    apply Qgtb_lt in Hlt. by rewrite Hlt.
  - intros st Hlt. unfold Train.after_epoch.
    destruct (Train.Qgtb _ _) eqn:E; [by apply Qgtb_lt in E|].
    by destruct (_ =? _)%Z.
  - destruct (epochs_spec shuffle evaluate train_dls n_epochs L patience g sched
                fuel Hg HL Hsh Hfuel fuel (Train.init r) (tracks_best_init evaluate r))
      as (tr & st & N & Hrun & Hev & HN & Hsv & _ & Hstop); [simpl; lia|].
    exists tr, st, N. split; [exact Hrun|]. simpl in Hev, HN.
    rewrite Z.sub_0_r in HN.
    split; [rewrite Hev; by apply list_fmap_ext|].
    split; [done|]. split; [done|]. split; [done|].
    intros -> H4 H0 H1 H2 H3.
    destruct (epochs_example shuffle evaluate train_dls n_epochs L g sched fuel
                Hg HL Hsh Hfuel H4 H0 H1 H2 H3 fuel r)
      as (tr' & st' & Hrun' & Hev' & Hsv' & _ & Hpc'); [lia|].
    unfold Train.train in Hrun. rewrite Hrun in Hrun'. by simplify_eq.
Qed.

Lemma early_stopping_protocol_witness :
  exists tr st,
    Train.train (fun _ l => rev l) example_accuracies [[1; 2; 3]; [4; 5]]
      10 1 2 2 true 20 0 = Done (tr, st) /\
    saved tr = [0; 1]%Z /\ evaluated tr = [0; 1; 2; 3]%Z.
Proof.
  destruct (early_stopping_protocol (fun _ l => rev l) example_accuracies
              [[1; 2; 3]; [4; 5]] 10 1 2 2 true 20 0)
    as (_ & _ & tr & st & N & Hrun & _ & _ & _ & _ & Hex).
  - lia.
  - lia.
  - intros c l. symmetry. apply Permutation_rev.
  - simpl. lia.
  - simpl. lia.
  - exists tr, st. split; [exact Hrun|].
    destruct Hex as (H1 & H2 & _); try reflexivity; [lia|]. by split.
Defined.



(** C9, as stated, fails: with accumulation factor 2 and [log_interval] 1,
    a loader of two batches gives one accumulation group, in which two loss
    events are emitted, not one. *)
Lemma loss_logged_per_batch_not_per_group :
  exists tr st,
    Scheduler.run_epoch (fun _ l => l) 2 1 true 5 [[1; 2]] 0 = Done (tr, st) /\
    length (groups tr) = 1 /\ loss_events tr = 2 /\
    ~ logs_every_nth_group 1 tr.
Proof.
  eexists _, _. split; [reflexivity|].
  split; [reflexivity|]. split; [reflexivity|].
  unfold logs_every_nth_group. simpl. discriminate.
Qed.

(** C9, amended. In every epoch the loss of a batch is logged exactly when
    the number of batches already run in that epoch is a multiple of
    [log_interval] (batches are counted, not accumulation groups), and
    there is no other loss event; over a whole call of [train], validation
    metrics are logged for the improving epochs, in order, and for no
    other. *)
Theorem loss_logged_every_nth_batch
  {B : Type} (shuffle : nat -> list nat -> list nat) (evaluate : Z -> metrics)
  (train_dls : list (list B)) (n_epochs L patience g : Z) (sched : bool)
  (fuel r : nat) :
  (1 <= g)%Z -> L <> 0%Z -> (forall c l, shuffle c l ≡ₚ l) ->
  sum_list_with length train_dls + length train_dls < fuel ->
  Z.to_nat n_epochs < fuel ->
  (exists tr st,
     Scheduler.run_epoch shuffle g L sched fuel train_dls r = Done (tr, st) /\
     batch_logged tr
     = (fun j => Z.of_nat j mod L =? 0)%Z <$> seq 0 (sum_list_with length train_dls) /\
     loss_events tr = length (filter (fun x => x = true) (batch_logged tr))) /\
  (exists tr st,
     Train.train shuffle evaluate train_dls n_epochs L patience g sched fuel r
     = Done (tr, st) /\
     validation_logs tr
     = evaluate <$> filter (fun e => improves evaluate e = true) (evaluated tr)).
Proof.
  intros Hg HL Hsh Hfuel Hn. split.
  - destruct (run_epoch_spec shuffle g L sched fuel train_dls r Hg HL Hsh Hfuel)
      as (tr & st & Hrun & Hs & Hits & _).
    exists tr, st. split; [exact Hrun|]. split.
    + rewrite (interleaving_logged g L sched _ _ _ _ _ Hs).
      rewrite (lengths_drained _ Hits), Nat.sub_0_r, log_flags_seq.
      apply list_fmap_ext. intros _ j _. by rewrite Z.add_0_l.
    + by eapply interleaving_loss_events.
  - destruct (epochs_spec shuffle evaluate train_dls n_epochs L patience g sched
                fuel Hg HL Hsh Hfuel fuel (Train.init r) (tracks_best_init evaluate r))
      as (tr & st & N & Hrun & _ & _ & Hsv & Hvl & _); [simpl; lia|].
    exists tr, st. split; [exact Hrun|]. by rewrite Hvl, Hsv.
Qed.

Lemma loss_logged_every_nth_batch_witness :
  exists tr st,
    Scheduler.run_epoch (fun _ l => rev l) 2 3 true 20 [[1; 2; 3]; [4; 5]] 0
    = Done (tr, st) /\
    batch_logged tr = [true; false; false; true; false].
Proof.
  destruct (loss_logged_every_nth_batch (fun _ l => rev l) example_accuracies
              [[1; 2; 3]; [4; 5]] 10 3 2 2 true 20 0)
    as ((tr & st & Hrun & Hlog & _) & _).
  - lia.
  - lia.
  - intros c l. symmetry. apply Permutation_rev.
  - simpl. lia.
  - simpl. lia.
  - exists tr, st. split; [exact Hrun|]. rewrite Hlog. reflexivity.
Defined.

(** ** Text *)

Section TextFacts.
Import Text.

Lemma all_chars_app p s t :
  all_chars p (s ++ t)%string = all_chars p s && all_chars p t.
Proof. induction s as [|c s IH]; simpl; [done|]. by rewrite IH, andb_assoc. Qed.

Lemma all_chars_impl (p q : ascii -> bool) s :
  (forall c, p c = true -> q c = true) ->
  all_chars p s = true -> all_chars q s = true.
Proof.
  intros Hpq. induction s as [|c s IH]; simpl; [done|].
  intros [Hc Hs]%andb_true_iff. by rewrite (Hpq c Hc), IH.
Qed.

Lemma digit_facts c :
  is_digit c = true ->
  is_space c = false /\ Ascii.eqb c comma = false /\
  Ascii.eqb c minus = false /\ Ascii.eqb c plus = false /\
  Ascii.eqb c LF = false /\ Ascii.eqb c CR = false /\
  Ascii.eqb c underscore = false.
Proof. destruct c as [[] [] [] [] [] [] [] []]; by vm_compute. Qed.

Lemma numeral_facts c :
  is_numeral c = true ->
  is_space c = false /\ Ascii.eqb c comma = false /\
  Ascii.eqb c LF = false /\ Ascii.eqb c CR = false.
Proof. destruct c as [[] [] [] [] [] [] [] []]; by vm_compute. Qed.

Lemma string_of_uint_digits d :
  all_chars is_digit (NilEmpty.string_of_uint d) = true.
Proof. induction d; simpl; done. Qed.

Lemma str_of_nat_digits n : all_chars is_digit (str_of_nat n) = true.
Proof.
  unfold str_of_nat, NilZero.string_of_uint.
  destruct (Nat.to_uint n) eqn:E; [done|..]; rewrite <- E;
    apply string_of_uint_digits.
Qed.

Lemma str_of_nat_nonempty n : str_of_nat n <> EmptyString.
Proof.
  unfold str_of_nat, NilZero.string_of_uint.
  destruct (Nat.to_uint n); simpl; done.
Qed.

Lemma str_of_Z_numeral z : all_chars is_numeral (str_of_Z z) = true.
Proof.
  assert (H : forall n, all_chars is_numeral (str_of_nat n) = true).
  { intros n. eapply all_chars_impl; [|apply str_of_nat_digits].
    intros c Hc. unfold is_numeral. by rewrite Hc. }
  destruct z; simpl; auto.
Qed.

Lemma strip_id s : all_chars (fun c => negb (is_space c)) s = true -> strip s = s.
Proof.
  intros H. unfold strip.
  assert (Hl : lstrip s = s).
  { destruct s as [|c s]; [done|]. simpl in *.
    apply andb_true_iff in H as [Hc _]. apply negb_true_iff in Hc. by rewrite Hc. }
  rewrite Hl. induction s as [|c s IH]; [done|]. simpl in *.
  apply andb_true_iff in H as [Hc Hs]. apply negb_true_iff in Hc.
  rewrite Hc. simpl. rewrite IH; [done|done|].
  destruct s as [|c' s]; [done|]. simpl in *.
  apply andb_true_iff in Hs as [Hc' _]. apply negb_true_iff in Hc'. by rewrite Hc'.
Qed.

Lemma split_no_sep sep s :
  all_chars (fun c => negb (Ascii.eqb c sep)) s = true -> split sep s = [s].
Proof.
  induction s as [|c s IH]; [done|]. simpl.
  intros [Hc Hs]%andb_true_iff. apply negb_true_iff in Hc.
  by rewrite Hc, IH.
Qed.

Lemma split_at_sep sep s t :
  all_chars (fun c => negb (Ascii.eqb c sep)) s = true ->
  split sep (s ++ String sep t)%string = s :: split sep t.
Proof.
  induction s as [|c s IH]; simpl.
  - intros _. by rewrite Ascii.eqb_refl.
  - intros [Hc Hs]%andb_true_iff. apply negb_true_iff in Hc.
    by rewrite Hc, IH.
Qed.

Lemma file_lines_line s t :
  all_chars (fun c => negb (Ascii.eqb c LF) && negb (Ascii.eqb c CR)) s = true ->
  file_lines (s ++ String LF t)%string = s :: file_lines t.
Proof.
  induction s as [|c s IH]; [done|]. cbn [all_chars].
  intros [[Hc1 Hc2]%andb_true_iff Hs]%andb_true_iff.
  apply negb_true_iff in Hc1, Hc2.
  change (String c s ++ String LF t)%string with (String c (s ++ String LF t)).
  cbn [file_lines]. by rewrite Hc1, Hc2, IH.
Qed.

Lemma digits_val_uint d acc prev :
  (0 <= acc)%Z ->
  digits_val (NilEmpty.string_of_uint d) acc prev
  = match d with
    | Decimal.Nil => if prev then Some acc else None
    | _ => Some (Z.of_nat (Nat.of_uint_acc d (Z.to_nat acc)))
    end.
Proof.
  revert acc prev. induction d as [|d IH|d IH|d IH|d IH|d IH|d IH|d IH|d IH|d IH|d IH];
    intros acc prev Hacc; [done|..];
    cbn [NilEmpty.string_of_uint digits_val Nat.of_uint_acc];
    match goal with |- context [is_digit ?c] =>
      change (is_digit c) with true; cbv iota
    end;
    rewrite IH by lia; rewrite Nat.tail_mul_spec;
    match goal with |- context [Z.of_nat (nat_of_ascii ?c - 48)] =>
      let v := eval vm_compute in (Z.of_nat (nat_of_ascii c - 48)) in
      change (Z.of_nat (nat_of_ascii c - 48)) with v
    end;
    match goal with |- context [Nat.of_uint_acc d (Z.to_nat ?a)] =>
      match goal with |- _ = Some (Z.of_nat (Nat.of_uint_acc d ?b)) =>
        replace (Z.to_nat a) with b by lia;
        destruct d; [cbn [Nat.of_uint_acc]; f_equal; lia|done..]
      end
    end.
Qed.

Lemma py_int_str_of_nat n : py_int (str_of_nat n) = Done (Z.of_nat n).
Proof.
  unfold py_int.
  pose proof (str_of_nat_digits n) as Hd.
  rewrite strip_id
    by (eapply all_chars_impl; [|exact Hd]; intros c Hc;
        by destruct (digit_facts c Hc) as (-> & _)).
  pose proof (str_of_nat_nonempty n) as Hne.
  destruct (str_of_nat n) as [|c s] eqn:E; [done|].
  cbn [all_chars] in Hd. apply andb_true_iff in Hd as [Hc _].
  destruct (digit_facts c Hc) as (_ & _ & -> & -> & _).
  rewrite <- E. unfold str_of_nat, NilZero.string_of_uint.
  pose proof (DecimalNat.Unsigned.of_to n) as Hof.
  destruct (Nat.to_uint n) as [|d|d|d|d|d|d|d|d|d|d] eqn:En;
    [simpl in Hof; by subst n|..];
    rewrite digits_val_uint by done;
    change (Z.to_nat 0) with 0; unfold Nat.of_uint in Hof; by rewrite Hof.
Qed.

End TextFacts.

Section ParseFacts.
Import Text Split.

Lemma append_assoc (a b c : string) : ((a ++ b) ++ c = a ++ (b ++ c))%string.
Proof.
  induction a as [|x a IH]; [done|].
  change (String x ((a ++ b) ++ c) = String x (a ++ b ++ c))%string.
  by rewrite IH.
Qed.

Lemma digits_val_str_of_nat n :
  digits_val (str_of_nat n) 0 false = Some (Z.of_nat n).
Proof.
  unfold str_of_nat, NilZero.string_of_uint.
  pose proof (DecimalNat.Unsigned.of_to n) as Hof.
  destruct (Nat.to_uint n) as [|d|d|d|d|d|d|d|d|d|d] eqn:En;
    [simpl in Hof; by subst n|..];
    rewrite digits_val_uint by done;
    change (Z.to_nat 0) with 0; unfold Nat.of_uint in Hof; by rewrite Hof.
Qed.

(** [int(str(z)) == z] *)
Lemma py_int_str_of_Z z : py_int (str_of_Z z) = Done z.
Proof.
  unfold py_int.
  rewrite strip_id
    by (eapply all_chars_impl; [|apply str_of_Z_numeral]; intros c Hc;
        by destruct (numeral_facts c Hc) as (-> & _)).
  assert (Hnat : forall n,
    match str_of_nat n with
    | String c r =>
        if Ascii.eqb c minus then Z.opp <$> digits_val r 0 false
        else if Ascii.eqb c plus then digits_val r 0 false
        else digits_val (String c r) 0 false
    | EmptyString => None
    end = Some (Z.of_nat n)).
  { intros n. pose proof (str_of_nat_digits n) as Hd.
    pose proof (str_of_nat_nonempty n) as Hne.
    pose proof (digits_val_str_of_nat n) as Hv.
    destruct (str_of_nat n) as [|c s]; [done|].
    cbn [all_chars] in Hd. apply andb_true_iff in Hd as [Hc _].
    by destruct (digit_facts c Hc) as (_ & _ & -> & -> & _). }
  destruct z as [|p|p]; cbn [str_of_Z].
  - by rewrite Hnat.
  - rewrite Hnat. f_equal. lia.
  - change (Ascii.eqb minus minus) with true. cbv iota.
    rewrite digits_val_str_of_nat. simpl. f_equal. lia.
Qed.

Lemma line_body_chars p :
  all_chars (fun c => is_numeral c || Ascii.eqb c comma) (line_body p) = true.
Proof.
  assert (H : forall z,
    all_chars (fun c => is_numeral c || Ascii.eqb c comma) (str_of_Z z) = true).
  { intros z. eapply all_chars_impl; [|apply str_of_Z_numeral].
    intros c Hc. by rewrite Hc. }
  unfold line_body. rewrite all_chars_app. cbn [all_chars]. by rewrite !H.
Qed.

(** Reading back a line that was written gives the pair written. *)
Lemma parse_line_body p : parse_line (line_body p) = Done p.
Proof.
  unfold parse_line.
  rewrite strip_id.
  2:{ eapply all_chars_impl; [|apply line_body_chars]. intros c Hc.
      apply orb_true_iff in Hc as [Hc|Hc].
      - by destruct (numeral_facts c Hc) as (-> & _).
      - destruct c as [[] [] [] [] [] [] [] []]; by vm_compute in Hc |- *. }
  unfold line_body. rewrite split_at_sep, split_no_sep.
  2,3: eapply all_chars_impl; [|apply str_of_Z_numeral]; intros c Hc;
       by destruct (numeral_facts c Hc) as (_ & -> & _).
  rewrite py_int_str_of_Z. cbn [mbind outcome_bind].
  rewrite py_int_str_of_Z. by destruct p.
Qed.

Lemma index_line_body j idx :
  index_line j idx = (line_body (j, idx) ++ String LF EmptyString)%string.
Proof. unfold index_line, line_body. cbn [fst snd]. by rewrite append_assoc. Qed.

Lemma file_lines_body p t :
  file_lines (index_line p.1 p.2 ++ t)%string = line_body p :: file_lines t.
Proof.
  rewrite index_line_body, append_assoc. destruct p as [j idx]. simpl fst; simpl snd.
  change (String LF "" ++ t)%string with (String LF t).
  apply file_lines_line.
  eapply all_chars_impl; [|apply line_body_chars]. intros c Hc.
  apply orb_true_iff in Hc as [Hc|Hc].
  - by destruct (numeral_facts c Hc) as (_ & _ & -> & ->).
  - destruct c as [[] [] [] [] [] [] [] []]; by vm_compute in Hc |- *.
Qed.

(** The lines of an index file are the pairs written, one per line. *)
Lemma file_lines_index_text train j subsets :
  file_lines (index_text train j subsets)
  = line_body <$> index_pairs train j subsets.
Proof.
  revert j; induction subsets as [|s rest IH]; intros j; [done|].
  cbn [index_text index_pairs]. rewrite fmap_app, <- IH.
  generalize (index_text train (S j) rest) as t. intros t.
  induction (ss_indices (if train then s.1 else s.2)) as [|idx idxs IHi]; [done|].
  cbn [foldr fmap list_fmap app].
  by rewrite (file_lines_body (Z.of_nat j, idx)), IHi.
Qed.

Lemma load_lines_parsed train ls pairs m :
  mapM parse_line ls = Done pairs ->
  load_lines train ls m = Done (dict_load train pairs m).
Proof.
  revert pairs m; induction ls as [|l ls IH]; intros pairs m.
  - intros [= <-]. done.
  - cbn [mapM load_lines]. destruct (parse_line l) as [[k x]| |]; [|done..].
    cbn [mbind outcome_bind].
    destruct (mapM parse_line ls) as [ps| |]; [|done..].
    intros [= <-]. cbn [mbind outcome_bind]. by rewrite (IH ps).
Qed.

Lemma mapM_parse_bodies pairs :
  mapM parse_line (line_body <$> pairs) = Done pairs.
Proof.
  induction pairs as [|p ps IH]; [done|].
  cbn [fmap list_fmap mapM]. rewrite parse_line_body. cbn [mbind outcome_bind].
  fold (@fmap list _ _ _ line_body ps). by rewrite IH.
Qed.

End ParseFacts.

(** ** The dictionary of reloaded indices *)

Section DictFacts.
Import Split.

Lemma first_occurrences_ext ks s1 s2 :
  (forall x, x ∈ s1 <-> x ∈ s2) ->
  first_occurrences ks s1 = first_occurrences ks s2.
Proof.
  revert s1 s2; induction ks as [|k ks IH]; intros s1 s2 H; [done|].
  cbn [first_occurrences].
  rewrite (bool_decide_ext (k ∈ s1) (k ∈ s2)) by apply H.
  destruct (bool_decide _); [by apply IH|].
  f_equal. apply IH. intros x. rewrite !elem_of_cons. by rewrite H.
Qed.

Lemma elem_of_first_occurrences ks seen x :
  x ∈ first_occurrences ks seen <-> x ∈ ks /\ x ∉ seen.
Proof.
  revert seen; induction ks as [|k ks IH]; intros seen; cbn [first_occurrences].
  - rewrite !elem_of_nil. tauto.
  - destruct (bool_decide_reflect (k ∈ seen)) as [Hk|Hk].
    + rewrite IH, elem_of_cons. split; [tauto|].
      intros [[->|?] ?]; [done|tauto].
    + rewrite !elem_of_cons, IH, elem_of_cons. split.
      * intros [->|(? & ?)]; [tauto|]. tauto.
      * intros [[->|?] ?]; [tauto|]. destruct (decide (x = k)); tauto.
Qed.

Lemma first_occurrences_NoDup ks seen : NoDup (first_occurrences ks seen).
Proof.
  revert seen; induction ks as [|k ks IH]; intros seen; cbn [first_occurrences].
  - constructor.
  - destruct (bool_decide _); [apply IH|]. constructor; [|apply IH].
    rewrite elem_of_first_occurrences, elem_of_cons. tauto.
Qed.

Lemma first_occurrences_app a b seen :
  first_occurrences (a ++ b) seen
  = first_occurrences a seen ++ first_occurrences b (seen ++ a).
Proof.
  revert seen; induction a as [|k a IH]; intros seen; cbn [first_occurrences app].
  - by rewrite app_nil_r.
  - destruct (bool_decide_reflect (k ∈ seen)) as [Hk|Hk].
    + rewrite IH. f_equal. apply first_occurrences_ext. intros x.
      rewrite !elem_of_app, elem_of_cons. split; [tauto|].
      intros [?|[->|?]]; tauto.
    + cbn [app]. f_equal. rewrite IH. f_equal.
      apply first_occurrences_ext. intros x.
      rewrite !elem_of_app, !elem_of_cons. tauto.
Qed.

Lemma dict_keys_append train k x (m : index_dict) :
  (dict_append train k x m).*1
  = m.*1 ++ (if bool_decide (k ∈ m.*1) then [] else [k]).
Proof.
  induction m as [|[k' [tr va]] m IH]; [done|].
  cbn [dict_append]. destruct (Z.eqb_spec k k') as [->|Hne].
  - cbn [fmap list_fmap fst]. rewrite bool_decide_eq_true_2 by (apply elem_of_cons; by left).
    by rewrite app_nil_r.
  - cbn [fmap list_fmap fst app]. fold (@fmap list _ _ _ (@fst Z (list Z * list Z))).
    rewrite IH. do 2 f_equal.
    rewrite (bool_decide_ext (k ∈ k' :: m.*1) (k ∈ m.*1)); [done|].
    rewrite elem_of_cons. tauto.
Qed.

Lemma dict_get_append train k x (m : index_dict) k' :
  dict_get k' (dict_append train k x m)
  = if decide (k' = k) then side_append train (dict_get k m) [x]
    else dict_get k' m.
Proof.
  induction m as [|[k0 [tr va]] m IH].
  - cbn [dict_append dict_get]. destruct (decide (k' = k)) as [->|Hne].
    + rewrite Z.eqb_refl. by destruct train.
    + destruct (Z.eqb_spec k' k); [done|]. by destruct train.
  - cbn [dict_append dict_get]. destruct (Z.eqb_spec k k0) as [->|Hne].
    + cbn [dict_get]. destruct (decide (k' = k0)) as [->|Hne'].
      * rewrite Z.eqb_refl. by destruct train.
      * by destruct (Z.eqb_spec k' k0).
    + cbn [dict_get]. rewrite IH.
      destruct (Z.eqb_spec k' k0) as [->|Hne']; [|done].
      by destruct (decide (k0 = k)).
Qed.

Lemma dict_canonical (m : index_dict) :
  NoDup m.*1 -> m = (fun k => (k, dict_get k m)) <$> m.*1.
Proof.
  induction m as [|[k v] m IH]; [done|].
  cbn [fmap list_fmap fst]. fold (@fmap list _ _ _ (@fst Z (list Z * list Z))).
  intros [Hk Hnd]%NoDup_cons. cbn [dict_get]. rewrite Z.eqb_refl. f_equal.
  rewrite (IH Hnd) at 1. apply list_fmap_ext. intros _ k' Hk'%list_elem_of_lookup_2.
  destruct (Z.eqb_spec k' k) as [->|]; [done|]. done.
Qed.

Lemma dict_keys_load train ps (m : index_dict) :
  (dict_load train ps m).*1 = m.*1 ++ first_occurrences ps.*1 m.*1.
Proof.
  unfold dict_load. revert m; induction ps as [|[k x] ps IH]; intros m.
  - by rewrite app_nil_r.
  - cbn [foldl fmap list_fmap fst snd first_occurrences].
    fold (@fmap list _ _ _ (@fst Z Z)).
    rewrite IH, dict_keys_append.
    destruct (bool_decide_reflect (k ∈ m.*1)) as [Hk|Hk].
    + by rewrite app_nil_r.
    + rewrite <- app_assoc. cbn [app]. do 2 f_equal.
      apply first_occurrences_ext. intros y.
      rewrite elem_of_app, !elem_of_cons, elem_of_nil. tauto.
Qed.

Lemma indices_of_cons k k' x ps :
  indices_of k ((k', x) :: ps)
  = if decide (k' = k) then x :: indices_of k ps else indices_of k ps.
Proof.
  unfold indices_of. rewrite filter_cons. cbn [fst].
  by destruct (decide (k' = k)).
Qed.

Lemma dict_get_load train ps (m : index_dict) k :
  dict_get k (dict_load train ps m)
  = side_append train (dict_get k m) (indices_of k ps).
Proof.
  unfold dict_load. revert m; induction ps as [|[k' x] ps IH]; intros m.
  - unfold side_append, indices_of. cbn. rewrite !app_nil_r.
    by destruct train, (dict_get k m).
  - cbn [foldl fst snd]. rewrite IH, dict_get_append, indices_of_cons.
    destruct (decide (k = k')) as [->|Hne].
    + rewrite decide_True by done.
      unfold side_append. destruct train; cbn [fst snd]; by rewrite <- app_assoc.
    + by rewrite decide_False by done.
Qed.

(** The dictionary after both files are read: one entry for each slot
    value that occurs, in the order of first occurrence, holding the
    indices the train file and the validation file give for it. *)
Lemma dict_load_both (T V : list (Z * Z)) :
  dict_load false V (dict_load true T [])
  = (fun k => (k, (indices_of k T, indices_of k V)))
      <$> first_occurrences (T ++ V).*1 [].
Proof.
  set (m := dict_load false V (dict_load true T [])).
  assert (Hk : m.*1 = first_occurrences (T ++ V).*1 []).
  { unfold m. rewrite !dict_keys_load, fmap_app, first_occurrences_app.
    cbn [fmap list_fmap app]. f_equal.
    apply first_occurrences_ext. intros x.
    rewrite elem_of_first_occurrences, elem_of_nil. tauto. }
  rewrite (dict_canonical m) by (rewrite Hk; apply first_occurrences_NoDup).
  rewrite Hk. apply list_fmap_ext. intros _ k _. f_equal.
  unfold m. rewrite !dict_get_load. cbn [dict_get]. done.
Qed.

Lemma indices_of_absent k ps : k ∉ ps.*1 -> indices_of k ps = [].
Proof.
  intros Hk. unfold indices_of.
  rewrite (filter_none (fun p : Z * Z => p.1 = k)); [done|].
  apply Forall_forall. intros [k' x] Hin Hk'. simpl in Hk'. subst k'.
  apply Hk. apply list_elem_of_fmap. by exists (k, x).
Qed.

End DictFacts.

(** ** [mapM] in the outcome monad *)

Section MapM.
Context {A C : Type}.

Lemma mapM_Done (f : A -> outcome C) (l : list A) (out : list C) :
  mapM f l = Done out <-> Forall2 (fun x y => f x = Done y) l out.
Proof.
  revert out; induction l as [|x l IH]; intros out; cbn [mapM].
  - split; [intros [= <-]; constructor|]. intros H. by inversion H.
  - split.
    + destruct (f x) as [y| |] eqn:Hx; [|done..]. cbn [mbind outcome_bind].
      destruct (mapM f l) as [ys| |]; [|done..]. intros [= <-].
      constructor; [done|]. by apply IH.
    + intros H. inversion H as [|? y ? ys Hx Hl]; subst.
      rewrite Hx. cbn [mbind outcome_bind].
      apply IH in Hl. by rewrite Hl.
Qed.

Lemma mapM_total (f : A -> outcome C) (l : list A) :
  Forall (fun x => exists y, f x = Done y) l -> exists out, mapM f l = Done out.
Proof.
  induction 1 as [|x l [y Hy] _ [ys IH]]; [by exists []|].
  exists (y :: ys). cbn [mapM]. by rewrite Hy, IH.
Qed.

Lemma mapM_raise (f : A -> outcome C) (l : list A) (e : pyerr) :
  Forall (fun x => (exists y, f x = Done y) \/ f x = Raise e) l ->
  Exists (fun x => f x = Raise e) l ->
  mapM f l = Raise e.
Proof.
  induction 1 as [|x l Hx Hl IH]; intros Hex; [by inversion Hex|].
  cbn [mapM]. destruct Hx as [[y Hy]|Hx]; [|by rewrite Hx].
  rewrite Hy. cbn [mbind outcome_bind].
  inversion Hex as [? ? Hbad|? ? Hbad]; subst; [congruence|].
  by rewrite (IH Hbad).
Qed.

Lemma mapM_fmap_list {A'} (f : A -> outcome C) (h : A' -> A) (l : list A') :
  mapM f (h <$> l) = mapM (fun x => f (h x)) l.
Proof.
  induction l as [|x l IH]; [done|].
  cbn [fmap list_fmap mapM]. fold (@fmap list _ _ _ h l). by rewrite IH.
Qed.

Lemma mapM_length (f : A -> outcome C) (l : list A) (out : list C) :
  mapM f l = Done out -> length out = length l.
Proof. intros H%mapM_Done. symmetry. by eapply Forall2_length. Qed.

End MapM.

Section ReloadFacts.
Import Split.

Lemma get_Done {A} (l : list A) j x : get l j = Done x <-> l !! j = Some x.
Proof. unfold get. destruct (l !! j); split; congruence. Qed.

Lemma filter_all {A} (P : A -> Prop) `{forall x, Decision (P x)} (l : list A) :
  Forall P l -> filter P l = l.
Proof. induction 1; [done|]. rewrite filter_cons_True by done. by f_equal. Qed.

Lemma others_lt i n j : j ∈ others i n -> j < n /\ j <> i.
Proof.
  unfold others. rewrite list_elem_of_filter, elem_of_seq. intros [? ?]. lia.
Qed.

Lemma others_length i n : i < n -> length (others i n) = n - 1.
Proof.
  intros Hi. unfold others.
  replace n with (i + (1 + (n - i - 1))) at 1 by lia.
  rewrite !seq_app, !filter_app, !length_app.
  rewrite (filter_all _ (seq 0 i)).
  2:{ apply Forall_forall. intros j Hj%elem_of_seq. lia. }
  cbn [seq]. rewrite filter_cons_False by (simpl; lia).
  rewrite (filter_all _ (seq _ (n - i - 1))).
  2:{ apply Forall_forall. intros j Hj%elem_of_seq. lia. }
  rewrite !length_seq. simpl. lia.
Qed.

Lemma dset_choices_ok (all_dsets : list dataset) i :
  exists choices,
    dset_choices all_dsets i = Done choices /\
    Forall2 (fun j ds => all_dsets !! j = Some ds)
            (others i (length all_dsets)) choices.
Proof.
  unfold dset_choices.
  destruct (mapM_total (get all_dsets) (others i (length all_dsets))) as [out Hout].
  - apply Forall_forall. intros j [Hj _]%others_lt.
    destruct (lookup_lt_is_Some_2 all_dsets j Hj) as [ds Hds].
    exists ds. by apply get_Done.
  - exists out. split; [done|]. apply mapM_Done in Hout.
    eapply Forall2_impl; [exact Hout|]. intros j ds. apply get_Done.
Qed.

Lemma py_index_ok {A} (l : list A) (k : Z) :
  (- Z.of_nat (length l) <= k < Z.of_nat (length l))%Z ->
  exists x, py_index l k = Done x.
Proof.
  intros Hk. unfold py_index.
  destruct (Z.leb_spec 0 k).
  - destruct (lookup_lt_is_Some_2 l (Z.to_nat k)) as [x Hx]; [lia|].
    exists x. by apply get_Done.
  - destruct (Z.leb_spec 0 (k + Z.of_nat (length l))); [|lia].
    destruct (lookup_lt_is_Some_2 l (Z.to_nat (k + Z.of_nat (length l))))
      as [x Hx]; [lia|].
    exists x. by apply get_Done.
Qed.

Lemma py_index_nat {A} (l : list A) (j : nat) :
  py_index l (Z.of_nat j) = get l j.
Proof.
  unfold py_index. destruct (Z.leb_spec 0 (Z.of_nat j)); [|lia].
  by rewrite Nat2Z.id.
Qed.

Lemma py_index_out_of_range {A} (l : list A) (k : Z) :
  (Z.of_nat (length l) <= k \/ k < - Z.of_nat (length l))%Z ->
  py_index l k = Raise IndexError.
Proof.
  intros Hk. unfold py_index, get.
  destruct (Z.leb_spec 0 k).
  - rewrite lookup_ge_None_2; [done|lia].
  - destruct (Z.leb_spec 0 (k + Z.of_nat (length l))); [lia|done].
Qed.

Lemma py_index_cases {A} (l : list A) (k : Z) :
  (exists x, py_index l k = Done x) \/ py_index l k = Raise IndexError.
Proof.
  destruct (decide (- Z.of_nat (length l) <= k < Z.of_nat (length l))%Z).
  - left. by apply py_index_ok.
  - right. apply py_index_out_of_range. lia.
Qed.

(** Lines 258-269, once both files are found and their lines parse. *)
Lemma reload_parsed (all_dsets : list dataset) i dir fs dset choices f g T V :
  all_dsets !! i = Some dset ->
  dset_choices all_dsets i = Done choices ->
  fs !! train_idx_path dir (ds_domain dset) = Some f ->
  fs !! val_idx_path dir (ds_domain dset) = Some g ->
  mapM parse_line (Text.file_lines f) = Done T ->
  mapM parse_line (Text.file_lines g) = Done V ->
  reload all_dsets i dir fs
  = mapM (slot_subsets choices T V) (first_occurrences (T ++ V).*1 []).
Proof.
  intros Hi Hc Hf Hg HT HV. unfold reload.
  apply get_Done in Hi. rewrite Hi, Hc. cbn [mbind outcome_bind].
  rewrite Hf, Hg.
  rewrite (load_lines_parsed true _ T [] HT). cbn [mbind outcome_bind].
  rewrite (load_lines_parsed false _ V _ HV). cbn [mbind outcome_bind].
  rewrite dict_load_both, mapM_fmap_list. done.
Qed.

End ReloadFacts.

Section ReloadShape.
Import Split.

Lemma slot_subsets_cases choices T V k :
  (exists s, slot_subsets choices T V k = Done s /\
             ss_indices s.1 = indices_of k T /\ ss_indices s.2 = indices_of k V /\
             py_index choices k = Done (ss_dataset s.1) /\
             ss_dataset s.2 = ss_dataset s.1)
  \/ slot_subsets choices T V k = Raise IndexError.
Proof.
  unfold slot_subsets. destruct (py_index_cases choices k) as [[ds ->]| ->].
  - left. eexists. split; [done|]. done.
  - by right.
Qed.

Lemma slot_subsets_index_lists choices T V keys subsets :
  mapM (slot_subsets choices T V) keys = Done subsets ->
  index_lists subsets = (fun k => (indices_of k T, indices_of k V)) <$> keys.
Proof.
  intros H%mapM_Done. unfold index_lists.
  induction H as [|k s keys subsets Hk _ IH]; [done|].
  cbn [fmap list_fmap]. f_equal; [|exact IH].
  destruct (slot_subsets_cases choices T V k) as [(s' & Hs' & H1 & H2 & _)|Hr];
    [|congruence].
  rewrite Hk in Hs'. injection Hs' as <-. by rewrite H1, H2.
Qed.


End ReloadShape.

(** ** Claims about the reload of saved indices *)

(** C10. In reload mode, once both index files of the held-out domain are
    found and their lines parse, the subsets built are determined by the
    slot values in the two files: there is one pair of subsets for each
    slot value that occurs in either file, in the order of first
    occurrence, so a slot that occurs in neither file gets none, without
    any error; a slot that occurs in one file only gets an empty subset on
    the other side; a slot value that is at least the number of remaining
    domains makes the construction raise [IndexError]; and when every slot
    value that occurs is a valid position, the reload succeeds whatever the
    datasets are. *)
Theorem reload_follows_slot_values
  (all_dsets : list Split.dataset) (i : nat) (dir : string)
  (fs : gmap string string) (dset : Split.dataset) (f g : string)
  (T V : list (Z * Z)) :
  all_dsets !! i = Some dset ->
  fs !! Split.train_idx_path dir (Split.ds_domain dset) = Some f ->
  fs !! Split.val_idx_path dir (Split.ds_domain dset) = Some g ->
  mapM Split.parse_line (Text.file_lines f) = Done T ->
  mapM Split.parse_line (Text.file_lines g) = Done V ->
  exists choices,
    Split.dset_choices all_dsets i = Done choices /\
    length choices = length all_dsets - 1 /\
    let keys := Split.first_occurrences (T ++ V).*1 [] in
    NoDup keys /\
    (forall k, k ∈ keys <-> k ∈ T.*1 \/ k ∈ V.*1) /\
    Split.reload all_dsets i dir fs
    = mapM (Split.slot_subsets choices T V) keys /\
    (Forall (fun k => - Z.of_nat (length choices) <= k < Z.of_nat (length choices))%Z
            keys ->
     exists subsets,
       Split.reload all_dsets i dir fs = Done subsets /\
       length subsets = length keys /\
       Split.index_lists subsets
       = (fun k => (Split.indices_of k T, Split.indices_of k V)) <$> keys) /\
    (forall k, k ∉ T.*1 -> Split.indices_of k T = []) /\
    (forall k, k ∉ V.*1 -> Split.indices_of k V = []) /\
    (forall k, k ∈ keys -> (Z.of_nat (length choices) <= k)%Z ->
               Split.reload all_dsets i dir fs = Raise IndexError).
Proof.
  intros Hi Hf Hg HT HV.
  destruct (dset_choices_ok all_dsets i) as (choices & Hc & Hall).
  exists choices. split; [done|]. split.
  { apply Forall2_length in Hall. rewrite <- Hall. apply others_length.
    by eapply lookup_lt_Some. }
  pose proof (reload_parsed all_dsets i dir fs dset choices f g T V
                Hi Hc Hf Hg HT HV) as Hr.
  cbn zeta. split; [apply first_occurrences_NoDup|]. split.
  { intros k. rewrite elem_of_first_occurrences, fmap_app, elem_of_app, elem_of_nil.
    tauto. }
  split; [done|]. split; [|split; [|split]].
  - intros Hkeys. rewrite Hr.
    destruct (mapM_total (Split.slot_subsets choices T V)
                (Split.first_occurrences (T ++ V).*1 [])) as [subsets Hs].
    + eapply Forall_impl; [exact Hkeys|]. intros k Hk.
      unfold Split.slot_subsets. destruct (py_index_ok choices k Hk) as [ds ->].
      by eexists.
    + exists subsets. split; [done|].
      split; [by eapply mapM_length|by eapply slot_subsets_index_lists].
  - intros k. apply indices_of_absent.
  - intros k. apply indices_of_absent.
  - intros k Hk Hbig. rewrite Hr. apply mapM_raise.
    + apply Forall_forall. intros k' _.
      destruct (slot_subsets_cases choices T V k') as [(s & Hs & _)|Hs]; eauto.
    + apply Exists_exists. exists k. split; [done|].
      unfold Split.slot_subsets. rewrite py_index_out_of_range by lia. done.
Qed.

Lemma reload_follows_slot_values_witness :
  exists subsets,
    Split.reload [books; dvd; kitchen; music] 3 "idx" sparse_files = Done subsets /\
    Split.index_lists subsets = [([1], [4]); ([0], [])]%Z.
Proof.
  destruct (reload_follows_slot_values [books; dvd; kitchen; music] 3 "idx"
              sparse_files music sparse_train_file sparse_val_file
              [(0, 1); (2, 0)]%Z [(0, 4)]%Z)
    as (choices & _ & Hlen & _ & _ & _ & Hok & _).
  - reflexivity.
  - reflexivity.
  - reflexivity.
  - reflexivity.
  - reflexivity.
  - destruct Hok as (subsets & Hr & _ & Hidx).
    + rewrite Hlen. simpl. repeat constructor; lia.
    + exists subsets. split; [exact Hr|]. rewrite Hidx. reflexivity.
Defined.




(** ** The fresh split *)

Section FreshFacts.
Import Split.
Variable randperm : nat -> nat -> list nat.
Hypothesis randperm_perm : forall c n, randperm c n ≡ₚ seq 0 n.

Lemma int_of_Q_floor (n : nat) (p : Q) :
  (0 <= p)%Q ->
  int_of_Q (inject_Z (Z.of_nat n) * p) = Qfloor (inject_Z (Z.of_nat n) * p).
Proof.
  intros Hp. unfold int_of_Q, Qfloor.
  destruct p as [a b]. unfold Qle in Hp. simpl in *.
  apply Z.quot_div_nonneg; nia.
Qed.

Lemma floor_bounds (n : nat) (p : Q) :
  (0 <= p)%Q -> (p <= 1)%Q ->
  (0 <= Qfloor (inject_Z (Z.of_nat n) * p) <= Z.of_nat n)%Z.
Proof.
  intros H0 H1. unfold Qfloor. destruct p as [a b].
  unfold Qle in H0, H1. simpl in *.
  split.
  - apply Z.div_pos; nia.
  - apply Z.div_le_upper_bound; nia.
Qed.

Lemma py_slice_take {A} (l : list A) (t : Z) :
  (0 <= t <= Z.of_nat (length l))%Z ->
  py_slice l (t - t) t = take (Z.to_nat t) l.
Proof.
  intros Ht. unfold py_slice. rewrite Z.sub_diag.
  destruct (Z.ltb_spec 0 0); [lia|]. destruct (Z.ltb_spec t 0); [lia|].
  rewrite !Z.min_l by lia. by rewrite Z.sub_0_r.
Qed.

Lemma py_slice_drop {A} (l : list A) (t v : Z) :
  (0 <= t)%Z -> (t + v = Z.of_nat (length l))%Z -> (0 <= v)%Z ->
  py_slice l (t + v - v) (t + v) = drop (Z.to_nat t) l.
Proof.
  intros Ht Hv Hv0. unfold py_slice. replace (t + v - v)%Z with t by lia.
  destruct (Z.ltb_spec t 0); [lia|]. destruct (Z.ltb_spec (t + v) 0); [lia|].
  rewrite !Z.min_l by lia. apply take_ge. rewrite length_drop. lia.
Qed.

Lemma train_sizes_lookup (all_dsets : list dataset) p j ds :
  all_dsets !! j = Some ds ->
  train_sizes all_dsets p !! j
  = Some (int_of_Q (inject_Z (Z.of_nat (ds_len ds)) * p)).
Proof. intros H. unfold train_sizes. by rewrite list_lookup_fmap, H. Qed.

Lemma val_sizes_ok (all_dsets : list dataset) p :
  exists vs,
    val_sizes all_dsets (train_sizes all_dsets p) = Done vs /\
    forall j ds, all_dsets !! j = Some ds ->
      vs !! j = Some (Z.of_nat (ds_len ds)
                      - int_of_Q (inject_Z (Z.of_nat (ds_len ds)) * p))%Z.
Proof.
  unfold val_sizes.
  set (f := fun j : nat =>
         dset ← get all_dsets j;
         t ← get (train_sizes all_dsets p) j;
         mret (Z.of_nat (ds_len dset) - t)%Z).
  assert (Hf : forall j ds, all_dsets !! j = Some ds ->
    f j = Done (Z.of_nat (ds_len ds)
                - int_of_Q (inject_Z (Z.of_nat (ds_len ds)) * p))%Z).
  { intros j ds Hj. unfold f, get.
    by rewrite Hj, (train_sizes_lookup _ p j ds Hj). }
  assert (Hlen : length (train_sizes all_dsets p) = length all_dsets)
    by (unfold train_sizes; by rewrite length_fmap).
  destruct (mapM_total f (seq 0 (length (train_sizes all_dsets p)))) as [vs Hvs].
  - apply Forall_forall. intros j Hj%elem_of_seq.
    destruct (lookup_lt_is_Some_2 all_dsets j) as [ds Hds]; [lia|].
    eexists. by apply Hf.
  - exists vs. split; [done|]. intros j ds Hj.
    apply mapM_Done in Hvs.
    assert (Hjs : seq 0 (length (train_sizes all_dsets p)) !! j = Some j).
    { apply lookup_seq. apply lookup_lt_Some in Hj. lia. }
    destruct (Forall2_lookup_l _ _ _ _ _ Hvs Hjs) as (v & Hv & Hfv).
    rewrite (Hf j ds Hj) in Hfv. by simplify_eq.
Qed.

Lemma random_split_ok c ds p :
  (0 <= p)%Q -> (p <= 1)%Q ->
  random_split randperm c ds
    (int_of_Q (inject_Z (Z.of_nat (ds_len ds)) * p))
    (Z.of_nat (ds_len ds) - int_of_Q (inject_Z (Z.of_nat (ds_len ds)) * p))
  = Done (fresh_pair randperm p c ds).
Proof.
  intros H0 H1. unfold random_split, fresh_pair.
  rewrite int_of_Q_floor by done.
  pose proof (floor_bounds (ds_len ds) p H0 H1) as Hb.
  set (t := Qfloor _) in *.
  destruct (Z.eqb_spec (t + (Z.of_nat (ds_len ds) - t)) (Z.of_nat (ds_len ds)));
    [|lia].
  replace (Z.to_nat (t + (Z.of_nat (ds_len ds) - t))) with (ds_len ds) by lia.
  assert (Hl : length (Z.of_nat <$> randperm c (ds_len ds)) = ds_len ds).
  { by rewrite length_fmap, randperm_perm, length_seq. }
  rewrite py_slice_take by lia. rewrite py_slice_drop by lia. done.
Qed.

Lemma split_all_ok (all_dsets : list dataset) p vs js c :
  (0 <= p)%Q -> (p <= 1)%Q ->
  (forall j ds, all_dsets !! j = Some ds ->
     vs !! j = Some (Z.of_nat (ds_len ds)
                     - int_of_Q (inject_Z (Z.of_nat (ds_len ds)) * p))%Z) ->
  Forall (fun j => j < length all_dsets) js ->
  exists subsets,
    split_all randperm all_dsets (train_sizes all_dsets p) vs js c = Done subsets /\
    length subsets = length js /\
    forall k j ds, js !! k = Some j -> all_dsets !! j = Some ds ->
      subsets !! k = Some (fresh_pair randperm p (c + k) ds).
Proof.
  intros H0 H1 Hvs Hjs. revert c.
  induction Hjs as [|j js Hj _ IH]; intros c.
  - exists []. split; [done|]. split; [done|]. intros k j ds Hk. done.
  - destruct (lookup_lt_is_Some_2 all_dsets j Hj) as [ds Hds].
    destruct (IH (S c)) as (rest & Hrest & Hlen & Hlook).
    exists (fresh_pair randperm p c ds :: rest).
    cbn [split_all]. unfold get at 1 2 3.
    rewrite Hds, (train_sizes_lookup _ p j ds Hds), (Hvs j ds Hds).
    cbn [mbind outcome_bind]. rewrite random_split_ok by done.
    cbn [mbind outcome_bind]. rewrite Hrest. split; [done|].
    split; [simpl; by rewrite Hlen|].
    intros [|k] j' ds' Hk Hds'; simplify_eq/=.
    + by rewrite Nat.add_0_r.
    + rewrite (Hlook k j' ds' Hk Hds'). do 2 f_equal. lia.
Qed.

(** Lines 222-223 and 246-255 succeed and give, for each remaining
    domain in order, the pair cut from its permutation. *)
Lemma fresh_split_ok (all_dsets : list dataset) p i c dir fs dset :
  (0 <= p)%Q -> (p <= 1)%Q -> all_dsets !! i = Some dset ->
  exists subsets,
    fresh_split randperm all_dsets p i c dir fs
    = Done (subsets, save_indices dir (ds_domain dset) subsets fs) /\
    length subsets = length all_dsets - 1 /\
    forall k j ds, others i (length all_dsets) !! k = Some j ->
      all_dsets !! j = Some ds ->
      subsets !! k = Some (fresh_pair randperm p (c + k) ds).
Proof.
  intros H0 H1 Hi. unfold fresh_split.
  destruct (val_sizes_ok all_dsets p) as (vs & -> & Hvs).
  cbn [mbind outcome_bind]. unfold get. rewrite Hi. cbn [mbind outcome_bind].
  destruct (split_all_ok all_dsets p vs (others i (length all_dsets)) c H0 H1 Hvs)
    as (subsets & -> & Hlen & Hlook).
  { apply Forall_forall. intros j Hj. by apply others_lt in Hj as [? _]. }
  exists subsets. split; [done|]. split; [|done].
  rewrite Hlen. apply others_length. by eapply lookup_lt_Some.
Qed.


End FreshFacts.

(** ** Saving then reloading *)

Section RoundTripFacts.
Import Split.

Lemma append_inj_l (a b c : string) : (a ++ b = a ++ c)%string -> b = c.
Proof.
  induction a as [|x a IH]; [done|].
  change (String x (a ++ b) = String x (a ++ c) -> b = c)%string.
  intros [= H]. by apply IH.
Qed.

Lemma idx_paths_differ dir domain :
  train_idx_path dir domain <> val_idx_path dir domain.
Proof. unfold train_idx_path, val_idx_path. intros H%append_inj_l. done. Qed.

Lemma save_indices_train dir domain subsets (fs : gmap string string) :
  save_indices dir domain subsets fs !! train_idx_path dir domain
  = Some (index_text true 0 subsets).
Proof.
  unfold save_indices.
  rewrite lookup_insert_ne by (apply not_eq_sym, idx_paths_differ).
  apply lookup_insert_eq.
Qed.

Lemma save_indices_val dir domain subsets (fs : gmap string string) :
  save_indices dir domain subsets fs !! val_idx_path dir domain
  = Some (index_text false 0 subsets).
Proof. unfold save_indices. apply lookup_insert_eq. Qed.

Lemma indices_of_app k a b :
  indices_of k (a ++ b) = indices_of k a ++ indices_of k b.
Proof. unfold indices_of. by rewrite filter_app, fmap_app. Qed.

Lemma indices_of_slot (k j : Z) (idxs : list Z) :
  indices_of k ((fun idx => (j, idx)) <$> idxs)
  = if decide (j = k) then idxs else [].
Proof.
  induction idxs as [|x idxs IH]; [by destruct (decide _)|].
  cbn [fmap list_fmap]. rewrite indices_of_cons.
  fold (@fmap list _ _ _ (fun idx => (j, idx)) idxs). rewrite IH.
  by destruct (decide (j = k)).
Qed.

Lemma indices_of_below train j0 subsets (k : Z) :
  (k < Z.of_nat j0)%Z -> indices_of k (index_pairs train j0 subsets) = [].
Proof.
  revert j0; induction subsets as [|s rest IH]; intros j0 Hk; [done|].
  cbn [index_pairs]. rewrite indices_of_app, indices_of_slot, IH by lia.
  rewrite decide_False by lia. done.
Qed.

Lemma indices_of_index_pairs train j0 subsets k s :
  subsets !! k = Some s ->
  indices_of (Z.of_nat (j0 + k)) (index_pairs train j0 subsets) = side train s.
Proof.
  revert j0 k; induction subsets as [|s0 rest IH]; intros j0 k Hk; [done|].
  cbn [index_pairs]. rewrite indices_of_app, indices_of_slot.
  destruct k as [|k]; simplify_eq/=.
  - rewrite Nat.add_0_r, decide_True by done.
    rewrite indices_of_below by lia. by rewrite app_nil_r.
  - rewrite decide_False by lia.
    replace (j0 + S k) with (S j0 + k) by lia. by apply IH.
Qed.

Lemma elem_of_index_pairs_keys train j0 subsets (z : Z) :
  z ∈ (index_pairs train j0 subsets).*1 <->
  exists k s, subsets !! k = Some s /\ z = Z.of_nat (j0 + k) /\ side train s <> [].
Proof.
  revert j0; induction subsets as [|s0 rest IH]; intros j0.
  - cbn [index_pairs fmap list_fmap]. rewrite elem_of_nil.
    split; [done|]. intros (k & s & Hk & _). done.
  - cbn [index_pairs]. rewrite fmap_app, elem_of_app, IH, <- list_fmap_compose.
    split.
    + intros [Hz|(k & s & Hk & -> & Hne)].
      * apply list_elem_of_fmap in Hz as (x & -> & Hx). exists 0, s0.
        split; [done|]. split; [simpl; f_equal; lia|].
        unfold side. intros E. rewrite E in Hx. by apply elem_of_nil in Hx.
      * exists (S k), s. split; [done|]. split; [f_equal; lia|done].
    + intros ([|k] & s & Hk & -> & Hne); simplify_eq/=.
      * left. unfold side in Hne.
        destruct (ss_indices (if train then s.1 else s.2)) as [|x xs]; [done|].
        rewrite Nat.add_0_r. apply elem_of_cons. by left.
      * right. exists k, s. split; [done|]. split; [f_equal; lia|done].
Qed.

Lemma first_occurrences_seen ks seen :
  (forall x, x ∈ ks -> x ∈ seen) -> first_occurrences ks seen = [].
Proof.
  induction ks as [|k ks IH]; intros H; [done|]. cbn [first_occurrences].
  rewrite bool_decide_eq_true_2 by (apply H, elem_of_cons; by left).
  apply IH. intros x Hx. apply H, elem_of_cons. by right.
Qed.

Lemma first_occurrences_train j0 subsets seen :
  Forall (fun s => side true s <> []) subsets ->
  (forall z, z ∈ seen -> (z < Z.of_nat j0)%Z) ->
  first_occurrences (index_pairs true j0 subsets).*1 seen
  = Z.of_nat <$> seq j0 (length subsets).
Proof.
  intros Hne. revert j0 seen.
  induction Hne as [|s rest Hs _ IH]; intros j0 seen Hseen; [done|].
  cbn [index_pairs length seq fmap list_fmap].
  unfold side in Hs. cbn [fst] in Hs.
  destruct (ss_indices s.1) as [|x xs]; [done|].
  rewrite fmap_app. cbn [fmap list_fmap fst app first_occurrences].
  rewrite bool_decide_eq_false_2.
  2:{ intros Hin%Hseen. lia. }
  f_equal. rewrite first_occurrences_app, first_occurrences_seen.
  2:{ intros z Hz. apply list_elem_of_fmap in Hz as ([z' y] & -> & Hy).
      apply list_elem_of_fmap in Hy as (? & [= -> ->] & _).
      apply elem_of_cons. by left. }
  cbn [app]. apply IH. intros z.
  rewrite elem_of_cons, elem_of_app. intros [->|[Hz%Hseen|Hz]]; [lia|lia|].
  apply list_elem_of_fmap in Hz as ([z' y] & -> & Hy).
  apply list_elem_of_fmap in Hy as (? & [= -> ->] & _). simpl. lia.
Qed.

Lemma fmap_lookup_total_seq {A} `{Inhabited A} (l : list A) :
  (fun k => l !!! k) <$> seq 0 (length l) = l.
Proof.
  apply list_eq. intros k. rewrite list_lookup_fmap.
  destruct (decide (k < length l)) as [Hk|Hk].
  - rewrite lookup_seq_lt by done. simpl.
    destruct (lookup_lt_is_Some_2 l k Hk) as [x Hx].
    by rewrite (list_lookup_total_correct _ _ _ Hx), Hx.
  - rewrite lookup_seq_ge by lia. rewrite lookup_ge_None_2 by lia. done.
Qed.

Lemma filter_fmap {A C} (P : C -> Prop) `{forall x, Decision (P x)}
      (h : A -> C) (l : list A) :
  filter P (h <$> l) = h <$> filter (fun x => P (h x)) l.
Proof.
  induction l as [|x l IH]; [done|].
  cbn [fmap list_fmap]. rewrite !filter_cons.
  fold (@fmap list _ _ _ h l). rewrite IH.
  by destruct (decide (P (h x))).
Qed.

(** Reading back what lines 249-255 wrote: one pair of subsets for each
    slot that holds an index, the one that was saved. *)
Lemma reload_saved (all_dsets : list dataset) i dir (fs : gmap string string)
      dset choices subsets :
  all_dsets !! i = Some dset ->
  dset_choices all_dsets i = Done choices ->
  (forall k s, subsets !! k = Some s ->
     choices !! k = Some (ss_dataset s.1) /\ ss_dataset s.2 = ss_dataset s.1) ->
  let K := first_occurrences
             (index_pairs true 0 subsets ++ index_pairs false 0 subsets).*1 [] in
  reload all_dsets i dir (save_indices dir (ds_domain dset) subsets fs)
  = Done ((fun z => subsets !!! Z.to_nat z) <$> K) /\
  NoDup K /\
  (forall z, z ∈ K <->
     exists k s, subsets !! k = Some s /\ z = Z.of_nat k /\ ~ both_empty s).
Proof.
  intros Hi Hc Hds K.
  assert (HK : forall z, z ∈ K <->
     exists k s, subsets !! k = Some s /\ z = Z.of_nat k /\ ~ both_empty s).
  { intros z. unfold K.
    rewrite elem_of_first_occurrences, fmap_app, elem_of_app,
      !elem_of_index_pairs_keys, elem_of_nil.
    unfold both_empty, side. split.
    - intros [[(k & s & Hk & -> & Hne)|(k & s & Hk & -> & Hne)] _];
        exists k, s; (split; [done|]); (split; [done|]); tauto.
    - intros (k & s & Hk & -> & Hne). split; [|tauto].
      destruct (decide (ss_indices s.1 = [])) as [E1|E1].
      + right. exists k, s. split; [done|]. split; [done|]. tauto.
      + left. exists k, s. done. }
  split; [|split; [apply first_occurrences_NoDup|done]].
  rewrite (reload_parsed all_dsets i dir _ dset choices
             (index_text true 0 subsets) (index_text false 0 subsets)
             (index_pairs true 0 subsets) (index_pairs false 0 subsets)
             Hi Hc (save_indices_train _ _ _ _) (save_indices_val _ _ _ _)).
  2,3: rewrite file_lines_index_text; apply mapM_parse_bodies.
  fold K. apply mapM_Done. apply Forall2_fmap_r, Forall_Forall2_diag, Forall_forall.
  intros z (k & s & Hk & -> & _)%HK. unfold compose. cbv beta.
  rewrite Nat2Z.id, (list_lookup_total_correct _ _ _ Hk).
  unfold slot_subsets. rewrite py_index_nat.
  destruct (Hds k s Hk) as [Hch Hsame]. unfold get. rewrite Hch.
  cbn [mbind outcome_bind].
  pose proof (indices_of_index_pairs true 0 subsets k s Hk) as E1.
  pose proof (indices_of_index_pairs false 0 subsets k s Hk) as E2.
  rewrite Nat.add_0_l in E1, E2. rewrite E1, E2.
  unfold side. destruct s as [[d1 x1] [d2 x2]]. simpl in *. by subst.
Qed.

Lemma reload_saved_permutation subsets K :
  NoDup K ->
  (forall z, z ∈ K <->
     exists k s, subsets !! k = Some s /\ z = Z.of_nat k /\ ~ both_empty s) ->
  (fun z => subsets !!! Z.to_nat z) <$> K
  ≡ₚ filter (fun s => ~ both_empty s) subsets.
Proof.
  intros Hnd HK.
  replace (filter (fun s => ~ both_empty s) subsets)
    with (filter (fun s => ~ both_empty s)
            ((fun k => subsets !!! k) <$> seq 0 (length subsets)))
    by (by rewrite fmap_lookup_total_seq).
  rewrite filter_fmap.
  change ((fun z => subsets !!! Z.to_nat z) <$> K)
    with (((fun k => subsets !!! k) ∘ Z.to_nat) <$> K).
  rewrite (list_fmap_compose Z.to_nat (fun k => subsets !!! k)).
  apply fmap_Permutation. apply NoDup_Permutation.
  - apply NoDup_fmap_2_strong; [|done].
    intros z1 z2 (k1 & _ & _ & -> & _)%HK (k2 & _ & _ & -> & _)%HK. lia.
  - apply NoDup_filter, NoDup_seq.
  - intros k. rewrite list_elem_of_fmap, list_elem_of_filter, elem_of_seq. split.
    + intros (z & -> & (k' & s & Hk & -> & Hne)%HK).
      rewrite Nat2Z.id, (list_lookup_total_correct _ _ _ Hk).
      split; [done|]. apply lookup_lt_Some in Hk. lia.
    + intros [Hne Hk].
      destruct (lookup_lt_is_Some_2 subsets k) as [s Hs]; [lia|].
      rewrite (list_lookup_total_correct _ _ _ Hs) in Hne.
      exists (Z.of_nat k). split; [lia|]. apply HK. by exists k, s.
Qed.

Lemma reload_saved_exact subsets :
  Forall (fun s => ss_indices s.1 <> []) subsets ->
  (fun z => subsets !!! Z.to_nat z)
    <$> first_occurrences
          (index_pairs true 0 subsets ++ index_pairs false 0 subsets).*1 []
  = subsets.
Proof.
  intros Hne.
  rewrite fmap_app, first_occurrences_app.
  rewrite (first_occurrences_train 0 subsets []);
    [|done|by intros z Hz%elem_of_nil].
  rewrite first_occurrences_seen.
  2:{ intros z (k & s & Hk & -> & _)%elem_of_index_pairs_keys.
      cbn [app]. apply elem_of_index_pairs_keys. exists k, s.
      split; [done|]. split; [done|].
      by apply (Forall_lookup_1 _ _ _ _ Hne Hk). }
  rewrite app_nil_r, <- list_fmap_compose.
  transitivity ((fun k => subsets !!! k) <$> seq 0 (length subsets));
    [|apply fmap_lookup_total_seq].
  apply list_fmap_ext. intros _ k _. simpl. by rewrite Nat2Z.id.
Qed.

End RoundTripFacts.

(** ** Claims about the fresh split and its reload *)



(** C8. Saving the fresh split of a fold and reloading it from the same
    directory succeeds and gives back the pairs of subsets that were saved,
    each with its dataset and the same index lists in the same order: all
    the pairs that hold an index, up to the order of the pairs; and exactly
    the list that was saved when no train subset is empty. *)
Theorem split_round_trip
  (randperm : nat -> nat -> list nat) (all_dsets : list Split.dataset)
  (train_pct : Q) (i c : nat) (dir : string) (fs : gmap string string)
  (dset : Split.dataset) :
  (forall c n, randperm c n ≡ₚ seq 0 n) ->
  (0 <= train_pct)%Q -> (train_pct <= 1)%Q ->
  all_dsets !! i = Some dset ->
  exists subsets fs' subsets',
    Split.fresh_split randperm all_dsets train_pct i c dir fs = Done (subsets, fs') /\
    Split.reload all_dsets i dir fs' = Done subsets' /\
    subsets' ≡ₚ filter (fun s => ~ Split.both_empty s) subsets /\
    (Forall (fun s => Split.ss_indices s.1 <> []) subsets -> subsets' = subsets).
Proof.
  intros Hperm H0 H1 Hi.
  destruct (fresh_split_ok randperm Hperm all_dsets train_pct i c dir fs dset
              H0 H1 Hi) as (subsets & Hrun & Hlen & Hlook).
  destruct (dset_choices_ok all_dsets i) as (choices & Hc & Hall).
  assert (Hds : forall k s, subsets !! k = Some s ->
    choices !! k = Some (Split.ss_dataset s.1) /\
    Split.ss_dataset s.2 = Split.ss_dataset s.1).
  { intros k s Hk.
    assert (Hko : k < length (Split.others i (length all_dsets))).
    { rewrite others_length by (by eapply lookup_lt_Some).
      apply lookup_lt_Some in Hk. lia. }
    destruct (lookup_lt_is_Some_2 _ _ Hko) as [j Hj].
    destruct (Forall2_lookup_l _ _ _ _ _ Hall Hj) as (ds & Hch & Hdsj).
    rewrite (Hlook k j ds Hj Hdsj) in Hk. injection Hk as <-. by split. }
  destruct (reload_saved all_dsets i dir fs dset choices subsets Hi Hc Hds)
    as (Hreload & Hnd & HK).
  eexists subsets, _, _. split; [exact Hrun|]. split; [exact Hreload|]. split.
  - by apply reload_saved_permutation.
  - apply reload_saved_exact.
Qed.

Lemma split_round_trip_witness :
  exists subsets fs',
    Split.fresh_split descending [books; dvd; kitchen] 0.8 2 0 "out/run1" ∅
    = Done (subsets, fs') /\
    Split.reload [books; dvd; kitchen] 2 "out/run1" fs' = Done subsets.
Proof.
  destruct (split_round_trip descending [books; dvd; kitchen] 0.8 2 0
              "out/run1" ∅ kitchen)
    as (subsets & fs' & subsets' & Hrun & Hreload & _ & Hexact).
  - intros c n. unfold descending. symmetry. apply Permutation_rev.
  - unfold Qle. simpl. lia.
  - unfold Qle. simpl. lia.
  - reflexivity.
  - exists subsets, fs'. split; [exact Hrun|].
    rewrite Hreload. f_equal. apply Hexact.
    vm_compute in Hrun. injection Hrun as <- _.
    repeat constructor; discriminate.
Defined.

(** ** Aggregation *)

Section AggregateFacts.
Import Main.

Lemma correct_app (l1 l2 : list (list Q)) (b1 b2 : list nat) :
  length l1 = length b1 ->
  correct (l1 ++ l2) (b1 ++ b2) = correct l1 b1 + correct l2 b2.
Proof.
  intros Hlen. unfold correct.
  rewrite zip_with_app by done. by rewrite filter_app, length_app.
Qed.

(** Over the pooled lists, the correct predictions and the examples of
    the folds add up. *)
Lemma correct_concat (folds : list fold_result) :
  Forall (fun f => length (fr_logits f) = length (fr_labels f)) folds ->
  correct (concat (fr_logits <$> folds)) (concat (fr_labels <$> folds))
  = sum_list_with (fun f => correct (fr_logits f) (fr_labels f)) folds
  /\ length (concat (fr_logits <$> folds))
     = length (concat (fr_labels <$> folds))
  /\ length (concat (fr_labels <$> folds))
     = sum_list_with (fun f => length (fr_labels f)) folds.
Proof.
  induction 1 as [|f folds Hf _ (IH1 & IH2 & IH3)]; [done|].
  cbn [fmap list_fmap concat sum_list_with].
  rewrite correct_app, !length_app, IH1, IH2, IH3, Hf by done. done.
Qed.

Lemma mean_nonempty (xs : list Q) :
  xs <> [] ->
  mean xs = Done (foldl Qplus 0 xs / inject_Z (Z.of_nat (length xs)))%Q.
Proof. by destruct xs. Qed.

(** An accuracy of [a] over [n > 0] examples means [a * n] of them are
    classified correctly. *)
Lemma accuracy_correct (logits : list (list Q)) (labels : list nat) (a : Q) :
  0 < length labels ->
  (accuracy logits labels == a)%Q ->
  (inject_Z (Z.of_nat (correct logits labels))
   == a * inject_Z (Z.of_nat (length labels)))%Q.
Proof.
  intros Hn Ha. unfold accuracy in Ha. rewrite <- Ha.
  field. intros H. unfold Qeq in H. simpl in H. lia.
Qed.

End AggregateFacts.

(** ** Claim about the aggregation *)

(** C4. After the folds, the micro metrics are those [acc_f1] computes, in
    one call, on the concatenation of the logits and of the labels of all
    the folds, so that the micro accuracy is the number of correct
    predictions of all the folds over the number of all the examples; the
    macro metrics are the sum of the per-fold accuracy (precision, recall,
    F1) over the number of folds. For two folds of 10 and 90 examples with
    accuracies 0.8 and 0.6, the macro accuracy is 0.7 and the micro
    accuracy 0.62. *)
Theorem micro_pooled_macro_mean
  (prf : list (list Q) -> list nat -> Q * Q * Q) (folds : list Main.fold_result) :
  folds <> [] ->
  Forall (fun f => length (Main.fr_logits f) = length (Main.fr_labels f)) folds ->
  exists s,
    Main.aggregate prf folds = Done s /\
    (Main.micro_acc s, Main.micro_P s, Main.micro_R s, Main.micro_F1 s)
    = Main.acc_f1 prf (concat (Main.fr_logits <$> folds))
                      (concat (Main.fr_labels <$> folds)) /\
    Main.micro_acc s
    = (inject_Z (Z.of_nat (sum_list_with
         (fun f => Main.correct (Main.fr_logits f) (Main.fr_labels f)) folds))
       / inject_Z (Z.of_nat (sum_list_with
           (fun f => length (Main.fr_labels f)) folds)))%Q /\
    Main.macro_acc s
    = (foldl Qplus 0 (Main.fr_acc <$> folds) / inject_Z (Z.of_nat (length folds)))%Q /\
    Main.macro_P s
    = (foldl Qplus 0 (Main.fr_P <$> folds) / inject_Z (Z.of_nat (length folds)))%Q /\
    Main.macro_R s
    = (foldl Qplus 0 (Main.fr_R <$> folds) / inject_Z (Z.of_nat (length folds)))%Q /\
    Main.macro_F1 s
    = (foldl Qplus 0 (Main.fr_F1 <$> folds) / inject_Z (Z.of_nat (length folds)))%Q /\
    (forall f1 f2,
       folds = [f1; f2] ->
       length (Main.fr_labels f1) = 10 -> length (Main.fr_labels f2) = 90 ->
       (Main.fr_acc f1 == 0.8)%Q ->
       (Main.accuracy (Main.fr_logits f1) (Main.fr_labels f1) == 0.8)%Q ->
       (Main.fr_acc f2 == 0.6)%Q ->
       (Main.accuracy (Main.fr_logits f2) (Main.fr_labels f2) == 0.6)%Q ->
       (Main.macro_acc s == 0.7)%Q /\ (Main.micro_acc s == 0.62)%Q).
Proof.
  intros Hne Hlen. unfold Main.aggregate, Main.acc_f1.
  destruct (prf _ _) as [[P R] F1] eqn:Hprf.
  assert (Hm : forall h : Main.fold_result -> Q,
    Main.mean (h <$> folds)
    = Done (foldl Qplus 0 (h <$> folds) / inject_Z (Z.of_nat (length folds)))%Q).
  { intros h. rewrite mean_nonempty by (by destruct folds).
    by rewrite length_fmap. }
  rewrite !Hm. cbn [mbind outcome_bind mret outcome_ret].
  destruct (correct_concat folds Hlen) as (Hc & _ & Hn).
  eexists. split; [reflexivity|]. cbn [Main.micro_acc Main.micro_P Main.micro_R
    Main.micro_F1 Main.macro_acc Main.macro_P Main.macro_R Main.macro_F1].
  split; [done|]. split; [unfold Main.accuracy; by rewrite Hc, Hn|].
  do 4 (split; [done|]).
  intros f1 f2 -> Hn1 Hn2 Ha1 Hacc1 Ha2 Hacc2. split.
  - cbn [fmap list_fmap foldl length]. rewrite Ha1, Ha2. reflexivity.
  - unfold Main.accuracy at 1. rewrite Hc, Hn. cbn [sum_list_with].
    apply accuracy_correct in Hacc1; [|lia]. apply accuracy_correct in Hacc2; [|lia].
    rewrite Hn1 in *. rewrite Hn2 in *.
    unfold Qeq in Hacc1, Hacc2. simpl in Hacc1, Hacc2.
    assert (E1 : Main.correct (Main.fr_logits f1) (Main.fr_labels f1) = 8) by lia.
    assert (E2 : Main.correct (Main.fr_logits f2) (Main.fr_labels f2) = 54) by lia.
    rewrite E1, E2. reflexivity.
Qed.

Lemma micro_pooled_macro_mean_witness :
  exists s,
    Main.aggregate (fun _ _ => (0, 0, 0)%Q)
      [sample_fold 8 10 0.8; sample_fold 54 90 0.6] = Done s /\
    (Main.macro_acc s == 0.7)%Q /\ (Main.micro_acc s == 0.62)%Q.
Proof.
  destruct (micro_pooled_macro_mean (fun _ _ => (0, 0, 0)%Q)
              [sample_fold 8 10 0.8; sample_fold 54 90 0.6])
    as (s & Hrun & _ & _ & _ & _ & _ & _ & Hex).
  - discriminate.
  - repeat constructor.
  - exists s. split; [exact Hrun|].
    apply (Hex (sample_fold 8 10 0.8) (sample_fold 54 90 0.6));
      reflexivity.
Defined.

(** ** Two boundary cases *)

(** With an accumulation factor of 0 a visit pulls nothing and raises no
    [StopIteration]: no loader is ever marked finished and the loop of
    lines 66-103 does not end, whatever the fuel. This is why the
    statements about the scheduler ask for a factor of at least 1. *)
Lemma zero_accumulation_never_ends {B : Type} (L : Z) (sched : bool) (b : B)
      (fuel r : nat) :
  Scheduler.run_epoch (fun _ l => l) 0 L sched fuel [[b]] r = OutOfFuel.
Proof.
  assert (H : forall fuel r i,
    Scheduler.passes (fun _ l => l) 0 L sched fuel
      (Scheduler.State [[b]] [0] [0] i r) = OutOfFuel).
  { clear fuel r. induction fuel as [|fuel IH]; intros r i; [done|].
    cbn [Scheduler.passes Scheduler.finished Scheduler.dl_iters Scheduler.dl_idx
         Scheduler.rng Scheduler.i_ctr].
    change (sum_list [0] <? length [[b]]) with true. cbv iota.
    cbn [Scheduler.for_domains]. unfold Scheduler.visit. simpl.
    by rewrite IH. }
  apply H.
Qed.

(** When a train subset is empty the reloaded pairs come in another order
    than the saved ones: the slot is first met in the validation file. *)
Lemma reload_reorders_after_empty_train_subset :
  exists subsets fs subsets',
    Split.fresh_split descending [Split.Dataset "toys" 1; dvd; kitchen] 0.8 2 0
      "out/run1" ∅ = Done (subsets, fs) /\
    Split.reload [Split.Dataset "toys" 1; dvd; kitchen] 2 "out/run1" fs
    = Done subsets' /\
    Split.index_lists subsets = [([], [0]); ([2; 1], [0])]%Z /\
    Split.index_lists subsets' = [([2; 1], [0]); ([], [0])]%Z.
Proof.
  eexists _, _, _. split; [vm_compute; reflexivity|].
  split; [vm_compute; reflexivity|]. split; reflexivity.
Qed.

(** ** The scheduler outside its working range *)

Section SchedulerEdges.
Context {B : Type}.
Variable shuffle : nat -> list nat -> list nat.
Variable L : Z.
Variable sched : bool.
Hypothesis shuffle_perm : forall c l, shuffle c l ≡ₚ l.

(** With an accumulation factor below 1, [range(gradient_accumulation)] is
    empty: a visit pulls no batch, raises no [StopIteration] and leaves the
    state as it was. *)
Lemma visit_no_accumulation (g : Z) (d : nat) (st : Scheduler.state (B:=B)) :
  (g <= 0)%Z -> d < length (Scheduler.dl_iters st) ->
  exists e, Scheduler.visit g L sched d st = Done (e, st).
Proof.
  intros Hg Hd. destruct (lookup_lt_is_Some_2 _ _ Hd) as [it Hit].
  unfold Scheduler.visit. rewrite Hit.
  replace (Z.to_nat g) with 0 by lia. cbn [Scheduler.next_batches].
  cbn [andb Scheduler.run_batches mbind outcome_bind].
  rewrite list_insert_id by done. destruct st. by eexists.
Qed.

Lemma for_domains_no_accumulation (g : Z) (ds : list nat)
      (st : Scheduler.state (B:=B)) :
  (g <= 0)%Z -> Forall (fun d => d < length (Scheduler.dl_iters st)) ds ->
  exists e, Scheduler.for_domains g L sched ds st = Done (e, st).
Proof.
  intros Hg. induction 1 as [|d ds Hd _ [e2 IH]]; [by eexists|].
  destruct (visit_no_accumulation g d st Hg Hd) as [e1 H1].
  cbn [Scheduler.for_domains]. rewrite H1. cbn [mbind outcome_bind].
  rewrite IH. by eexists.
Qed.

Lemma passes_no_accumulation (g : Z) (fuel : nat) (st : Scheduler.state (B:=B)) :
  (g <= 0)%Z ->
  Scheduler.dl_idx st ≡ₚ seq 0 (length (Scheduler.dl_iters st)) ->
  sum_list (Scheduler.finished st) < length (Scheduler.dl_iters st) ->
  Scheduler.passes shuffle g L sched fuel st = OutOfFuel.
Proof.
  intros Hg. revert st. induction fuel as [|fuel IH]; intros st Hidx Hfin; [done|].
  cbn [Scheduler.passes]. apply Nat.ltb_lt in Hfin as Hfin'. rewrite Hfin'.
  set (st1 := Scheduler.State _ _ _ _ _).
  destruct (for_domains_no_accumulation g (shuffle (Scheduler.rng st)
              (Scheduler.dl_idx st)) st1 Hg) as [e He].
  { apply Forall_forall. intros d Hd. subst st1; simpl.
    rewrite shuffle_perm, Hidx in Hd.
    apply elem_of_seq in Hd. lia. }
  rewrite He. cbn [mbind outcome_bind].
  rewrite IH; [done| |done].
  subst st1; simpl. by rewrite shuffle_perm.
Qed.

(** A visit of a loader that has a batch left fails at line 92 when
    [log_interval] is 0. *)
Lemma visit_zero_interval (g : Z) (d : nat) (st : Scheduler.state (B:=B))
      (it : list B) :
  L = 0%Z -> (1 <= g)%Z -> Scheduler.dl_iters st !! d = Some it -> it <> [] ->
  Scheduler.visit g L sched d st = Raise ZeroDivisionError.
Proof.
  intros HL Hg Hit Hne. unfold Scheduler.visit. rewrite Hit, next_batches_spec.
  destruct it as [|b it]; [done|].
  destruct (Z.to_nat g) as [|n] eqn:Hn; [lia|].
  cbn [take length Nat.eqb andb]. rewrite andb_false_r.
  by rewrite (run_batches_zero_interval g L d b _ _ HL).
Qed.

Lemma for_domains_zero_interval (g : Z) (ds : list nat)
      (st : Scheduler.state (B:=B)) :
  L = 0%Z -> (1 <= g)%Z ->
  Forall (fun d => d < length (Scheduler.dl_iters st)) ds ->
  Exists (fun d => exists it, Scheduler.dl_iters st !! d = Some it /\ it <> []) ds ->
  Scheduler.for_domains g L sched ds st = Raise ZeroDivisionError.
Proof.
  intros HL Hg. revert st. induction ds as [|d ds IH]; intros st Hds Hex.
  { by apply Exists_nil in Hex. }
  apply Forall_cons in Hds as [Hd Hds].
  destruct (lookup_lt_is_Some_2 _ _ Hd) as [it Hit].
  cbn [Scheduler.for_domains].
  destruct (decide (it = [])) as [->|Hne].
  - rewrite (visit_empty g L sched d st Hg Hit). cbn [mbind outcome_bind].
    rewrite IH; [done|done|].
    apply Exists_cons in Hex as [(it' & Hit' & Hne')|Hex]; [congruence|done].
  - by rewrite (visit_zero_interval g d st it HL Hg Hit Hne).
Qed.

End SchedulerEdges.

(** X1. With [gradient_accumulation] at 0 or below and at least one loader,
    the loop of lines 66-103 never ends: no visit pulls a batch or raises
    [StopIteration], so no loader is ever marked finished. The epoch, and
    with it a call of [train] that has an epoch to run, exhausts any fuel. *)
Theorem accumulation_below_one_never_ends
  {B : Type} (shuffle : nat -> list nat -> list nat) (evaluate : Z -> metrics)
  (dls : list (list B)) (n_epochs L patience g : Z) (sched : bool)
  (fuel r : nat) :
  (g <= 0)%Z -> dls <> [] -> (forall c l, shuffle c l ≡ₚ l) ->
  Scheduler.run_epoch shuffle g L sched fuel dls r = OutOfFuel /\
  ((0 < n_epochs)%Z ->
   Train.train shuffle evaluate dls n_epochs L patience g sched fuel r = OutOfFuel).
Proof.
  intros Hg Hne Hsh.
  assert (Hrun : forall fuel r,
    Scheduler.run_epoch shuffle g L sched fuel dls r = OutOfFuel).
  { intros fuel' r'. apply passes_no_accumulation; [done|done|done|].
    unfold Scheduler.start; simpl.
    assert (sum_list (replicate (length dls) 0) = 0) as ->
      by (generalize (length dls); intros m; induction m; simpl; done).
    destruct dls; [done|simpl; lia]. }
  split; [apply Hrun|]. intros Hn. unfold Train.train.
  destruct fuel as [|fuel]; [done|].
  cbn [Train.epochs Train.init Train.epoch_counter Train.rng].
  apply Z.ltb_lt in Hn. rewrite Hn, Hrun. done.
Qed.

Lemma accumulation_below_one_never_ends_witness :
  Scheduler.run_epoch (fun _ l => rev l) 0 1 true 50 [[1; 2]; [3]] 0 = OutOfFuel /\
  Train.train (fun _ l => rev l) example_accuracies [[1; 2]; [3]] 2 1 10 0 true 50 0
  = OutOfFuel.
Proof.
  destruct (accumulation_below_one_never_ends (fun _ l => rev l)
              example_accuracies [[1; 2]; [3]] 2 1 10 0 true 50 0) as [H1 H2].
  - lia.
  - done.
  - intros c l. symmetry. apply Permutation_rev.
  - split; [exact H1|]. apply H2. lia.
Defined.

(** X2. With [log_interval] at 0, an epoch in which some loader has a
    batch raises [ZeroDivisionError] at line 92, for the first batch that
    is run; so does a call of [train] that has an epoch to run. *)
Theorem zero_log_interval_raises
  {B : Type} (shuffle : nat -> list nat -> list nat) (evaluate : Z -> metrics)
  (dls : list (list B)) (n_epochs patience g : Z) (sched : bool)
  (fuel r : nat) :
  (1 <= g)%Z -> (forall c l, shuffle c l ≡ₚ l) ->
  Exists (fun dl => dl <> []) dls -> 0 < fuel ->
  Scheduler.run_epoch shuffle g 0 sched fuel dls r = Raise ZeroDivisionError /\
  ((0 < n_epochs)%Z ->
   Train.train shuffle evaluate dls n_epochs 0 patience g sched fuel r
   = Raise ZeroDivisionError).
Proof.
  intros Hg Hsh Hex Hfuel.
  assert (Hrun : forall r,
    Scheduler.run_epoch shuffle g 0 sched fuel dls r = Raise ZeroDivisionError).
  { intros r'. unfold Scheduler.run_epoch, Scheduler.start.
    destruct fuel as [|fuel']; [lia|]. cbn [Scheduler.passes].
    cbn [Scheduler.finished Scheduler.dl_iters Scheduler.dl_idx Scheduler.rng
         Scheduler.i_ctr].
    assert (sum_list (replicate (length dls) 0) = 0) as ->
      by (generalize (length dls); intros m; induction m; simpl; done).
    apply Exists_exists in Hex as (dl & Hin & Hdl).
    apply list_elem_of_lookup in Hin as [d Hd].
    assert (Hlen : 0 < length dls) by (apply lookup_lt_Some in Hd; lia).
    apply Nat.ltb_lt in Hlen as ->.
    rewrite for_domains_zero_interval; [done|done|done| |].
    - apply Forall_forall. intros d' Hd'. simpl.
      rewrite Hsh in Hd'. apply elem_of_seq in Hd'. lia.
    - apply Exists_exists. exists d. split.
      + rewrite Hsh. apply elem_of_seq. apply lookup_lt_Some in Hd. lia.
      + by exists dl. }
  split; [apply Hrun|]. intros Hn. unfold Train.train.
  destruct fuel as [|fuel']; [lia|].
  cbn [Train.epochs Train.init Train.epoch_counter Train.rng].
  apply Z.ltb_lt in Hn. rewrite Hn, Hrun. done.
Qed.

Lemma zero_log_interval_raises_witness :
  Scheduler.run_epoch (fun _ l => rev l) 2 0 true 50 [[]; [3]] 0
  = Raise ZeroDivisionError /\
  Train.train (fun _ l => rev l) example_accuracies [[]; [3]] 2 0 10 2 true 50 0
  = Raise ZeroDivisionError.
Proof.
  destruct (zero_log_interval_raises (fun _ l => rev l)
              example_accuracies [[]; [3]] 2 10 2 true 50 0) as [H1 H2].
  - lia.
  - intros c l. symmetry. apply Permutation_rev.
  - apply Exists_cons_tl, Exists_cons_hd. done.
  - lia.
  - split; [exact H1|]. apply H2. lia.
Defined.

(** ** Whole runs of [train] *)

Lemma stale_le (evaluate : Z -> metrics) (e : nat) : stale evaluate e <= e.
Proof. induction e as [|e IH]; simpl; [done|]. destruct (improves _ _); lia. Qed.

Lemma sum_list_lengths {B} (dls : list (list B)) :
  sum_list (length <$> dls) = sum_list_with length dls.
Proof. induction dls as [|dl dls IH]; [done|]. simpl. f_equal. exact IH. Qed.

Lemma ceil_div_le (m k : nat) : 1 <= k -> ceil_div m k <= m.
Proof.
  intros Hk. unfold ceil_div. destruct m as [|m]; [by rewrite Nat.div_small by lia|].
  apply Nat.Div0.div_le_upper_bound. nia.
Qed.

Lemma ceil_div_lt (m k : nat) : 2 <= k -> 2 <= m -> ceil_div m k < m.
Proof.
  intros Hk Hm. unfold ceil_div. apply Nat.Div0.div_lt_upper_bound. nia.
Qed.

Lemma ceil_div_1 (m : nat) : ceil_div m 1 = m.
Proof. unfold ceil_div. rewrite Nat.div_1_r. lia. Qed.

Section TrainRuns.
Context {B : Type}.
Variable shuffle : nat -> list nat -> list nat.
Variable evaluate : Z -> metrics.
Variable train_dls : list (list B).
Variable n_epochs : Z.
Variable L : Z.
Variable patience : Z.
Variable g : Z.
Variable sched : bool.
Variable fuel : nat.
Hypothesis g_pos : (1 <= g)%Z.
Hypothesis L_nonzero : L <> 0%Z.
Hypothesis shuffle_perm : forall c l, shuffle c l ≡ₚ l.
Hypothesis fuel_enough : sum_list_with length train_dls + length train_dls < fuel.

Abbreviation after_epoch := (Train.after_epoch (B:=B) evaluate patience).
Abbreviation epochs :=
  (Train.epochs shuffle evaluate train_dls n_epochs L patience g sched).
Abbreviation best := Train.best_acc.
Abbreviation pc := Train.patience_counter.
Abbreviation ec := Train.epoch_counter.
Abbreviation steps_per_epoch :=
  (sum_list_with (fun dl : list B => ceil_div (length dl) (Z.to_nat g)) train_dls).

(** One iteration of the main loop, with the optimizer steps of the
    scheduler's part. *)
Lemma epochs_unroll (k : nat) (st : Train.state) :
  (ec st < n_epochs)%Z ->
  exists e1 r',
    evaluated e1 = [] /\
    optimizer_steps e1 = steps_per_epoch /\
    scheduler_steps e1 = (if sched then steps_per_epoch else 0) /\
    (forall d, forwarded d e1 = default [] (train_dls !! d)) /\
    epochs (S k) fuel st
    = (let '(e2, st2, brk) :=
         after_epoch (Train.State (best st) (pc st) (ec st) r') in
       if brk then Done (e1 ++ e2, st2)
       else '(e3, st3) ← epochs k fuel st2; Done (e1 ++ e2 ++ e3, st3)).
Proof.
  intros He.
  destruct (run_epoch_spec shuffle g L sched fuel train_dls (Train.rng st)
              g_pos L_nonzero shuffle_perm fuel_enough)
    as (e1 & s1 & Hrun & Hs & Hdr & _).
  destruct (interleaving_quiet _ _ _ _ _ _ _ _ Hs) as (H1 & _ & _).
  pose proof (interleaving_steps _ _ _ _ _ _ _ _ g_pos Hs) as Hopt.
  rewrite (steps_left_drained g _ g_pos Hdr), Nat.add_0_r in Hopt.
  pose proof (interleaving_scheduler_steps _ _ _ _ _ _ _ _ Hs) as Hsch.
  exists e1, (Scheduler.rng s1). split; [done|]. split; [done|].
  split; [by rewrite Hsch, Hopt|]. split.
  { intros d. rewrite <- (interleaving_forwarded _ _ _ _ _ _ _ _ d Hs).
    destruct (Scheduler.dl_iters s1 !! d) as [it|] eqn:Hit;
      [|by rewrite app_nil_r].
    rewrite (Forall_lookup_1 _ _ _ _ Hdr Hit). by rewrite app_nil_r. }
  cbn [Train.epochs]. apply Z.ltb_lt in He. rewrite He, Hrun. done.
Qed.

(** The optimizer and scheduler steps of a run: those of one epoch, for
    every epoch that was evaluated. *)
Lemma epochs_counts (k : nat) (st : Train.state) :
  Z.to_nat (n_epochs - ec st) < k ->
  exists tr st',
    epochs k fuel st = Done (tr, st') /\
    optimizer_steps tr = length (evaluated tr) * steps_per_epoch /\
    scheduler_steps tr = (if sched then optimizer_steps tr else 0) /\
    (Z.of_nat (length (evaluated tr)) <= Z.max 0 (n_epochs - ec st))%Z /\
    (forall d, forwarded d tr
               = concat (replicate (length (evaluated tr))
                           (default [] (train_dls !! d)))).
Proof.
  revert st; induction k as [|k IH]; intros st Hk; [lia|].
  destruct (Z.lt_ge_cases (ec st) n_epochs) as [Hlt|Hge].
  - destruct (epochs_unroll k st Hlt) as (e1 & r' & Hq & Ho & Hs & Hfw & ->).
    unfold Train.after_epoch.
    cbn [Train.best_acc Train.patience_counter Train.epoch_counter Train.rng].
    destruct (Train.Qgtb _ _); [|destruct (_ =? _)%Z].
    + destruct (IH (Train.State (m_acc (evaluate (ec st))) 0 (ec st + 1) r'))
        as (e3 & st3 & -> & Ho3 & Hs3 & HN & Hf3); [simpl; lia|].
      cbn [mbind outcome_bind]. simpl in HN. eexists _, st3. split; [done|].
      rewrite !optimizer_steps_app, !scheduler_steps_app, !evaluated_app.
      rewrite Hq, Ho, Hs, Ho3, Hs3, !length_app.
      change (optimizer_steps [Evaluate _; SaveCheckpoint _; LogValidation _])
        with 0.
      change (scheduler_steps [Evaluate _; SaveCheckpoint _; LogValidation _])
        with 0.
      change (evaluated [Evaluate (ec st); SaveCheckpoint _; LogValidation _])
        with [ec st].
      simpl length.
      split; [|split; [|split]]; [lia|destruct sched; lia|lia|].
      intros d. rewrite !forwarded_app, Hfw, Hf3. done.
    + eexists _, _. split; [done|].
      rewrite !optimizer_steps_app, !scheduler_steps_app, !evaluated_app.
      rewrite Hq, Ho, Hs.
      change (optimizer_steps [Evaluate (B:=B) _]) with 0.
      change (scheduler_steps [Evaluate (B:=B) _]) with 0.
      change (evaluated [Evaluate (B:=B) (ec st)]) with [ec st].
      simpl length.
      split; [|split; [|split]]; [lia|destruct sched; lia|lia|].
      intros d. rewrite !forwarded_app, Hfw. cbn [replicate concat].
      done.
    + destruct (IH (Train.State (best st) (pc st + 1) (ec st + 1) r'))
        as (e3 & st3 & -> & Ho3 & Hs3 & HN & Hf3); [simpl; lia|].
      cbn [mbind outcome_bind]. simpl in HN. eexists _, st3. split; [done|].
      rewrite !optimizer_steps_app, !scheduler_steps_app, !evaluated_app.
      rewrite Hq, Ho, Hs, Ho3, Hs3, !length_app.
      change (optimizer_steps [Evaluate (B:=B) _]) with 0.
      change (scheduler_steps [Evaluate (B:=B) _]) with 0.
      change (evaluated [Evaluate (B:=B) (ec st)]) with [ec st].
      simpl length.
      split; [|split; [|split]]; [lia|destruct sched; lia|lia|].
      intros d. rewrite !forwarded_app, Hfw, Hf3. done.
  - rewrite epochs_done by done. exists [], st. repeat split; simpl; try done.
    + by destruct sched.
    + lia.
Qed.

(** The patience counter counts the epochs without improvement in a row,
    and the main loop stops at the first epoch that brings it to
    [patience], or else after [n_epochs] epochs. *)
Lemma epochs_stop (k : nat) (st : Train.state) :
  tracks_best evaluate st ->
  pc st = Z.of_nat (stale evaluate (Z.to_nat (ec st))) ->
  Z.to_nat (n_epochs - ec st) < k ->
  exists tr st' (N : nat),
    epochs k fuel st = Done (tr, st') /\
    evaluated tr = (fun j => ec st + Z.of_nat j)%Z <$> seq 0 N /\
    (Z.of_nat N <= Z.max 0 (n_epochs - ec st))%Z /\
    (forall j, S j < N ->
       loses_patience evaluate patience (Z.to_nat (ec st) + j) = false) /\
    (N = Z.to_nat (n_epochs - ec st) \/
     exists j, N = S j /\
       loses_patience evaluate patience (Z.to_nat (ec st) + j) = true) /\
    pc st' = Z.of_nat (stale evaluate (Z.to_nat (ec st) + N)).
Proof.
  revert st; induction k as [|k IH]; intros st Ht Hpc Hk; [lia|].
  destruct (Z.lt_ge_cases (ec st) n_epochs) as [Hlt|Hge].
  - destruct (epochs_iter shuffle evaluate train_dls n_epochs L patience g sched
                fuel g_pos L_nonzero shuffle_perm fuel_enough k st Hlt)
      as (e1 & r' & Hq1 & _ & _ & ->).
    pose proof (tracks_best_rng evaluate st r' Ht) as Ht'.
    pose proof Ht as [He0 _].
    assert (Hshift : forall N,
      (ec st)%Z :: ((fun j => ec st + 1 + Z.of_nat j)%Z <$> seq 0 N)
      = (fun j => ec st + Z.of_nat j)%Z <$> seq 0 (S N)).
    { intros N. cbn [seq fmap list_fmap]. rewrite Z.add_0_r. f_equal.
      rewrite <- fmap_S_seq, <- list_fmap_compose.
      apply list_fmap_ext. intros _ j _. simpl. lia. }
    assert (Hnext : Z.to_nat (ec st + 1) = S (Z.to_nat (ec st))) by lia.
    assert (Hcur : Z.of_nat (Z.to_nat (ec st)) = ec st) by lia.
    destruct (improves evaluate (ec st)) eqn:Hi.
    + destruct (after_epoch_improved (B:=B) evaluate patience
                  (Train.State (best st) (pc st) (ec st) r') Hi Ht') as [-> Ht2].
      destruct (IH _ Ht2) as (e3 & st3 & N & -> & Hev & HN & Hno & Hend & Hpc3).
      { cbn [Train.patience_counter Train.epoch_counter].
        rewrite Hnext. cbn [stale]. rewrite Hcur, Hi. done. }
      { simpl; lia. }
      cbn [mbind outcome_bind].
      cbn [Train.patience_counter Train.epoch_counter] in Hev, HN, Hno, Hend, Hpc3.
      rewrite Hnext in Hno, Hend, Hpc3.
      eexists _, st3, (S N). split; [done|].
      rewrite !evaluated_app, Hq1, Hev, <- Hshift.
      split; [done|]. split; [lia|]. split; [|split].
      * intros [|j] Hj.
        -- unfold loses_patience. rewrite Nat.add_0_r, Hcur, Hi. done.
        -- replace (Z.to_nat (ec st) + S j) with (S (Z.to_nat (ec st)) + j) by lia.
           apply Hno. lia.
      * destruct Hend as [->|(j & -> & Hj)]; [left; lia|].
        right. exists (S j). split; [done|].
        by replace (Z.to_nat (ec st) + S j) with (S (Z.to_nat (ec st)) + j) by lia.
      * by replace (Z.to_nat (ec st) + S N) with (S (Z.to_nat (ec st)) + N) by lia.
    + destruct (after_epoch_not_improved (B:=B) evaluate patience
                  (Train.State (best st) (pc st) (ec st) r') Hi Ht') as [-> Ht2].
      cbn [Train.best_acc Train.patience_counter Train.epoch_counter Train.rng]
        in Ht2 |- *.
      assert (Hst : (pc st + 1)%Z = Z.of_nat (stale evaluate (S (Z.to_nat (ec st))))).
      { cbn [stale]. rewrite Hcur, Hi. lia. }
      destruct (Z.eqb_spec (pc st + 1) patience) as [Hp|Hp].
      * eexists _, _, 1. split; [done|].
        rewrite !evaluated_app, Hq1. simpl. rewrite Z.add_0_r.
        split; [done|]. split; [lia|]. split; [intros j Hj; lia|]. split.
        -- right. exists 0. split; [done|]. unfold loses_patience.
           rewrite Nat.add_0_r, Hcur, Hi, <- Hst, Hp, Z.eqb_refl. done.
        -- rewrite Hst. f_equal. f_equal. lia.
      * destruct (IH _ Ht2) as (e3 & st3 & N & -> & Hev & HN & Hno & Hend & Hpc3).
        { cbn [Train.patience_counter Train.epoch_counter]. by rewrite Hnext. }
        { simpl; lia. }
        cbn [mbind outcome_bind].
        cbn [Train.patience_counter Train.epoch_counter] in Hev, HN, Hno, Hend, Hpc3.
        rewrite Hnext in Hno, Hend, Hpc3.
        eexists _, st3, (S N). split; [done|].
        rewrite !evaluated_app, Hq1, Hev, <- Hshift.
        split; [done|]. split; [lia|]. split; [|split].
        -- intros [|j] Hj.
           ++ unfold loses_patience. rewrite Nat.add_0_r, Hcur, Hi, <- Hst.
              simpl. by apply Z.eqb_neq.
           ++ replace (Z.to_nat (ec st) + S j) with (S (Z.to_nat (ec st)) + j) by lia.
              apply Hno. lia.
        -- destruct Hend as [->|(j & -> & Hj)]; [left; lia|].
           right. exists (S j). split; [done|].
           by replace (Z.to_nat (ec st) + S j) with (S (Z.to_nat (ec st)) + j) by lia.
        -- by replace (Z.to_nat (ec st) + S N) with (S (Z.to_nat (ec st)) + N) by lia.
  - rewrite epochs_done by done. exists [], st, 0.
    split; [done|]. split; [done|]. split; [lia|]. split; [intros j Hj; lia|].
    split; [left; lia|]. by rewrite Nat.add_0_r.
Qed.

End TrainRuns.

(** X3. [train] stops at the first epoch that is the [patience]-th in a
    row without improvement, and otherwise after [n_epochs] epochs: no
    epoch before the last evaluated one loses patience, the run either
    evaluated all its [n_epochs] epochs or its last epoch lost patience,
    and the patience counter ends as the number of epochs in a row without
    improvement. *)
Theorem early_stopping_point
  {B : Type} (shuffle : nat -> list nat -> list nat) (evaluate : Z -> metrics)
  (train_dls : list (list B)) (n_epochs L patience g : Z) (sched : bool)
  (fuel r : nat) :
  (1 <= g)%Z -> L <> 0%Z -> (forall c l, shuffle c l ≡ₚ l) ->
  sum_list_with length train_dls + length train_dls < fuel ->
  Z.to_nat n_epochs < fuel ->
  exists tr st (N : nat),
    Train.train shuffle evaluate train_dls n_epochs L patience g sched fuel r
    = Done (tr, st) /\
    evaluated tr = Z.of_nat <$> seq 0 N /\
    (Z.of_nat N <= Z.max 0 n_epochs)%Z /\
    (forall e, S e < N -> loses_patience evaluate patience e = false) /\
    (N = Z.to_nat n_epochs \/
     exists e, N = S e /\ loses_patience evaluate patience e = true) /\
    Train.patience_counter st = Z.of_nat (stale evaluate N).
Proof.
  intros Hg HL Hsh Hfuel Hn.
  destruct (epochs_stop shuffle evaluate train_dls n_epochs L patience g sched
              fuel Hg HL Hsh Hfuel fuel (Train.init r) (tracks_best_init evaluate r))
    as (tr & st & N & Hrun & Hev & HN & Hno & Hend & Hpc); [done|simpl; lia|].
  simpl in Hev, HN, Hno, Hend, Hpc. rewrite Z.sub_0_r in HN, Hend.
  exists tr, st, N. split; [exact Hrun|].
  split; [rewrite Hev; by apply list_fmap_ext|]. done.
Qed.

Lemma early_stopping_point_witness :
  exists tr st (N : nat),
    Train.train (fun _ l => rev l) example_accuracies [[1; 2; 3]; [4; 5]]
      10 1 2 2 true 20 0 = Done (tr, st) /\
    evaluated tr = Z.of_nat <$> seq 0 N /\
    Train.patience_counter st = Z.of_nat (stale example_accuracies N).
Proof.
  destruct (early_stopping_point (fun _ l => rev l) example_accuracies
              [[1; 2; 3]; [4; 5]] 10 1 2 2 true 20 0)
    as (tr & st & N & Hrun & Hev & _ & _ & _ & Hpc).
  - lia.
  - lia.
  - intros c l. symmetry. apply Permutation_rev.
  - simpl. lia.
  - simpl. lia.
  - exists tr, st, N. split; [exact Hrun|]. split; [exact Hev|exact Hpc].
Defined.

(** X4. A [patience] of 0 or less, or one of at least [n_epochs], never
    stops training early: every one of the [n_epochs] epochs is trained
    and evaluated. (The counter is compared with [patience] only after it
    was incremented, so it is at least 1 then.) *)
Theorem patience_out_of_range_never_stops
  {B : Type} (shuffle : nat -> list nat -> list nat) (evaluate : Z -> metrics)
  (train_dls : list (list B)) (n_epochs L patience g : Z) (sched : bool)
  (fuel r : nat) :
  (1 <= g)%Z -> L <> 0%Z -> (forall c l, shuffle c l ≡ₚ l) ->
  sum_list_with length train_dls + length train_dls < fuel ->
  Z.to_nat n_epochs < fuel ->
  (patience <= 0 \/ n_epochs <= patience)%Z ->
  exists tr st,
    Train.train shuffle evaluate train_dls n_epochs L patience g sched fuel r
    = Done (tr, st) /\
    evaluated tr = Z.of_nat <$> seq 0 (Z.to_nat n_epochs).
Proof.
  intros Hg HL Hsh Hfuel Hn Hp.
  destruct (epochs_stop shuffle evaluate train_dls n_epochs L patience g sched
              fuel Hg HL Hsh Hfuel fuel (Train.init r) (tracks_best_init evaluate r))
    as (tr & st & N & Hrun & Hev & HN & Hno & Hend & Hpc); [done|simpl; lia|].
  simpl in Hev, HN, Hno, Hend, Hpc. rewrite Z.sub_0_r in HN, Hend.
  exists tr, st. split; [exact Hrun|].
  assert (N = Z.to_nat n_epochs) as <-.
  { destruct Hend as [->|(e & -> & He)]; [done|].
    unfold loses_patience in He. apply andb_true_iff in He as [Hi He].
    apply Z.eqb_eq in He. pose proof (stale_le evaluate (S e)) as Hle.
    cbn [stale] in He, Hle. apply negb_true_iff in Hi. rewrite Hi in He, Hle.
    lia. }
  rewrite Hev. by apply list_fmap_ext.
Qed.

Lemma patience_out_of_range_never_stops_witness :
  exists tr st,
    Train.train (fun _ l => rev l) example_accuracies [[1; 2; 3]; [4; 5]]
      6 1 0 2 true 20 0 = Done (tr, st) /\
    evaluated tr = [0; 1; 2; 3; 4; 5]%Z.
Proof.
  destruct (patience_out_of_range_never_stops (fun _ l => rev l)
              example_accuracies [[1; 2; 3]; [4; 5]] 6 1 0 2 true 20 0)
    as (tr & st & Hrun & Hev).
  - lia.
  - lia.
  - intros c l. symmetry. apply Permutation_rev.
  - simpl. lia.
  - simpl. lia.
  - left. lia.
  - exists tr, st. split; [exact Hrun|]. exact Hev.
Defined.

(** An accuracy that is not above those of all the first [M] epochs is at
    most that of one of them. *)
Lemma not_above_all (evaluate : Z -> metrics) (x : Q) (M : nat) :
  forallb (fun e' => Train.Qgtb x (m_acc (evaluate (Z.of_nat e')))) (seq 0 M) = false ->
  exists e', e' < M /\ (x <= m_acc (evaluate (Z.of_nat e')))%Q.
Proof.
  induction M as [|M IH]; [done|].
  rewrite seq_S, forallb_app. cbn [forallb plus].
  rewrite andb_true_r. intros [Hi|Hi]%andb_false_iff.
  - destruct (IH Hi) as (e' & He' & Hle). exists e'. split; [lia|done].
  - exists M. split; [lia|]. by apply Qgtb_le.
Qed.

(** The last improving epoch among the first [N] has the largest
    validation accuracy of them. *)
Lemma last_improving_is_best (evaluate : Z -> metrics) (N : nat) (k : Z) :
  last (filter (fun e => improves evaluate e = true) (Z.of_nat <$> seq 0 N)) = Some k ->
  (0 <= k < Z.of_nat N)%Z /\ improves evaluate k = true /\
  forall e, (k < e < Z.of_nat N)%Z ->
            (m_acc (evaluate e) <= m_acc (evaluate k))%Q.
Proof.
  induction N as [|N IH]; [done|].
  rewrite seq_S, fmap_app, filter_app. cbn [fmap list_fmap plus].
  destruct (improves evaluate (Z.of_nat N)) eqn:Hi.
  - rewrite filter_cons_True, filter_nil by done. rewrite last_snoc.
    intros [= <-]. split; [lia|]. split; [done|]. intros e He. lia.
  - rewrite filter_cons_False, filter_nil, app_nil_r by (by rewrite Hi).
    intros Hk. destruct (IH Hk) as (Hr & Hik & Hle).
    split; [lia|]. split; [done|]. intros e He.
    destruct (decide (e = Z.of_nat N)) as [->|Hne]; [|apply Hle; lia].
    apply improves_spec in Hik as [Hpos Hbefore].
    unfold improves, exceeds in Hi. apply andb_false_iff in Hi as [Hi|Hi].
    + apply Qgtb_le in Hi. apply Qlt_le_weak. by eapply Qle_lt_trans.
    + rewrite Nat2Z.id in Hi.
      destruct (not_above_all evaluate _ _ Hi) as (e' & He' & Hle').
      eapply Qle_trans; [exact Hle'|].
      destruct (Z.lt_trichotomy (Z.of_nat e') k) as [Hlt|[<-|Hgt]].
      * apply Qlt_le_weak, Hbefore. lia.
      * apply Qle_refl.
      * apply Hle. lia.
Qed.

(** X5. After [train], the checkpoint on disk (the last one saved) is that
    of the earliest epoch with the largest validation accuracy of the run:
    its accuracy is above 0.0, at least that of every evaluated epoch and
    strictly above that of every earlier one. Checkpoints are saved with
    strictly increasing accuracies, and if none was saved no epoch had an
    accuracy above 0.0. *)
Theorem last_checkpoint_is_first_best
  {B : Type} (shuffle : nat -> list nat -> list nat) (evaluate : Z -> metrics)
  (train_dls : list (list B)) (n_epochs L patience g : Z) (sched : bool)
  (fuel r : nat) :
  (1 <= g)%Z -> L <> 0%Z -> (forall c l, shuffle c l ≡ₚ l) ->
  sum_list_with length train_dls + length train_dls < fuel ->
  Z.to_nat n_epochs < fuel ->
  exists tr st,
    Train.train shuffle evaluate train_dls n_epochs L patience g sched fuel r
    = Done (tr, st) /\
    (forall k, last (saved tr) = Some k ->
       k ∈ evaluated tr /\ (0 < m_acc (evaluate k))%Q /\
       (forall e, e ∈ evaluated tr -> (m_acc (evaluate e) <= m_acc (evaluate k))%Q) /\
       (forall e, e ∈ evaluated tr -> (e < k)%Z ->
                  (m_acc (evaluate e) < m_acc (evaluate k))%Q)) /\
    (forall a b, a ∈ saved tr -> b ∈ saved tr -> (a < b)%Z ->
                 (m_acc (evaluate a) < m_acc (evaluate b))%Q) /\
    (saved tr = [] ->
     forall e, e ∈ evaluated tr -> (m_acc (evaluate e) <= 0)%Q).
Proof.
  intros Hg HL Hsh Hfuel Hn.
  destruct (epochs_spec shuffle evaluate train_dls n_epochs L patience g sched
              fuel Hg HL Hsh Hfuel fuel (Train.init r) (tracks_best_init evaluate r))
    as (tr & st & N & Hrun & Hev & _ & Hsv & _ & _); [simpl; lia|].
  assert (Hev' : evaluated tr = Z.of_nat <$> seq 0 N).
  { rewrite Hev. by apply list_fmap_ext. }
  assert (Hin : forall e, e ∈ evaluated tr <-> (0 <= e < Z.of_nat N)%Z).
  { intros e. rewrite Hev', list_elem_of_fmap. split.
    - intros (j & -> & Hj%elem_of_seq). lia.
    - intros He. exists (Z.to_nat e). split; [lia|]. apply elem_of_seq. lia. }
  exists tr, st. split; [exact Hrun|]. split; [|split].
  - intros k Hk. rewrite Hsv, Hev' in Hk.
    apply last_improving_is_best in Hk as (Hr & Hi & Hle).
    pose proof Hi as [Hpos Hbefore]%improves_spec.
    split; [by apply Hin|]. split; [done|]. split.
    + intros e He%Hin.
      destruct (Z.lt_trichotomy e k) as [Hlt|[->|Hgt]].
      * apply Qlt_le_weak, Hbefore. lia.
      * apply Qle_refl.
      * apply Hle. lia.
    + intros e He%Hin Hlt. apply Hbefore. lia.
  - intros a b Ha Hb Hab. rewrite Hsv in Ha, Hb.
    apply list_elem_of_filter in Ha as [_ Ha], Hb as [Hb _].
    apply Hin in Ha. apply improves_spec in Hb as [_ Hb]. apply Hb. lia.
  - intros Hnil e He. rewrite Hsv, Hev' in Hnil.
    apply Hin in He.
    replace e with (Z.of_nat (Z.to_nat e)) by lia.
    apply (no_improvement_no_positive evaluate N Hnil). lia.
Qed.

Lemma last_checkpoint_is_first_best_witness :
  exists tr st,
    Train.train (fun _ l => rev l) example_accuracies [[1; 2; 3]; [4; 5]]
      10 1 2 2 true 20 0 = Done (tr, st) /\
    (forall k, last (saved tr) = Some k ->
       forall e, e ∈ evaluated tr ->
         (m_acc (example_accuracies e) <= m_acc (example_accuracies k))%Q).
Proof.
  destruct (last_checkpoint_is_first_best (fun _ l => rev l) example_accuracies
              [[1; 2; 3]; [4; 5]] 10 1 2 2 true 20 0)
    as (tr & st & Hrun & Hlast & _ & _).
  - lia.
  - lia.
  - intros c l. symmetry. apply Permutation_rev.
  - simpl. lia.
  - simpl. lia.
  - exists tr, st. split; [exact Hrun|].
    intros k Hk. destruct (Hlast k Hk) as (_ & _ & H & _). exact H.
Defined.

(** X6. Over a whole call of [train], the optimizer is stepped once per
    accumulation group of every evaluated epoch, and the scheduler as
    often. The schedule of line 301 is built for [n_epochs] times the
    number of batches: it is never stepped beyond that; it is stepped
    exactly that often when [gradient_accumulation] is 1 and no epoch is
    skipped; and with a factor of 2 or more and a loader of at least two
    batches it ends short of it. *)
Theorem scheduler_within_horizon
  {B : Type} (shuffle : nat -> list nat -> list nat) (evaluate : Z -> metrics)
  (train_dls : list (list B)) (n_epochs L patience g : Z) (sched : bool)
  (fuel r : nat) :
  (1 <= g)%Z -> L <> 0%Z -> (forall c l, shuffle c l ≡ₚ l) ->
  sum_list_with length train_dls + length train_dls < fuel ->
  Z.to_nat n_epochs < fuel ->
  exists tr st,
    Train.train shuffle evaluate train_dls n_epochs L patience g sched fuel r
    = Done (tr, st) /\
    optimizer_steps tr
    = length (evaluated tr)
      * sum_list_with (fun dl => ceil_div (length dl) (Z.to_nat g)) train_dls /\
    scheduler_steps tr = (if sched then optimizer_steps tr else 0) /\
    (Z.of_nat (scheduler_steps tr)
     <= Z.max 0 (num_training_steps n_epochs train_dls))%Z /\
    (g = 1%Z -> sched = true -> length (evaluated tr) = Z.to_nat n_epochs ->
     Z.of_nat (scheduler_steps tr)
     = Z.max 0 (num_training_steps n_epochs train_dls)) /\
    ((2 <= g)%Z -> Exists (fun dl => 2 <= length dl) train_dls ->
     (0 < n_epochs)%Z ->
     (Z.of_nat (scheduler_steps tr) < num_training_steps n_epochs train_dls)%Z).
Proof.
  intros Hg HL Hsh Hfuel Hn.
  destruct (epochs_counts shuffle evaluate train_dls n_epochs L patience g sched
              fuel Hg HL Hsh Hfuel fuel (Train.init r))
    as (tr & st & Hrun & Hopt & Hsch & HN & _); [simpl; lia|].
  simpl in HN. rewrite Z.sub_0_r in HN.
  exists tr, st. split; [exact Hrun|]. split; [exact Hopt|]. split; [exact Hsch|].
  unfold num_training_steps. rewrite sum_list_lengths.
  set (N := length (evaluated tr)) in *.
  set (S0 := sum_list_with (fun dl => ceil_div (length dl) (Z.to_nat g)) train_dls) in *.
  set (T := sum_list_with length train_dls) in *.
  assert (HS0 : S0 <= T).
  { subst S0 T. clear -Hg. induction train_dls as [|dl dls IH]; simpl; [done|].
    pose proof (ceil_div_le (length dl) (Z.to_nat g)). lia. }
  assert (Hle : scheduler_steps tr <= N * S0).
  { rewrite Hsch. destruct sched; lia. }
  split; [|split].
  - destruct (Z.le_gt_cases n_epochs 0) as [H0|H0].
    + assert (N = 0) by lia. nia.
    + nia.
  - intros -> -> HNn. rewrite Hsch, Hopt.
    assert (S0 = T) as ->.
    { subst S0 T. clear. change (Z.to_nat 1) with 1.
      induction train_dls as [|dl dls IH]; [done|].
      cbn [sum_list_with]. by rewrite IH, ceil_div_1. }
    rewrite HNn. destruct (Z.le_gt_cases n_epochs 0) as [H0|H0]; nia.
  - intros Hg2 Hex Hpos.
    assert (HS0' : S0 < T).
    { subst S0 T. clear -Hg2 Hex Hg.
      induction Hex as [dl dls Hdl|dl dls _ IH]; simpl.
      - pose proof (ceil_div_lt (length dl) (Z.to_nat g)).
        assert (sum_list_with (fun dl => ceil_div (length dl) (Z.to_nat g)) dls
                <= sum_list_with length dls).
        { clear -Hg. induction dls as [|x dls IH]; simpl; [done|].
          pose proof (ceil_div_le (length x) (Z.to_nat g)). lia. }
        lia.
      - pose proof (ceil_div_le (length dl) (Z.to_nat g)). lia. }
    nia.
Qed.

Lemma scheduler_within_horizon_witness :
  exists tr st,
    Train.train (fun _ l => rev l) example_accuracies [[1; 2; 3]; [4; 5]]
      10 1 2 2 true 20 0 = Done (tr, st) /\
    (Z.of_nat (scheduler_steps tr)
     < num_training_steps 10 [[1; 2; 3]; [4; 5]])%Z.
Proof.
  destruct (scheduler_within_horizon (fun _ l => rev l) example_accuracies
              [[1; 2; 3]; [4; 5]] 10 1 2 2 true 20 0)
    as (tr & st & Hrun & _ & _ & _ & _ & Hlt).
  - lia.
  - lia.
  - intros c l. symmetry. apply Permutation_rev.
  - simpl. lia.
  - simpl. lia.
  - exists tr, st. split; [exact Hrun|]. apply Hlt.
    + lia.
    + apply Exists_cons_hd. simpl. lia.
    + lia.
Defined.

(** X17. Every epoch that [train] runs takes new iterators of all the
    loaders: over the whole call, the batches of a loader go through the
    network in the loader's order, once for each evaluated epoch. *)
Theorem every_epoch_runs_every_batch
  {B : Type} (shuffle : nat -> list nat -> list nat) (evaluate : Z -> metrics)
  (train_dls : list (list B)) (n_epochs L patience g : Z) (sched : bool)
  (fuel r : nat) :
  (1 <= g)%Z -> L <> 0%Z -> (forall c l, shuffle c l ≡ₚ l) ->
  sum_list_with length train_dls + length train_dls < fuel ->
  Z.to_nat n_epochs < fuel ->
  exists tr st,
    Train.train shuffle evaluate train_dls n_epochs L patience g sched fuel r
    = Done (tr, st) /\
    forall d, forwarded d tr
              = concat (replicate (length (evaluated tr))
                          (default [] (train_dls !! d))).
Proof.
  intros Hg HL Hsh Hfuel Hn.
  destruct (epochs_counts shuffle evaluate train_dls n_epochs L patience g sched
              fuel Hg HL Hsh Hfuel fuel (Train.init r))
    as (tr & st & Hrun & _ & _ & _ & Hfw); [simpl; lia|].
  by exists tr, st.
Qed.

Lemma every_epoch_runs_every_batch_witness :
  exists tr st,
    Train.train (fun _ l => rev l) example_accuracies [[1; 2; 3]; [4; 5]]
      2 1 2 2 true 20 0 = Done (tr, st) /\
    forwarded 1 tr = [4; 5; 4; 5].
Proof.
  destruct (every_epoch_runs_every_batch (fun _ l => rev l) example_accuracies
              [[1; 2; 3]; [4; 5]] 2 1 2 2 true 20 0)
    as (tr & st & Hrun & Hfw).
  - lia.
  - lia.
  - intros c l. symmetry. apply Permutation_rev.
  - simpl. lia.
  - simpl. lia.
  - exists tr, st. split; [exact Hrun|]. rewrite Hfw.
    revert Hrun. vm_compute. intros [= <- _]. reflexivity.
Defined.

(** X18. Line 323 loads whatever file has the name of the fold's
    checkpoint: when such a file exists before the fold is trained (a
    domain listed twice, a directory used again) the load never fails, and
    if no epoch of the fold improves on 0.0 it is the old file that is
    loaded; otherwise it is the checkpoint of the last improving epoch. *)
Theorem stale_checkpoint_is_loaded
  {B : Type} (shuffle : nat -> list nat -> list nat) (evaluate : Z -> metrics)
  (state_dict : Z -> string) (train_dls : list (list B)) (n_epochs L g : Z)
  (dir domain : string) (fuel r : nat) (fs : gmap string string) (old : string) :
  (1 <= g)%Z -> L <> 0%Z -> (forall c l, shuffle c l ≡ₚ l) ->
  sum_list_with length train_dls + length train_dls < fuel ->
  Z.to_nat n_epochs < fuel ->
  fs !! Main.checkpoint_path dir domain = Some old ->
  exists tr w fs',
    Main.train_fold shuffle evaluate state_dict train_dls n_epochs L g
      dir domain fuel r fs = Done (tr, w, fs') /\
    w = match last (saved tr) with
        | Some k => state_dict k
        | None => old
        end /\
    ((forall e, e ∈ evaluated tr -> (m_acc (evaluate e) <= 0)%Q) ->
     w = old /\ fs' = fs).
Proof.
  intros Hg HL Hsh Hfuel Hn Hfs.
  destruct (epochs_spec shuffle evaluate train_dls n_epochs L 10 g true
              fuel Hg HL Hsh Hfuel fuel (Train.init r) (tracks_best_init evaluate r))
    as (tr & st & N & Hrun & Hev & _ & Hsv & _ & _); [simpl; lia|].
  unfold Main.train_fold, Train.train. rewrite Hrun.
  cbn [mbind outcome_bind]. unfold Main.torch_load.
  destruct (decide (saved tr = [])) as [Hnil|Hne].
  - rewrite (write_checkpoints_none state_dict _ tr fs Hnil), Hfs.
    cbn [mbind outcome_bind mret outcome_ret].
    exists tr, old, fs. split; [done|]. rewrite Hnil. by split.
  - destruct (write_checkpoints_some state_dict
                (Main.checkpoint_path dir domain) tr fs Hne) as (k & Hk & Hw).
    rewrite Hw. cbn [mbind outcome_bind mret outcome_ret].
    eexists tr, _, _. split; [done|]. rewrite Hk. split; [done|].
    intros Hall. exfalso.
    assert (Hin : k ∈ saved tr).
    { apply last_Some in Hk as [l' ->]. apply elem_of_app. right.
      apply list_elem_of_here. }
    rewrite Hsv in Hin. apply list_elem_of_filter in Hin as [Hi Hin].
    apply improves_spec in Hi as [Hpos _]. specialize (Hall k Hin).
    by apply (Qlt_irrefl 0), (Qlt_le_trans _ (m_acc (evaluate k))).
Qed.

Lemma stale_checkpoint_is_loaded_witness :
  exists tr fs',
    Main.train_fold (fun _ l => rev l) (fun _ => Metrics 0 0 0 0 0)
      (fun _ => "new"%string) [[1; 2; 3]; [4; 5]] 2 1 2
      "out/run" "books" 20 0
      (<[Main.checkpoint_path "out/run" "books" := "old"%string]> ∅)
    = Done (tr, "old"%string, fs').
Proof.
  destruct (stale_checkpoint_is_loaded (fun _ l => rev l)
              (fun _ => Metrics 0 0 0 0 0) (fun _ => "new"%string)
              [[1; 2; 3]; [4; 5]] 2 1 2 "out/run" "books" 20 0
              (<[Main.checkpoint_path "out/run" "books" := "old"%string]> ∅)
              "old"%string)
    as (tr & w & fs' & Hrun & _ & Hold).
  - lia.
  - lia.
  - intros c l. symmetry. apply Permutation_rev.
  - simpl. lia.
  - simpl. lia.
  - apply lookup_insert_eq.
  - destruct Hold as [-> _]; [by intros e _|].
    by exists tr, fs'.
Defined.

(** ** Loss events of an epoch *)

Lemma ceil_div_succ (m a : nat) :
  1 <= a ->
  ceil_div (S m) a = ceil_div m a + (if m mod a =? 0 then 1 else 0).
Proof.
  intros Ha. unfold ceil_div.
  pose proof (Nat.div_mod_eq m a) as Hm.
  pose proof (Nat.mod_upper_bound m a ltac:(lia)) as Hr.
  set (q := m / a) in *. set (r := m mod a) in *.
  destruct (Nat.eqb_spec r 0) as [H0|H0].
  - rewrite <- (Nat.div_unique (S m + a - 1) a (q + 1) 0) by nia.
    rewrite <- (Nat.div_unique (m + a - 1) a q (a - 1)) by nia. lia.
  - rewrite <- (Nat.div_unique (S m + a - 1) a (q + 1) r) by nia.
    rewrite <- (Nat.div_unique (m + a - 1) a (q + 1) (r - 1)) by nia. lia.
Qed.

Lemma mod_flag (L : Z) (m : nat) :
  L <> 0%Z ->
  (Z.of_nat m mod L =? 0)%Z = (m mod Z.abs_nat L =? 0).
Proof.
  intros HL. apply eq_true_iff_eq.
  rewrite Z.eqb_eq, Nat.eqb_eq, Z.mod_divide by done.
  rewrite <- Z.divide_abs_l, <- (Zabs2Nat.id_abs L).
  rewrite <- Z.mod_divide by lia.
  rewrite <- Nat2Z.inj_mod. lia.
Qed.

(** Among the first [m] batches of an epoch, those whose position is a
    multiple of [log_interval]. *)
Lemma log_flags_count (L : Z) (m : nat) :
  L <> 0%Z ->
  length (filter (fun x => x = true) (log_flags L 0 m)) = ceil_div m (Z.abs_nat L).
Proof.
  intros HL. rewrite log_flags_seq.
  induction m as [|m IH].
  - unfold ceil_div. simpl. symmetry. apply Nat.div_small. lia.
  - rewrite seq_S, fmap_app, filter_app, length_app, IH.
    rewrite ceil_div_succ by lia. f_equal.
    cbn [fmap list_fmap plus]. rewrite Z.add_0_l, mod_flag by done.
    destruct (_ =? _); [by rewrite filter_cons_True|by rewrite filter_cons_False].
Qed.

(** X7. In an epoch the counter [i] ends at the total given to the
    progress bar, the sum of the loaders' lengths, and the loss is logged
    [ceil(total / |log_interval|)] times, whatever the accumulation factor
    and the order of the visits. *)
Theorem loss_events_per_epoch
  {B : Type} (shuffle : nat -> list nat -> list nat) (g L : Z) (sched : bool)
  (dls : list (list B)) (r fuel : nat) :
  (1 <= g)%Z -> L <> 0%Z -> (forall c l, shuffle c l ≡ₚ l) ->
  sum_list_with length dls + length dls < fuel ->
  exists tr st,
    Scheduler.run_epoch shuffle g L sched fuel dls r = Done (tr, st) /\
    Scheduler.i_ctr st = Z.of_nat (pbar_total dls) /\
    length (batch_logged tr) = pbar_total dls /\
    loss_events tr = ceil_div (pbar_total dls) (Z.abs_nat L).
Proof.
  intros Hg HL Hsh Hfuel.
  destruct (run_epoch_spec shuffle g L sched fuel dls r Hg HL Hsh Hfuel)
    as (tr & st & Hrun & Hs & Hdr & _).
  exists tr, st. split; [exact Hrun|].
  destruct (interleaving_counter _ _ _ _ _ _ _ _ Hs) as [Hi _].
  pose proof (interleaving_logged _ _ _ _ _ _ _ _ Hs) as Hlog.
  pose proof (interleaving_loss_events _ _ _ _ _ _ _ _ Hs) as Hloss.
  rewrite (lengths_drained _ Hdr) in Hi, Hlog. rewrite Nat.sub_0_r in Hlog.
  unfold pbar_total. rewrite sum_list_lengths.
  split; [lia|]. split; [by rewrite Hlog, log_flags_length|].
  by rewrite Hloss, Hlog, log_flags_count.
Qed.

Lemma loss_events_per_epoch_witness :
  exists tr st,
    Scheduler.run_epoch (fun _ l => rev l) 2 (-3) true 20 [[1; 2; 3]; [4; 5]] 0
    = Done (tr, st) /\
    Scheduler.i_ctr st = 5%Z /\ loss_events tr = 2.
Proof.
  destruct (loss_events_per_epoch (fun _ l => rev l) 2 (-3) true
              [[1; 2; 3]; [4; 5]] 0 20) as (tr & st & Hrun & Hi & _ & Hl).
  - lia.
  - lia.
  - intros c l. symmetry. apply Permutation_rev.
  - simpl. lia.
  - exists tr, st. split; [exact Hrun|]. split; [exact Hi|exact Hl].
Defined.

(** ** Index files that do not parse *)

Section RejectedLines.
Import Text Split.

Lemma all_chars_lstrip p s : all_chars p s = true -> all_chars p (lstrip s) = true.
Proof.
  induction s as [|c s IH]; [done|]. simpl.
  intros [Hc Hs]%andb_true_iff. destruct (is_space c); [by apply IH|].
  simpl. by rewrite Hc, Hs.
Qed.

Lemma all_chars_rstrip p s : all_chars p s = true -> all_chars p (rstrip s) = true.
Proof.
  induction s as [|c s IH]; [done|]. simpl.
  intros [Hc Hs]%andb_true_iff. destruct (_ && _); [done|].
  simpl. by rewrite Hc, IH.
Qed.

Lemma all_chars_strip p s : all_chars p s = true -> all_chars p (strip s) = true.
Proof. intros H. unfold strip. by apply all_chars_rstrip, all_chars_lstrip. Qed.

Lemma py_int_cases s : (exists z, py_int s = Done z) \/ py_int s = Raise ValueError.
Proof.
  unfold py_int. destruct (strip s) as [|c r]; [by right|].
  destruct (Ascii.eqb c minus); [|destruct (Ascii.eqb c plus)];
    destruct (digits_val _ _ _); simpl; eauto.
Qed.

(** A line either parses or raises one of two exceptions. *)
Lemma parse_line_cases l :
  (exists p, parse_line l = Done p)
  \/ parse_line l = Raise ValueError \/ parse_line l = Raise IndexError.
Proof.
  unfold parse_line. destruct (split comma (strip l)) as [|v0 rest]; [auto|].
  destruct (py_int_cases v0) as [[k ->]| ->]; [|auto].
  cbn [mbind outcome_bind]. destruct rest as [|v1 rest]; [auto|].
  destruct (py_int_cases v1) as [[x ->]| ->]; [|auto].
  left. by eexists.
Qed.

Lemma parse_line_no_comma l :
  all_chars (fun c => negb (Ascii.eqb c comma)) l = true ->
  parse_line l = py_int (strip l) ≫= fun _ => Raise IndexError.
Proof.
  intros H. unfold parse_line.
  by rewrite (split_no_sep comma (strip l)) by (by apply all_chars_strip).
Qed.

Lemma load_lines_cases train ls m :
  (exists m', load_lines train ls m = Done m')
  \/ load_lines train ls m = Raise ValueError
  \/ load_lines train ls m = Raise IndexError.
Proof.
  revert m. induction ls as [|l ls IH]; intros m; [left; by eexists|].
  cbn [load_lines].
  destruct (parse_line_cases l) as [[[k x] ->]|[-> | ->]]; [|auto..].
  apply IH.
Qed.

Lemma load_lines_rejects train ls m l :
  l ∈ ls -> (forall p, parse_line l <> Done p) ->
  load_lines train ls m = Raise ValueError
  \/ load_lines train ls m = Raise IndexError.
Proof.
  intros Hin Hbad. revert m.
  induction ls as [|l' ls IH]; intros m; [by apply elem_of_nil in Hin|].
  cbn [load_lines].
  destruct (parse_line_cases l') as [[[k x] Hp]|[-> | ->]]; [|auto..].
  rewrite Hp. cbn [mbind outcome_bind].
  apply elem_of_cons in Hin as [->|Hin]; [by destruct (Hbad (k, x))|].
  by apply IH.
Qed.

End RejectedLines.

(** X8. A line without a comma never loads: [vals[1]] raises [IndexError]
    when the text of the line is an integer, and [int] raises [ValueError]
    when it is not (a blank line, for one). So an index file with such a
    line, in either of the two files, makes the reload raise one of these
    two exceptions. *)
Theorem reload_rejects_line_without_comma
  (all_dsets : list Split.dataset) (i : nat) (dir : string)
  (fs : gmap string string) (dset : Split.dataset) (f g l : string) :
  all_dsets !! i = Some dset ->
  fs !! Split.train_idx_path dir (Split.ds_domain dset) = Some f ->
  fs !! Split.val_idx_path dir (Split.ds_domain dset) = Some g ->
  l ∈ Text.file_lines f \/ l ∈ Text.file_lines g ->
  Text.all_chars (fun c => negb (Ascii.eqb c Text.comma)) l = true ->
  Split.parse_line l
  = match Text.py_int (Text.strip l) with
    | Done _ => Raise IndexError
    | _ => Raise ValueError
    end /\
  (Split.reload all_dsets i dir fs = Raise ValueError \/
   Split.reload all_dsets i dir fs = Raise IndexError).
Proof.
  intros Hi Hf Hg Hin Hl.
  pose proof (parse_line_no_comma l Hl) as Hp.
  assert (Hp' : Split.parse_line l
                = match Text.py_int (Text.strip l) with
                  | Done _ => Raise IndexError
                  | _ => Raise ValueError
                  end).
  { rewrite Hp. by destruct (py_int_cases (Text.strip l)) as [[z ->]| ->]. }
  split; [exact Hp'|].
  assert (Hbad : forall p, Split.parse_line l <> Done p).
  { intros p. rewrite Hp'. by destruct (Text.py_int _). }
  unfold Split.reload, Split.get. rewrite Hi.
  cbn [mbind outcome_bind].
  destruct (dset_choices_ok all_dsets i) as (choices & -> & _).
  cbn [mbind outcome_bind]. rewrite Hf, Hg.
  destruct Hin as [Hin|Hin].
  - destruct (load_lines_rejects true _ [] l Hin Hbad) as [-> | ->];
      cbn [mbind outcome_bind]; auto.
  - destruct (load_lines_cases true (Text.file_lines f) [])
      as [[m1 ->]|[-> | ->]]; cbn [mbind outcome_bind]; [|auto..].
    destruct (load_lines_rejects false _ m1 l Hin Hbad) as [-> | ->];
      cbn [mbind outcome_bind]; auto.
Qed.

Lemma reload_rejects_line_without_comma_witness :
  Split.reload [books; dvd] 1 "idx"
    (<[Split.val_idx_path "idx" "dvd" := Split.index_line 0 4]>
       (<[Split.train_idx_path "idx" "dvd"
          := (Split.index_line 0 1 ++ String Text.LF EmptyString)%string]> ∅))
  = Raise ValueError \/
  Split.reload [books; dvd] 1 "idx"
    (<[Split.val_idx_path "idx" "dvd" := Split.index_line 0 4]>
       (<[Split.train_idx_path "idx" "dvd"
          := (Split.index_line 0 1 ++ String Text.LF EmptyString)%string]> ∅))
  = Raise IndexError.
Proof.
  apply (reload_rejects_line_without_comma [books; dvd] 1 "idx" _ dvd
           (Split.index_line 0 1 ++ String Text.LF EmptyString)%string
           (Split.index_line 0 4) EmptyString).
  - reflexivity.
  - vm_compute. reflexivity.
  - vm_compute. reflexivity.
  - left. vm_compute. apply list_elem_of_In. simpl. auto.
  - reflexivity.
Defined.

(** ** Sizes of a fresh split *)



(** ** Strings with a common ending *)

Lemma length_append (a b : string) :
  String.length (a ++ b) = String.length a + String.length b.
Proof.
  induction a as [|x a IH]; [done|].
  change (S (String.length (a ++ b)) = S (String.length a + String.length b)).
  by rewrite IH.
Qed.

(** Two strings that are equal and end with suffixes of the same length
    agree on the suffixes and on what precedes them. *)
Lemma append_inj_suffix (a b s t : string) :
  (a ++ s = b ++ t)%string -> String.length s = String.length t ->
  a = b /\ s = t.
Proof.
  revert b. induction a as [|x a IH]; intros [|y b] H Hlen.
  - done.
  - exfalso. apply (f_equal String.length) in H.
    change (String.length s = S (String.length (b ++ t))) in H.
    rewrite length_append in H. lia.
  - exfalso. apply (f_equal String.length) in H.
    change (S (String.length (a ++ s)) = String.length t) in H.
    rewrite length_append in H. lia.
  - change (String x (a ++ s) = String y (b ++ t))%string in H.
    injection H as -> H. destruct (IH b H Hlen) as [-> ->]. done.
Qed.

Lemma append_inj_r (a b s : string) : (a ++ s = b ++ s)%string -> a = b.
Proof. intros H. by destruct (append_inj_suffix a b s s H). Qed.

(** ** The files of a fold *)

Section FoldFiles.
Import Split Main.

Lemma train_idx_path_inj dir d d' :
  train_idx_path dir d = train_idx_path dir d' -> d = d'.
Proof.
  unfold train_idx_path. intros H%append_inj_l%append_inj_l.
  by apply append_inj_r in H.
Qed.

Lemma val_idx_path_inj dir d d' :
  val_idx_path dir d = val_idx_path dir d' -> d = d'.
Proof.
  unfold val_idx_path. intros H%append_inj_l%append_inj_l.
  by apply append_inj_r in H.
Qed.

Lemma checkpoint_path_inj dir d d' :
  checkpoint_path dir d = checkpoint_path dir d' -> d = d'.
Proof.
  unfold checkpoint_path. intros H%append_inj_l%append_inj_l.
  by apply append_inj_r in H.
Qed.

Lemma train_val_paths_differ dir d d' : train_idx_path dir d <> val_idx_path dir d'.
Proof. unfold train_idx_path, val_idx_path. intros H%append_inj_l. done. Qed.

Lemma train_checkpoint_paths_differ dir d d' :
  train_idx_path dir d <> checkpoint_path dir d'.
Proof. unfold train_idx_path, checkpoint_path. intros H%append_inj_l. done. Qed.

Lemma val_checkpoint_paths_differ dir d d' :
  val_idx_path dir d <> checkpoint_path dir d'.
Proof. unfold val_idx_path, checkpoint_path. intros H%append_inj_l. done. Qed.

(** The [torch.save] calls of a fold touch its checkpoint only. *)
Lemma write_checkpoints_other {B} (state_dict : Z -> string) (path path' : string)
      (tr : list (event B)) (fs : gmap string string) :
  path' <> path ->
  write_checkpoints state_dict path tr fs !! path' = fs !! path'.
Proof.
  intros Hne. rewrite write_checkpoints_saved. revert fs.
  induction (saved tr) as [|k ks IH]; intros fs; [done|].
  simpl. rewrite IH. by apply lookup_insert_ne.
Qed.

(** The reload reads the two index files of the held-out domain and
    nothing else. *)
Lemma reload_reads_two_files (all_dsets : list dataset) i dir
      (fs fs' : gmap string string) dset :
  all_dsets !! i = Some dset ->
  fs' !! train_idx_path dir (ds_domain dset) = fs !! train_idx_path dir (ds_domain dset) ->
  fs' !! val_idx_path dir (ds_domain dset) = fs !! val_idx_path dir (ds_domain dset) ->
  reload all_dsets i dir fs' = reload all_dsets i dir fs.
Proof.
  intros Hi Hf Hg. unfold reload, get. rewrite Hi. cbn [mbind outcome_bind].
  by rewrite Hf, Hg.
Qed.

End FoldFiles.

(** X10. The files of two folds never collide when the names of their
    held-out domains differ: what the fold of domain [d'] writes, its two
    index files and its checkpoints, leaves the index files and the
    checkpoint of the fold of domain [d] as they were, so a reload of the
    fold of [d] gives what it gave before; and the checkpoints of [d'] do
    not touch its own index files. *)
Theorem fold_files_do_not_collide
  {B : Type} (state_dict : Z -> string) (dir d d' : string)
  (subsets : list (Split.subset * Split.subset)) (tr : list (event B))
  (fs : gmap string string) :
  d <> d' ->
  let fs' := Main.write_checkpoints state_dict (Main.checkpoint_path dir d') tr
               (Split.save_indices dir d' subsets fs) in
  fs' !! Split.train_idx_path dir d = fs !! Split.train_idx_path dir d /\
  fs' !! Split.val_idx_path dir d = fs !! Split.val_idx_path dir d /\
  fs' !! Main.checkpoint_path dir d = fs !! Main.checkpoint_path dir d /\
  fs' !! Split.train_idx_path dir d' = Some (Split.index_text true 0 subsets) /\
  fs' !! Split.val_idx_path dir d' = Some (Split.index_text false 0 subsets) /\
  (forall all_dsets i dset,
     all_dsets !! i = Some dset -> Split.ds_domain dset = d ->
     Split.reload all_dsets i dir fs' = Split.reload all_dsets i dir fs).
Proof.
  intros Hne fs'.
  assert (H1 : fs' !! Split.train_idx_path dir d = fs !! Split.train_idx_path dir d).
  { subst fs'. rewrite write_checkpoints_other
      by apply train_checkpoint_paths_differ.
    unfold Split.save_indices. rewrite !lookup_insert_ne; [done| |].
    - intros H%train_idx_path_inj. congruence.
    - apply not_eq_sym, train_val_paths_differ. }
  assert (H2 : fs' !! Split.val_idx_path dir d = fs !! Split.val_idx_path dir d).
  { subst fs'. rewrite write_checkpoints_other
      by apply val_checkpoint_paths_differ.
    unfold Split.save_indices. rewrite !lookup_insert_ne; [done| |].
    - apply train_val_paths_differ.
    - intros H%val_idx_path_inj. congruence. }
  split; [exact H1|]. split; [exact H2|]. split; [|split; [|split]].
  - subst fs'. rewrite write_checkpoints_other.
    + unfold Split.save_indices. rewrite !lookup_insert_ne; [done| |].
      * apply train_checkpoint_paths_differ.
      * apply val_checkpoint_paths_differ.
    + intros H%checkpoint_path_inj. congruence.
  - subst fs'. rewrite write_checkpoints_other
      by apply train_checkpoint_paths_differ.
    apply save_indices_train.
  - subst fs'. rewrite write_checkpoints_other
      by apply val_checkpoint_paths_differ.
    apply save_indices_val.
  - intros all_dsets i dset Hi <-.
    by apply reload_reads_two_files with dset.
Qed.

Lemma fold_files_do_not_collide_witness :
  Main.write_checkpoints (fun _ => "weights"%string)
    (Main.checkpoint_path "out/run" "dvd") [SaveCheckpoint (B:=nat) 0]
    (Split.save_indices "out/run" "dvd" [] sparse_files)
  !! Main.checkpoint_path "out/run" "books"
  = sparse_files !! Main.checkpoint_path "out/run" "books".
Proof.
  destruct (fold_files_do_not_collide (B:=nat) (fun _ => "weights"%string)
              "out/run" "books" "dvd" [] [SaveCheckpoint 0] sparse_files)
    as (_ & _ & H & _).
  - done.
  - exact H.
Defined.

(** ** Domain ids *)

Lemma override_from_spec (js : list nat) (i k : nat) :
  DomainIds.override_from js i k
  = (zip (filter (fun j => j ≠ i) js)
         (seq k (length (filter (fun j => j ≠ i) js))),
     k + length (filter (fun j => j ≠ i) js)).
Proof.
  revert k. induction js as [|j js IH]; intros k.
  - simpl. by rewrite Nat.add_0_r.
  - cbn [DomainIds.override_from]. destruct (decide (j = i)) as [->|Hne].
    + rewrite filter_cons_False by (intros H; by apply H). apply IH.
    + rewrite filter_cons_True by done. rewrite IH. simpl.
      f_equal. lia.
Qed.

(** X11. In the fold that holds out dataset [i] of [n], lines 237-242 call
    [set_domain_id] once on every dataset: the remaining datasets get the
    ids 0, 1, ... in their order, so that the dataset in slot [k] of the
    index files and of the loaders has domain id [k], and the held-out
    dataset gets the last id, [n - 1]. *)
Theorem domain_ids_follow_slots (n i : nat) :
  i < n ->
  DomainIds.override n i
  = zip (Split.others i n) (seq 0 (n - 1)) ++ [(i, n - 1)] /\
  (DomainIds.override n i).*1 ≡ₚ seq 0 n /\
  (DomainIds.override n i).*2 = seq 0 n /\
  (forall k j, Split.others i n !! k = Some j ->
               DomainIds.override n i !! k = Some (j, k)).
Proof.
  intros Hi.
  assert (Hov : DomainIds.override n i
                = zip (Split.others i n) (seq 0 (n - 1)) ++ [(i, n - 1)]).
  { unfold DomainIds.override. rewrite override_from_spec.
    fold (Split.others i n). rewrite others_length by done. done. }
  assert (Hlen : length (zip (Split.others i n) (seq 0 (n - 1))) = n - 1).
  { rewrite length_zip_with, others_length, length_seq by done. lia. }
  split; [exact Hov|]. rewrite Hov. split; [|split].
  - rewrite fmap_app, fst_zip by (rewrite others_length, length_seq by done; lia).
    simpl. unfold Split.others.
    rewrite <- (filter_app_complement (fun j => j ≠ i) (seq 0 n)) at 2.
    apply Permutation_app_head.
    assert (Hdec : forall l, NoDup l -> i ∈ l ->
              filter (fun j => ¬ j ≠ i) l = [i]).
    { clear. induction l as [|x l IH]; intros Hnd Hin; [by apply elem_of_nil in Hin|].
      apply NoDup_cons in Hnd as [Hx Hnd].
      destruct (decide (x = i)) as [->|Hne].
      - rewrite filter_cons_True by (intros H; by apply H). f_equal.
        clear IH Hin. induction l as [|y l IH]; [done|].
        apply not_elem_of_cons in Hx as [Hy Hx].
        apply NoDup_cons in Hnd as [_ Hnd].
        rewrite filter_cons_False by (intros H; apply H; congruence).
        by apply IH.
      - rewrite filter_cons_False by (intros H; by apply H).
        apply IH; [done|]. apply elem_of_cons in Hin as [->|Hin]; done. }
    rewrite Hdec; [done|apply NoDup_seq|]. apply elem_of_seq. lia.
  - rewrite fmap_app, snd_zip by (rewrite others_length, length_seq by done; lia).
    simpl. replace n with (n - 1 + 1) at 3 by lia. by rewrite seq_app.
  - intros k j Hk.
    assert (Hkn : k < n - 1).
    { apply lookup_lt_Some in Hk. by rewrite others_length in Hk. }
    rewrite lookup_app_l by lia.
    rewrite lookup_zip_with, Hk. simpl.
    rewrite lookup_seq_lt by done. done.
Qed.

Lemma domain_ids_follow_slots_witness :
  DomainIds.override 4 1 = [(0, 0); (2, 1); (3, 2); (1, 3)].
Proof.
  destruct (domain_ids_follow_slots 4 1) as [H _]; [lia|].
  rewrite H. reflexivity.
Defined.

(** ** The optimizer's parameter groups *)

Section OptimFacts.
Import Optim.

Lemma append_cons (c : ascii) (x y : string) :
  (String c x ++ y)%string = String c (x ++ y)%string.
Proof. done. Qed.

Lemma starts_with_spec (a b : string) :
  starts_with a b = true <-> exists y, b = (a ++ y)%string.
Proof.
  revert b. induction a as [|x a IH]; intros b.
  - split; [intros _; by exists b|done].
  - destruct b as [|y b]; simpl.
    + split; [done|]. intros [z Hz]. by rewrite append_cons in Hz.
    + rewrite andb_true_iff, IH, Ascii.eqb_eq. split.
      * intros [-> [z ->]]. by exists z.
      * intros [z Hz]. rewrite append_cons in Hz. injection Hz as -> ->.
        split; [done|]. by exists z.
Qed.

(** [contains a b] tells whether [a] occurs in [b]. *)
Lemma contains_spec (a b : string) :
  contains a b = true <-> exists x y, b = (x ++ a ++ y)%string.
Proof.
  induction b as [|c b IH]; cbn [contains]; rewrite orb_true_iff, starts_with_spec.
  - split.
    + intros [[y Hy]|]; [|done]. by exists EmptyString, y.
    + intros (x & y & H). left. destruct x as [|c x]; [by exists y|].
      by rewrite append_cons in H.
  - rewrite IH. split.
    + intros [[y Hy]|(x & y & ->)]; [by exists EmptyString, y|].
      by exists (String c x), y.
    + intros (x & y & H). destruct x as [|c' x]; [left; by exists y|].
      rewrite append_cons in H. injection H as -> ->. right. by exists x, y.
Qed.

Lemma contains_longer (a a1 a2 b : string) :
  contains (a1 ++ a ++ a2) b = true -> contains a b = true.
Proof.
  rewrite !contains_spec. intros (x & y & ->).
  exists (x ++ a1)%string, (a2 ++ y)%string.
  by rewrite !append_assoc.
Qed.

End OptimFacts.

(** X12. A parameter is exempt from weight decay exactly when its name
    contains [bias] or [LayerNorm.weight], as written and with this case:
    the entry [LayerNorm.bias] of [no_decay] changes nothing, since a name
    that contains it contains [bias]. *)
Theorem no_decay_names (n : string) :
  Optim.any_no_decay n
  = Optim.contains "bias" n || Optim.contains "LayerNorm.weight" n /\
  (Optim.any_no_decay n = true <->
   (exists x y, n = (x ++ "bias" ++ y)%string) \/
   (exists x y, n = (x ++ "LayerNorm.weight" ++ y)%string)).
Proof.
  assert (H : Optim.any_no_decay n
              = Optim.contains "bias" n || Optim.contains "LayerNorm.weight" n).
  { unfold Optim.any_no_decay, Optim.no_decay. cbn [existsb].
    rewrite orb_false_r.
    pose proof (contains_longer "bias" "LayerNorm." "" n) as Hb.
    change ("LayerNorm." ++ "bias" ++ "")%string with "LayerNorm.bias"%string in Hb.
    destruct (Optim.contains "bias" n); [done|].
    destruct (Optim.contains "LayerNorm.bias" n); [by discriminate Hb|done]. }
  split; [exact H|]. rewrite H, orb_true_iff, !contains_spec. done.
Qed.

(** X13. The two parameter groups split the named parameters: every
    parameter is in exactly one of them, in the order of
    [named_parameters()]; the first group gets the configured weight
    decay, the second, made of the parameters whose name is exempt,
    gets 0.0. *)
Theorem parameter_groups_partition
  {P : Type} (named : list (string * P)) (wd : Q) :
  exists decayed exempt,
    Optim.optimizer_grouped_parameters named wd
    = [Optim.ParamGroup decayed wd; Optim.ParamGroup exempt 0] /\
    decayed ++ exempt ≡ₚ named.*2 /\
    decayed `sublist_of` named.*2 /\ exempt `sublist_of` named.*2 /\
    (forall k n p, named !! k = Some (n, p) ->
       if Optim.any_no_decay n then p ∈ exempt else p ∈ decayed) /\
    (Forall (fun np => Optim.any_no_decay np.1 = false) named ->
     decayed = named.*2 /\ exempt = []).
Proof.
  eexists _, _. split; [reflexivity|].
  assert (Hc : filter (fun np : string * P => Optim.any_no_decay np.1 = true) named
               = filter (fun np => ¬ Optim.any_no_decay np.1 = false) named).
  { apply list_filter_iff. intros [n p]. simpl. by destruct (Optim.any_no_decay n). }
  split; [|split; [|split; [|split]]].
  - rewrite <- fmap_app, Hc. apply fmap_Permutation, filter_app_complement.
  - apply fmap_sublist, sublist_filter.
  - apply fmap_sublist, sublist_filter.
  - intros k n p Hk. apply list_elem_of_lookup_2 in Hk.
    destruct (Optim.any_no_decay n) eqn:Hn.
    + apply list_elem_of_fmap. exists (n, p). split; [done|].
      by apply list_elem_of_filter.
    + apply list_elem_of_fmap. exists (n, p). split; [done|].
      by apply list_elem_of_filter.
  - intros Hall. split.
    + f_equal. by apply filter_all.
    + rewrite Hc, filter_none; [done|].
      eapply Forall_impl; [exact Hall|]. intros np H1 H2. by apply H2.
Qed.

Section SummaryKeys.
Import Report.

Lemma string_take_drop (n : nat) (s : string) :
  (string_take n s ++ string_drop n s)%string = s.
Proof.
  revert s. induction n as [|n IH]; intros [|c s]; try done.
  cbn [string_take string_drop]. by rewrite append_cons, IH.
Qed.

Lemma length_string_drop (n : nat) (s : string) :
  String.length (string_drop n s) = String.length s - n.
Proof. revert s. induction n as [|n IH]; intros [|c s]; try done. apply IH. Qed.

(** Two equal strings with known endings: the shorter ending is the end
    of the longer one. *)
Lemma append_eq_suffix (d d' s s' : string) :
  (d ++ s = d' ++ s')%string -> String.length s <= String.length s' ->
  s = string_drop (String.length s' - String.length s) s'.
Proof.
  intros H Hlen.
  rewrite <- (string_take_drop (String.length s' - String.length s) s') in H at 1.
  rewrite <- append_assoc in H.
  apply append_inj_suffix in H as [_ H]; [done|].
  rewrite length_string_drop. lia.
Qed.

Lemma append_eq_literal (d s key : string) :
  (d ++ s)%string = key ->
  d = string_take (String.length key - String.length s) key /\
  s = string_drop (String.length key - String.length s) key.
Proof.
  intros H.
  assert (Hlen : String.length key = String.length d + String.length s)
    by (by rewrite <- H, length_append).
  rewrite <- (string_take_drop (String.length key - String.length s) key) in H at 1.
  apply append_inj_suffix in H; [done|].
  rewrite length_string_drop. lia.
Qed.

Lemma fold_keys_NoDup (d : string) : NoDup (fold_keys d).
Proof.
  unfold fold_keys.
  repeat (apply NoDup_cons; split;
          [rewrite ?elem_of_cons, elem_of_nil;
           intros H; repeat (destruct H as [H|H]); try done;
           apply append_eq_suffix in H; try (simpl; lia); by vm_compute in H|]).
  apply NoDup_nil_2.
Qed.

Lemma fold_keys_disjoint (d d' : string) (k : string) :
  d <> d' -> k ∈ fold_keys d -> k ∈ fold_keys d' -> False.
Proof.
  unfold fold_keys. rewrite !elem_of_cons, !elem_of_nil.
  intros Hne H1 H2.
  repeat (destruct H1 as [H1|H1]); try done; subst k;
  repeat (destruct H2 as [H2|H2]); try done;
    first [ by apply append_inj_r in H2
          | (apply append_eq_suffix in H2; [by vm_compute in H2|simpl; lia])
          | (symmetry in H2; apply append_eq_suffix in H2;
               [by vm_compute in H2|simpl; lia]) ].
Qed.

Lemma fold_keys_not_test (d : string) (k : string) :
  d <> "test-micro"%string -> d <> "test-macro"%string ->
  k ∈ fold_keys d -> k ∈ test_keys -> False.
Proof.
  unfold fold_keys, test_keys. rewrite !elem_of_cons, !elem_of_nil.
  intros Hmi Hma H1 H2.
  repeat (destruct H1 as [H1|H1]); try done; subst k;
  repeat (destruct H2 as [H2|H2]); try done;
    apply append_eq_literal in H2 as [Hd Hs]; vm_compute in Hd, Hs;
    first [discriminate Hs | congruence].
Qed.

Lemma fold_summary_own (s : gmap string Q) (f : fold_report) :
  fold_summary s f !! (fp_domain f ++ "-P")%string = Some (fp_P f) /\
  fold_summary s f !! (fp_domain f ++ "-R")%string = Some (fp_R f) /\
  fold_summary s f !! (fp_domain f ++ "-F1")%string = Some (fp_F1 f) /\
  fold_summary s f !! (fp_domain f ++ "-Acc")%string = Some (fp_acc f).
Proof.
  assert (Hne : forall i j a b,
            fold_keys (fp_domain f) !! i = Some a ->
            fold_keys (fp_domain f) !! j = Some b -> i <> j -> a <> b).
  { intros i j a b Hi Hj Hij ->. apply Hij.
    by eapply NoDup_lookup; [apply fold_keys_NoDup|..]. }
  unfold fold_summary. repeat split.
  - rewrite lookup_insert_ne by (by apply (Hne 3 0)).
    rewrite lookup_insert_ne by (by apply (Hne 2 0)).
    rewrite lookup_insert_ne by (by apply (Hne 1 0)).
    apply lookup_insert_eq.
  - rewrite lookup_insert_ne by (by apply (Hne 3 1)).
    rewrite lookup_insert_ne by (by apply (Hne 2 1)).
    apply lookup_insert_eq.
  - rewrite lookup_insert_ne by (by apply (Hne 3 2)).
    apply lookup_insert_eq.
  - apply lookup_insert_eq.
Qed.

Lemma fold_summary_other (s : gmap string Q) (f : fold_report) (k : string) :
  k ∉ fold_keys (fp_domain f) -> fold_summary s f !! k = s !! k.
Proof.
  unfold fold_keys. intros Hk.
  apply not_elem_of_cons in Hk as [? Hk]. apply not_elem_of_cons in Hk as [? Hk].
  apply not_elem_of_cons in Hk as [? Hk]. apply not_elem_of_cons in Hk as [? _].
  unfold fold_summary. by rewrite !lookup_insert_ne.
Qed.

(** After all the folds, the keys of a fold hold its metrics, if no other
    fold has the same domain name. *)
Lemma folds_summary_lookup (folds : list fold_report) (f : fold_report) :
  NoDup (fp_domain <$> folds) -> f ∈ folds ->
  let s := foldl fold_summary ∅ folds in
  s !! (fp_domain f ++ "-P")%string = Some (fp_P f) /\
  s !! (fp_domain f ++ "-R")%string = Some (fp_R f) /\
  s !! (fp_domain f ++ "-F1")%string = Some (fp_F1 f) /\
  s !! (fp_domain f ++ "-Acc")%string = Some (fp_acc f).
Proof.
  induction folds as [|f' folds IH] using rev_ind; intros Hnd Hin;
    [by apply elem_of_nil in Hin|].
  rewrite fmap_app in Hnd. apply NoDup_app in Hnd as (Hnd & Hf' & _).
  rewrite foldl_app. cbn [foldl].
  apply elem_of_app in Hin as [Hin|Hin%list_elem_of_singleton].
  - assert (Hne : fp_domain f <> fp_domain f').
    { intros Heq. apply (Hf' (fp_domain f)).
      - apply list_elem_of_fmap. by exists f.
      - rewrite Heq. simpl. apply list_elem_of_here. }
    assert (Ho : forall k s, k ∈ fold_keys (fp_domain f) ->
                             fold_summary s f' !! k = s !! k).
    { intros k s Hk. apply fold_summary_other. intros Hk'.
      by apply (fold_keys_disjoint _ _ _ Hne Hk Hk'). }
    destruct (IH Hnd Hin) as (H1 & H2 & H3 & H4). cbv zeta.
    rewrite !Ho by (unfold fold_keys; rewrite !elem_of_cons; auto 10).
    done.
  - subst f'. apply fold_summary_own.
Qed.

Lemma folds_summary_other (folds : list fold_report) (k : string) :
  (forall f, f ∈ folds -> k ∉ fold_keys (fp_domain f)) ->
  foldl fold_summary ∅ folds !! k = None.
Proof.
  induction folds as [|f' folds IH] using rev_ind; intros Hk; [done|].
  rewrite foldl_app. cbn [foldl]. rewrite fold_summary_other.
  - apply IH. intros f Hf. apply Hk, elem_of_app. by left.
  - apply Hk, elem_of_app. right. apply list_elem_of_here.
Qed.

Lemma mean_nonempty_ending (xs : list Q) :
  xs <> [] ->
  mean xs = Completed (foldl Qplus 0 xs / inject_Z (Z.of_nat (length xs)))%Q.
Proof. by destruct xs. Qed.

End SummaryKeys.

(** X14. The code after the loop over the folds completes exactly when
    there was a fold and [acc_f1] returned. With no fold ([--domains] left
    at its default, the empty list) it ends with an exception: that of
    [acc_f1] if it raises on empty lists, and otherwise the [NameError]
    for [loss] at line 352, before any average is computed. *)
Theorem run_summary_completes_iff
  (acc_f1 : list (list Q) -> list nat -> Report.ending (Q * Q * Q * Q))
  (folds : list Report.fold_report) :
  ((exists s, Report.run_summary acc_f1 folds = Report.Completed s) <->
   folds <> [] /\
   exists r,
     acc_f1 (concat ((fun f => Main.fr_logits (Report.fp_result f)) <$> folds))
            (concat ((fun f => Main.fr_labels (Report.fp_result f)) <$> folds))
     = Report.Completed r) /\
  Report.run_summary acc_f1 []
  = match acc_f1 [] [] with
    | Report.Completed _ => Report.NameError
    | Report.PyError e => Report.PyError e
    | Report.NameError => Report.NameError
    end.
Proof.
  split.
  - unfold Report.run_summary.
    destruct (acc_f1 _ _) as [[[[acc P] R] F1]| |] eqn:Hacc;
      cbn [mbind Report.ending_bind].
    + destruct folds as [|f folds] using rev_ind.
      * split; [by intros [s Hs]|]. by intros [H _].
      * rewrite last_snoc. cbn [mbind Report.ending_bind].
        rewrite !mean_nonempty_ending
          by (rewrite fmap_app; intros H%app_eq_nil; by destruct H).
        cbn [mbind Report.ending_bind]. split.
        -- intros _. split; [|by eexists].
           intros H%app_eq_nil. by destruct H.
        -- intros _. by eexists.
    + split; [by intros [s Hs]|]. by intros [_ [r Hr]].
    + split; [by intros [s Hs]|]. by intros [_ [r Hr]].
  - unfold Report.run_summary. cbn [fmap list_fmap concat last].
    by destruct (acc_f1 [] []) as [[[[acc P] R] F1]| |].
Qed.

(** X15. When the domain names are pairwise different and none of them is
    [test-micro] or [test-macro], the summary of a completed run holds,
    for every fold, its four metrics under the keys of its domain; the
    pooled metrics of [acc_f1] under the [test-micro-] keys; the averages
    over the folds under the [test-macro-] keys; and under [test-loss] the
    test loss of the last fold alone. *)
Theorem run_summary_contents
  (acc_f1 : list (list Q) -> list nat -> Report.ending (Q * Q * Q * Q))
  (folds : list Report.fold_report) (acc P R F1 : Q) :
  NoDup (Report.fp_domain <$> folds) ->
  "test-micro"%string ∉ Report.fp_domain <$> folds ->
  "test-macro"%string ∉ Report.fp_domain <$> folds ->
  folds <> [] ->
  acc_f1 (concat ((fun f => Main.fr_logits (Report.fp_result f)) <$> folds))
         (concat ((fun f => Main.fr_labels (Report.fp_result f)) <$> folds))
  = Report.Completed (acc, P, R, F1) ->
  exists s,
    Report.run_summary acc_f1 folds = Report.Completed s /\
    (forall f, f ∈ folds ->
       s !! (Report.fp_domain f ++ "-P")%string = Some (Report.fp_P f) /\
       s !! (Report.fp_domain f ++ "-R")%string = Some (Report.fp_R f) /\
       s !! (Report.fp_domain f ++ "-F1")%string = Some (Report.fp_F1 f) /\
       s !! (Report.fp_domain f ++ "-Acc")%string = Some (Report.fp_acc f)) /\
    s !! "test-loss"%string = Report.fp_loss <$> last folds /\
    s !! "test-micro-acc"%string = Some acc /\
    s !! "test-micro-P"%string = Some P /\
    s !! "test-micro-R"%string = Some R /\
    s !! "test-micro-F1"%string = Some F1 /\
    Report.Completed <$> s !! "test-macro-acc"%string
    = Some (Report.mean (Report.fp_acc <$> folds)) /\
    Report.Completed <$> s !! "test-macro-P"%string
    = Some (Report.mean (Report.fp_P <$> folds)) /\
    Report.Completed <$> s !! "test-macro-R"%string
    = Some (Report.mean (Report.fp_R <$> folds)) /\
    Report.Completed <$> s !! "test-macro-F1"%string
    = Some (Report.mean (Report.fp_F1 <$> folds)) /\
    (forall k, k ∉ test_keys ->
               (forall f, f ∈ folds -> k ∉ fold_keys (Report.fp_domain f)) ->
               s !! k = None).
Proof.
  intros Hnd Hmi Hma Hne Hacc. unfold Report.run_summary. rewrite Hacc.
  cbn [mbind Report.ending_bind].
  destruct (last folds) as [fl|] eqn:Hlast;
    [|apply last_None in Hlast; done].
  cbn [mbind Report.ending_bind].
  assert (Hm : forall h : Report.fold_report -> Q, h <$> folds <> []).
  { intros h H. apply fmap_nil_inv in H. done. }
  rewrite !mean_nonempty_ending by apply Hm.
  cbn [mbind Report.ending_bind mret Report.ending_ret].
  eexists. split; [reflexivity|].
  split; [|repeat split].
  - intros f Hf.
    assert (Hd1 : Report.fp_domain f <> "test-micro"%string).
    { intros Heq. apply Hmi. rewrite <- Heq. apply list_elem_of_fmap. by exists f. }
    assert (Hd2 : Report.fp_domain f <> "test-macro"%string).
    { intros Heq. apply Hma. rewrite <- Heq. apply list_elem_of_fmap. by exists f. }
    assert (Hk : forall k t, k ∈ fold_keys (Report.fp_domain f) -> t ∈ test_keys ->
                             t <> k).
    { intros k t Hk Ht ->. by apply (fold_keys_not_test _ _ Hd1 Hd2 Hk Ht). }
    destruct (folds_summary_lookup folds f Hnd Hf) as (H1 & H2 & H3 & H4).
    repeat split.
    + rewrite !lookup_insert_ne; [exact H1|..];
        apply Hk; unfold fold_keys, test_keys; rewrite !elem_of_cons; auto 20.
    + rewrite !lookup_insert_ne; [exact H2|..];
        apply Hk; unfold fold_keys, test_keys; rewrite !elem_of_cons; auto 20.
    + rewrite !lookup_insert_ne; [exact H3|..];
        apply Hk; unfold fold_keys, test_keys; rewrite !elem_of_cons; auto 20.
    + rewrite !lookup_insert_ne; [exact H4|..];
        apply Hk; unfold fold_keys, test_keys; rewrite !elem_of_cons; auto 20.
  - rewrite !lookup_insert_ne by done. by rewrite lookup_insert_eq.
  - rewrite !lookup_insert_ne by done. by rewrite lookup_insert_eq.
  - rewrite !lookup_insert_ne by done. by rewrite lookup_insert_eq.
  - rewrite !lookup_insert_ne by done. by rewrite lookup_insert_eq.
  - rewrite !lookup_insert_ne by done. by rewrite lookup_insert_eq.
  - rewrite !lookup_insert_ne by done. by rewrite lookup_insert_eq.
  - rewrite !lookup_insert_ne by done. by rewrite lookup_insert_eq.
  - rewrite !lookup_insert_ne by done. by rewrite lookup_insert_eq.
  - by rewrite lookup_insert_eq.
  - intros k Hk Hf. unfold test_keys in Hk.
    do 9 (apply not_elem_of_cons in Hk as [? Hk]).
    rewrite !lookup_insert_ne by done. by apply folds_summary_other.
Qed.

Lemma run_summary_contents_witness :
  exists s,
    Report.run_summary (fun _ _ => Report.Completed (0.5, 0.5, 0.5, 0.5)%Q)
      [Report.FoldReport "books" 0.7 (sample_fold 8 10 0.8);
       Report.FoldReport "dvd" 0.9 (sample_fold 6 10 0.6)]
    = Report.Completed s /\
    s !! "test-loss"%string = Some 0.9%Q /\
    s !! "books-Acc"%string = Some 0.8%Q.
Proof.
  destruct (run_summary_contents
              (fun _ _ => Report.Completed (0.5, 0.5, 0.5, 0.5)%Q)
              [Report.FoldReport "books" 0.7 (sample_fold 8 10 0.8);
               Report.FoldReport "dvd" 0.9 (sample_fold 6 10 0.6)]
              0.5 0.5 0.5 0.5)
    as (s & Hrun & Hf & Hl & _).
  - apply (bool_decide_unpack _). vm_compute. exact I.
  - apply (bool_decide_unpack _). vm_compute. exact I.
  - apply (bool_decide_unpack _). vm_compute. exact I.
  - done.
  - reflexivity.
  - exists s. split; [exact Hrun|]. split; [exact Hl|].
    destruct (Hf (Report.FoldReport "books" 0.7 (sample_fold 8 10 0.8)))
      as (_ & _ & _ & H); [apply list_elem_of_here|exact H].
Defined.

(** ** The passes of the scheduler, one group per loader *)

Section RoundRobin.
Context {B : Type}.
Variable shuffle : nat -> list nat -> list nat.
Variable g : Z.
Variable L : Z.
Variable sched : bool.
Hypothesis g_pos : (1 <= g)%Z.
Hypothesis L_nonzero : L <> 0%Z.
Hypothesis shuffle_perm : forall c l, shuffle c l ≡ₚ l.

Abbreviation visit := (Scheduler.visit (B:=B) g L sched).
Abbreviation for_domains := (Scheduler.for_domains (B:=B) g L sched).
Abbreviation passes := (Scheduler.passes (B:=B) shuffle g L sched).
Abbreviation its := Scheduler.dl_iters.
Abbreviation fin := Scheduler.finished.
Abbreviation n := (Z.to_nat g).
Abbreviation no_group := (Group (B:=B) [] 0 0 0).

Lemma pass_groups_cons (dls : list (list B)) (p d : nat) (ds : list nat) :
  pass_groups n dls p (d :: ds)
  = pass_groups n dls p [d] ++ pass_groups n dls p ds.
Proof.
  unfold pass_groups. cbn [omap list_omap].
  by destruct (take _ _).
Qed.

Lemma pass_groups_ext (dls dls' : list (list B)) (p p' : nat) (ds : list nat) :
  (forall d, d ∈ ds ->
     drop (p * n) (default [] (dls !! d)) = drop (p' * n) (default [] (dls' !! d))) ->
  pass_groups n dls p ds = pass_groups n dls' p' ds.
Proof.
  intros H. induction ds as [|d ds IH]; [done|].
  rewrite (pass_groups_cons dls), (pass_groups_cons dls'), IH.
  - f_equal. unfold pass_groups. cbn [omap list_omap].
    rewrite H by apply list_elem_of_here. done.
  - intros x Hx. apply H. by apply list_elem_of_further.
Qed.

(** One visit: the iterator loses its next (up to) [g] batches, which
    form one group if there is any; the loader is marked finished when
    fewer than [g] batches were left. *)
Lemma visit_round (d : nat) (st : Scheduler.state) (it : list B) :
  its st !! d = Some it ->
  exists e i',
    visit d st
    = Done (e, Scheduler.State (<[d := drop n it]> (its st)) (Scheduler.dl_idx st)
                 (if length it <? n then <[d := 1]> (fin st) else fin st)
                 i' (Scheduler.rng st)) /\
    forall t, (groups_from t).1 = no_group ->
      (groups_from (e ++ t)).1 = no_group /\
      g_batches <$> groups (e ++ t)
      = pass_groups n (its st) 0 [d] ++ (g_batches <$> groups t).
Proof.
  intros Hit. destruct it as [|b it].
  - exists [], (Scheduler.i_ctr st).
    rewrite (visit_empty g L sched d st g_pos Hit).
    assert ((length (@nil B) <? n) = true) as -> by (apply Nat.ltb_lt; cbn [length]; lia).
    rewrite drop_nil, (list_insert_id (its st) d []) by done.
    split; [done|]. intros t Ht. split; [done|].
    unfold pass_groups. cbn [omap list_omap]. rewrite Hit. simpl.
    by rewrite take_nil.
  - eexists _, _.
    rewrite (visit_nonempty g L sched d st (b :: it) L_nonzero Hit ltac:(done)).
    split; [reflexivity|]. intros t Ht.
    destruct (groups_from_block g L sched d (take n (b :: it))
                (Scheduler.i_ctr st) t Ht) as [k Hk].
    unfold groups. rewrite Hk. split; [done|].
    unfold pass_groups. cbn [omap list_omap]. rewrite Hit. simpl.
    destruct n as [|m] eqn:Hn; [lia|]. done.
Qed.

(** One pass over loaders that are visited once each. *)
Lemma for_domains_round (ds : list nat) (st : Scheduler.state) :
  NoDup ds -> Forall (fun d => d < length (its st)) ds ->
  exists e st',
    for_domains ds st = Done (e, st') /\
    length (its st') = length (its st) /\
    (forall x, its st' !! x
               = (if bool_decide (x ∈ ds) then drop n else id) <$> its st !! x) /\
    (forall x, fin st' !! x
               = if bool_decide (x ∈ ds)
                    && bool_decide (length (default [] (its st !! x)) < n)
                 then (fun _ => 1) <$> fin st !! x else fin st !! x) /\
    Scheduler.dl_idx st' = Scheduler.dl_idx st /\
    Scheduler.rng st' = Scheduler.rng st /\
    forall t, (groups_from t).1 = no_group ->
      (groups_from (e ++ t)).1 = no_group /\
      g_batches <$> groups (e ++ t)
      = pass_groups n (its st) 0 ds ++ (g_batches <$> groups t).
Proof.
  intros Hnd. revert st. induction Hnd as [|d ds Hd Hnd IH]; intros st Hds.
  - exists [], st. split; [done|]. split; [done|].
    split; [intros x; by destruct (its st !! x)|].
    split; [done|]. split; [done|]. split; [done|]. intros t Ht. by split.
  - apply Forall_cons in Hds as [Hdl Hds].
    destruct (lookup_lt_is_Some_2 _ _ Hdl) as [it Hit].
    destruct (visit_round d st it Hit) as (e1 & i' & Hv & Hg1).
    set (st1 := Scheduler.State _ _ _ _ _) in Hv.
    destruct (IH st1) as (e2 & st2 & Hf & Hlen & Hits & Hfin & Hidx & Hrng & Hg2).
    { subst st1; simpl. by rewrite length_insert. }
    exists (e1 ++ e2), st2. cbn [Scheduler.for_domains].
    rewrite Hv. cbn [mbind outcome_bind]. rewrite Hf. cbn [mbind outcome_bind].
    split; [done|].
    split; [rewrite Hlen; subst st1; simpl; by rewrite length_insert|].
    split; [|split; [|split; [done|split; [done|]]]].
    + intros x. rewrite Hits. subst st1; simpl.
      destruct (decide (x = d)) as [->|Hne].
      * rewrite list_lookup_insert_eq, Hit by done.
        rewrite bool_decide_eq_false_2 by done.
        rewrite bool_decide_eq_true_2 by apply list_elem_of_here. done.
      * rewrite list_lookup_insert_ne by done.
        destruct (bool_decide (x ∈ ds)) eqn:Hx.
        -- apply bool_decide_eq_true in Hx.
           rewrite bool_decide_eq_true_2 by (by apply list_elem_of_further). done.
        -- apply bool_decide_eq_false in Hx.
           rewrite bool_decide_eq_false_2; [done|].
           intros [?|?]%elem_of_cons; done.
    + intros x. rewrite Hfin. subst st1; simpl.
      destruct (decide (x = d)) as [->|Hne].
      * rewrite (bool_decide_eq_false_2 (d ∈ ds)) by done.
        rewrite (bool_decide_eq_true_2 (d ∈ d :: ds)) by apply list_elem_of_here.
        rewrite Hit. simpl.
        destruct (Nat.ltb_spec (length it) n) as [Hlt|Hge].
        -- rewrite bool_decide_eq_true_2 by done.
           rewrite list_lookup_insert.
           destruct (decide _) as [[_ Hl]|Hl].
           ++ by destruct (lookup_lt_is_Some_2 _ _ Hl) as [f ->].
           ++ assert (fin st !! d = None) as ->; [|done].
              apply lookup_ge_None. lia.
        -- rewrite bool_decide_eq_false_2 by lia. done.
      * rewrite list_lookup_insert_ne by done.
        assert ((if length it <? n then <[d:=1]> (fin st) else fin st) !! x
                = fin st !! x) as ->.
        { destruct (_ <? _); [|done]. by rewrite list_lookup_insert_ne. }
        destruct (bool_decide (x ∈ ds)) eqn:Hx.
        -- apply bool_decide_eq_true in Hx.
           rewrite (bool_decide_eq_true_2 (x ∈ d :: ds))
             by (by apply list_elem_of_further). done.
        -- apply bool_decide_eq_false in Hx.
           rewrite (bool_decide_eq_false_2 (x ∈ d :: ds)); [done|].
           intros [?|?]%elem_of_cons; done.
    + intros t Ht. destruct (Hg2 t Ht) as [Hh2 Hb2].
      destruct (Hg1 (e2 ++ t) Hh2) as [Hh1 Hb1].
      rewrite <- app_assoc. split; [done|].
      rewrite Hb1, Hb2, (pass_groups_cons (its st) 0 d ds), <- app_assoc.
      do 2 f_equal.
      apply pass_groups_ext. intros x Hx. subst st1; simpl.
      rewrite list_lookup_insert_ne; [done|]. intros ->. done.
Qed.

End RoundRobin.

Section PassesFacts.
Context {B : Type}.

Lemma length_le_sum (dls : list (list B)) (dl : list B) :
  dl ∈ dls -> length dl <= sum_list_with length dls.
Proof.
  induction dls as [|x dls IH]; [by intros ?%elem_of_nil|].
  intros [->|Hin]%elem_of_cons; simpl; [lia|]. specialize (IH Hin). lia.
Qed.

Lemma passes_needed_le (k : nat) (dls : list (list B)) :
  1 <= k -> passes_needed k dls <= sum_list_with length dls + length dls.
Proof.
  intros Hk. unfold passes_needed. destruct dls as [|dl0 dls]; [done|].
  set (l := dl0 :: dls).
  assert (Hne : (fun dl : list B => length dl / k) <$> l <> []) by done.
  apply max_list_elem_of, list_elem_of_fmap in Hne as (dl & -> & Hin).
  pose proof (length_le_sum l dl Hin) as Hle.
  assert (length dl / k <= length dl) by (apply Nat.Div0.div_le_upper_bound; nia).
  subst l. cbn [length] in *. lia.
Qed.

(** The loop of line 66 goes on exactly while some loader has not yet
    raised [StopIteration]. *)
Lemma pass_flags_sum (k p : nat) (dls : list (list B)) :
  1 <= k ->
  (sum_list ((fun dl => if length dl <? p * k then 1 else 0) <$> dls)
   <? length dls)
  = (p <? passes_needed k dls).
Proof.
  intros Hk.
  set (F := (fun dl : list B => if length dl <? p * k then 1 else 0) <$> dls).
  assert (HF : Forall (fun f => f <= 1) F).
  { subst F. apply Forall_fmap, Forall_forall. intros dl _. simpl.
    destruct (_ <? _); lia. }
  assert (HlenF : length F = length dls) by (subst F; by rewrite length_fmap).
  apply eq_true_iff_eq. rewrite !Nat.ltb_lt. split.
  - intros Hlt. rewrite <- HlenF in Hlt.
    destruct (sum_list_not_full F HF Hlt) as [d Hd].
    subst F. rewrite list_lookup_fmap in Hd.
    destruct (dls !! d) as [dl|] eqn:Hdl; [|done]. simpl in Hd.
    destruct (Nat.ltb_spec (length dl) (p * k)) as [|Hge]; [done|].
    assert (Hin : length dl / k ∈ (fun dl : list B => length dl / k) <$> dls).
    { apply list_elem_of_fmap. exists dl. split; [done|].
      by eapply list_elem_of_lookup_2. }
    apply max_list_elem_of_le in Hin.
    assert (p <= length dl / k) by (apply Nat.div_le_lower_bound; lia).
    unfold passes_needed. destruct dls; [done|]. lia.
  - intros Hp. unfold passes_needed in Hp. destruct dls as [|dl0 dls]; [lia|].
    set (l := dl0 :: dls) in *.
    assert (Hne : (fun dl : list B => length dl / k) <$> l <> []) by done.
    apply max_list_elem_of, list_elem_of_fmap in Hne as (dl & Hmax & Hin).
    apply list_elem_of_lookup in Hin as [d Hd].
    assert (Hge : p * k <= length dl).
    { pose proof (Nat.Div0.mul_div_le (length dl) k). nia. }
    assert (H0 : F !! d = Some 0).
    { subst F. rewrite list_lookup_fmap, Hd. simpl.
      destruct (Nat.ltb_spec (length dl) (p * k)); [lia|done]. }
    rewrite <- HlenF. apply Nat.lt_nge. intros Hle.
    pose proof (sum_list_full F HF Hle) as Hall.
    by pose proof (Forall_lookup_1 _ _ _ _ Hall H0).
Qed.

End PassesFacts.

Section RoundRobinEpoch.
Context {B : Type}.
Variable shuffle : nat -> list nat -> list nat.
Variable g : Z.
Variable L : Z.
Variable sched : bool.
Variable dls : list (list B).
Variable r : nat.
Hypothesis g_pos : (1 <= g)%Z.
Hypothesis L_nonzero : L <> 0%Z.
Hypothesis shuffle_perm : forall c l, shuffle c l ≡ₚ l.

Abbreviation passes := (Scheduler.passes (B:=B) shuffle g L sched).
Abbreviation its := Scheduler.dl_iters.
Abbreviation fin := Scheduler.finished.
Abbreviation n := (Z.to_nat g).
Abbreviation no_group := (Group (B:=B) [] 0 0 0).
Abbreviation idx_of := (idx_at shuffle r (seq 0 (length dls))).
Abbreviation P := (passes_needed n dls).

(** The passes from pass [p] on, for the state that [p] passes leave. *)
Lemma passes_round (fuel p : nat) (st : Scheduler.state) :
  its st = drop (p * n) <$> dls ->
  fin st = (fun dl => if length dl <? p * n then 1 else 0) <$> dls ->
  shuffle (Scheduler.rng st) (Scheduler.dl_idx st) = idx_of p ->
  Scheduler.dl_idx st ≡ₚ seq 0 (length dls) ->
  Scheduler.rng st = r + p ->
  p <= P -> P - p < fuel ->
  exists tr st',
    passes fuel st = Done (tr, st') /\
    (groups_from tr).1 = no_group /\
    g_batches <$> groups tr
    = concat ((fun q => pass_groups n dls q (idx_of q)) <$> seq p (P - p)) /\
    Scheduler.rng st' = r + P.
Proof.
  revert p st. induction fuel as [|fuel IH];
    intros p st Hits Hfin Hsh Hidx Hrng HpP Hfuel; [lia|].
  cbn [Scheduler.passes]. rewrite Hfin, Hits, length_fmap.
  rewrite pass_flags_sum by lia.
  destruct (Nat.ltb_spec p P) as [Hlt|Hge].
  - rewrite <- Hits, <- Hfin.
    set (idx := shuffle (Scheduler.rng st) (Scheduler.dl_idx st)).
    set (st0 := Scheduler.State _ _ _ _ _).
    assert (Hidxp : idx = idx_of p) by exact Hsh.
    assert (Hperm : idx ≡ₚ seq 0 (length dls))
      by (subst idx; by rewrite shuffle_perm).
    destruct (for_domains_round g L sched g_pos L_nonzero idx st0)
      as (e1 & st1 & Hf & Hlen & Hits1 & Hfin1 & Hidx1 & Hrng1 & Hg1).
    { rewrite Hperm. apply NoDup_seq. }
    { apply Forall_forall. intros d Hd. rewrite Hperm in Hd.
      apply elem_of_seq in Hd. subst st0; simpl.
      rewrite Hits, length_fmap. lia. }
    rewrite Hf. cbn [mbind outcome_bind].
    assert (Hin : forall x, x < length dls -> bool_decide (x ∈ idx) = true).
    { intros x Hx. apply bool_decide_eq_true. rewrite Hperm.
      apply elem_of_seq. lia. }
    assert (Hlen1 : length (its st1) = length dls).
    { rewrite Hlen. subst st0; simpl. by rewrite Hits, length_fmap. }
    destruct (IH (S p) st1) as (e2 & st2 & Hp2 & Hh2 & Hb2 & Hr2).
    + apply list_eq. intros x. rewrite Hits1. subst st0; simpl.
      rewrite Hits, !list_lookup_fmap.
      destruct (dls !! x) as [dl|] eqn:Hdl; [|done]. simpl.
      rewrite Hin by (by eapply lookup_lt_Some). simpl.
      rewrite drop_drop. do 2 f_equal. lia.
    + apply list_eq. intros x. rewrite Hfin1. subst st0; simpl.
      rewrite Hits, Hfin, !list_lookup_fmap.
      destruct (dls !! x) as [dl|] eqn:Hdl; [|simpl; by destruct (_ && _)].
      simpl. rewrite Hin by (by eapply lookup_lt_Some). simpl.
      rewrite length_drop.
      destruct (Nat.ltb_spec (length dl) (n + p * n)) as [H1|H1].
      * rewrite bool_decide_eq_true_2 by lia. done.
      * rewrite bool_decide_eq_false_2 by lia.
        destruct (Nat.ltb_spec (length dl) (p * n)); [lia|done].
    + rewrite Hrng1, Hidx1. subst st0; simpl. rewrite Hidxp, Hrng.
      cbn [idx_at]. f_equal. lia.
    + rewrite Hidx1. subst st0; simpl. done.
    + rewrite Hrng1. subst st0; simpl. lia.
    + lia.
    + lia.
    + rewrite Hp2. cbn [mbind outcome_bind].
      exists (e1 ++ e2), st2. split; [done|].
      pose proof (Hg1 e2 Hh2) as [Hh1 Hb1].
      split; [done|]. split; [|done].
      rewrite Hb1, Hb2.
      replace (P - p) with (S (P - S p)) by lia.
      cbn [seq fmap list_fmap concat]. f_equal.
      subst st0; simpl. rewrite Hidxp.
      apply pass_groups_ext. intros d _. rewrite Hits, list_lookup_fmap.
      destruct (dls !! d); simpl; [done|]. by rewrite !drop_nil.
  - exists [], st. split; [done|].
    split; [done|]. replace (P - p) with 0 by lia.
    split; [done|]. lia.
Qed.

End RoundRobinEpoch.

(** X16. An epoch proceeds in passes, and in every pass each loader that
    has batches left contributes exactly one accumulation group, its next
    (up to) [gradient_accumulation] batches, in the order in which the
    shuffled [dl_idx] lists the loaders. The groups of the epoch are those
    of its passes one after the other, and [random.shuffle] is called once
    per pass: one time more than the largest number of full groups of a
    loader. *)
Theorem scheduler_is_round_robin
  {B : Type} (shuffle : nat -> list nat -> list nat) (g L : Z) (sched : bool)
  (dls : list (list B)) (r fuel : nat) :
  (1 <= g)%Z -> L <> 0%Z -> (forall c l, shuffle c l ≡ₚ l) ->
  sum_list_with length dls + length dls < fuel ->
  exists tr st,
    Scheduler.run_epoch shuffle g L sched fuel dls r = Done (tr, st) /\
    g_batches <$> groups tr
    = concat ((fun p => pass_groups (Z.to_nat g) dls p
                          (idx_at shuffle r (seq 0 (length dls)) p))
                <$> seq 0 (passes_needed (Z.to_nat g) dls)) /\
    Scheduler.rng st = r + passes_needed (Z.to_nat g) dls.
Proof.
  intros Hg HL Hsh Hfuel.
  pose proof (passes_needed_le (Z.to_nat g) dls ltac:(lia)) as HP.
  destruct (passes_round shuffle g L sched dls r Hg HL Hsh fuel 0
              (Scheduler.start dls r))
    as (tr & st & Hrun & _ & Hb & Hr).
  - unfold Scheduler.start; simpl.
    transitivity (id <$> dls); [by rewrite list_fmap_id|].
    by apply list_fmap_ext.
  - unfold Scheduler.start; simpl. symmetry. by apply const_fmap.
  - done.
  - done.
  - unfold Scheduler.start; simpl. lia.
  - lia.
  - lia.
  - exists tr, st. split; [exact Hrun|]. rewrite Nat.sub_0_r in Hb. done.
Qed.

Lemma scheduler_is_round_robin_witness :
  exists tr st,
    Scheduler.run_epoch (fun _ l => rev l) 2 1 true 20
      [[1; 2; 3]; [4; 5; 6; 7; 8]; [9; 10]] 0 = Done (tr, st) /\
    g_batches <$> groups tr
    = [[(2, 9); (2, 10)]; [(1, 4); (1, 5)]; [(0, 1); (0, 2)];
       [(0, 3)]; [(1, 6); (1, 7)];
       [(1, 8)]] /\
    Scheduler.rng st = 3.
Proof.
  destruct (scheduler_is_round_robin (fun _ l => rev l) 2 1 true
              [[1; 2; 3]; [4; 5; 6; 7; 8]; [9; 10]] 0 20)
    as (tr & st & Hrun & Hb & Hr).
  - lia.
  - lia.
  - intros c l. symmetry. apply Permutation_rev.
  - simpl. lia.
  - exists tr, st. split; [exact Hrun|]. split; [|exact Hr].
    rewrite Hb. reflexivity.
Defined.
